(** * typescript-a2s: the protocol engine of an A2S query client

    A shallow embedding of the TypeScript sources (exceptions.ts, byteio.ts,
    fragment.ts, socket.ts, protocols.ts, a2s.ts) and the properties of the
    binary codec, the fragment assembler, the query codecs and the
    challenge handshake.

    Conventions.  A JavaScript number or bigint holding an integer is a [Z];
    a [Buffer] is the list of its bytes, each a [Z] in [0, 256); a
    JavaScript string is the list of its UTF-16 code units.  A call that can
    throw returns a [Result]; a method of a stateful object takes the object
    and returns it next to its result, also when it throws. *)

From Stdlib Require Import String Ascii ZArith List Bool Lia.
From Stdlib Require Import Permutation Sorted QArith_base.
From Stdlib Require DecimalString HexadecimalString.
From Equations Require Import Equations.
Import ListNotations.
Open Scope Z_scope.

Set Implicit Arguments.

(* ===================================================================== *)
(** ** The JavaScript runtime: values, exceptions, Buffer                 *)
(* ===================================================================== *)

Module JS.

(** A [Buffer]: bytes in arrival order. *)
Definition Buffer := list Z.

(** A string: its UTF-16 code units. *)
Definition JSString := list Z.

Definition is_byte (b : Z) : Prop := 0 <= b < 256.
Definition is_bytes (b : Buffer) : Prop := Forall is_byte b.

(** Code units of an ASCII literal of the sources. *)
Fixpoint lit (s : string) : list Z :=
  match s with
  | EmptyString => []
  | String c s' => Z.of_nat (nat_of_ascii c) :: lit s'
  end.

(** Template-literal rendering of an integer: [`${n}`] and
    [n.toString(16)] (the latter on non-negative integers). *)
Definition show (n : Z) : string :=
  DecimalString.NilZero.string_of_int (Z.to_int n).
Definition show_hex (n : Z) : string :=
  HexadecimalString.NilZero.string_of_uint (N.to_hex_uint (Z.to_N n)).

(** One byte of [buf.toString('hex')]: two digits. *)
Definition show_hex2 (b : Z) : string :=
  ((if (b <? 16)%Z then "0" else "") ++ show_hex b)%string.

(** exceptions.ts: [BrokenMessageError extends Error],
    [BufferExhaustedError extends BrokenMessageError]; the other
    constructors are the runtime's own error classes. *)
Inductive JSError : Type :=
| BufferExhaustedError (message : string)
| BrokenMessageError (message : string)
| TypeError (message : string)
| RangeError (message : string)
| Error (message : string).

(** [e instanceof BufferExhaustedError] *)
Definition instanceof_BufferExhaustedError (e : JSError) : bool :=
  match e with BufferExhaustedError _ => true | _ => false end.

(** [e instanceof BrokenMessageError]: true of the subclass too. *)
Definition instanceof_BrokenMessageError (e : JSError) : bool :=
  match e with
  | BufferExhaustedError _ | BrokenMessageError _ => true
  | _ => false
  end.

Definition message_of (e : JSError) : string :=
  match e with
  | BufferExhaustedError m | BrokenMessageError m | TypeError m
  | RangeError m | Error m => m
  end.

(** The outcome of an expression that may throw. *)
Inductive Result (A : Type) : Type :=
| Ok (a : A)
| Throw (e : JSError).
Arguments Ok {A} a.
Arguments Throw {A} e.

Definition is_ok {A} (r : Result A) : bool :=
  match r with Ok _ => true | Throw _ => false end.

Definition rbind {A B} (r : Result A) (k : A -> Result B) : Result B :=
  match r with Ok a => k a | Throw e => Throw e end.

(** *** Buffer.prototype.subarray(start, end)

    Negative indices count from the end, every index is clamped to
    [0, length], and an end before the start gives the empty view. *)
Definition clampIndex (len i : Z) : Z :=
  if i <? 0 then Z.max (len + i) 0 else Z.min i len.

Definition subarray (b : Buffer) (start end_ : Z) : Buffer :=
  let len := Z.of_nat (length b) in
  let s := clampIndex len start in
  let e := clampIndex len end_ in
  firstn (Z.to_nat (e - s)) (skipn (Z.to_nat s) b).

(** [b.subarray(start)] *)
Definition subarray_from (b : Buffer) (start : Z) : Buffer :=
  subarray b start (Z.of_nat (length b)).

(** [a.equals(b)] *)
Definition Buffer_equals (a b : Buffer) : bool :=
  if list_eq_dec Z.eq_dec a b then true else false.

(** *** Fixed-width integers in a Buffer

    [le_bytes n v] is what [writeUIntLE]/[writeIntLE] store for an
    [n]-byte field: byte [k] receives [(v >> 8k) & 0xff], the store into
    the typed array keeping the low eight bits (two's complement for a
    negative [v]).  [le_value] is the sum [b0 + b1 * 2^8 + ...] the read
    functions compute. *)
Fixpoint le_bytes (n : nat) (v : Z) : Buffer :=
  match n with
  | O => []
  | S n' => Z.land v 255 :: le_bytes n' (Z.shiftr v 8)
  end.

Fixpoint le_value (bs : Buffer) : Z :=
  match bs with
  | [] => 0
  | b :: bs' => b + Z.shiftl (le_value bs') 8
  end.

(** Sign conversion of the read functions ([val | (val & 2^(w-1)) * ...],
    or [last << 24] overflowing): the value with bit [w-1] set denotes
    [val - 2^w]. *)
Definition to_signed (w : Z) (val : Z) : Z :=
  if Z.testbit val (w - 1) then val - 2 ^ w else val.

Definition ERR_OUT_OF_RANGE : JSError :=
  RangeError "ERR_OUT_OF_RANGE".

(** The [n] bytes at [offset], or the bounds error of the read functions. *)
Definition bytesAt (n : nat) (data : Buffer) (offset : nat) : Result Buffer :=
  let bs := firstn n (skipn offset data) in
  if Nat.eqb (length bs) n then Ok bs else Throw ERR_OUT_OF_RANGE.

Definition readUIntLE (n : nat) (data : Buffer) (offset : nat) : Result Z :=
  rbind (bytesAt n data offset) (fun bs => Ok (le_value bs)).
Definition readUIntBE (n : nat) (data : Buffer) (offset : nat) : Result Z :=
  rbind (bytesAt n data offset) (fun bs => Ok (le_value (rev bs))).
Definition readIntLE (n : nat) (data : Buffer) (offset : nat) : Result Z :=
  rbind (readUIntLE n data offset)
        (fun v => Ok (to_signed (8 * Z.of_nat n) v)).
Definition readIntBE (n : nat) (data : Buffer) (offset : nat) : Result Z :=
  rbind (readUIntBE n data offset)
        (fun v => Ok (to_signed (8 * Z.of_nat n) v)).

(** [buf.readUInt8(0)], [buf.readInt16LE(0)], [buf.readBigUInt64BE(0)], ... *)
Definition readUInt8 := readUIntLE 1.
Definition readInt8 := readIntLE 1.
Definition readUInt16LE := readUIntLE 2.
Definition readUInt16BE := readUIntBE 2.
Definition readInt16LE := readIntLE 2.
Definition readInt16BE := readIntBE 2.
Definition readUInt32LE := readUIntLE 4.
Definition readUInt32BE := readUIntBE 4.
Definition readInt32LE := readIntLE 4.
Definition readInt32BE := readIntBE 4.
Definition readBigUInt64LE := readUIntLE 8.
Definition readBigUInt64BE := readUIntBE 8.
Definition readBigInt64LE := readIntLE 8.
Definition readBigInt64BE := readIntBE 8.

(** [Buffer.alloc(n)] followed by one write at offset 0: the write
    functions check [min <= value <= max] and throw a [RangeError]
    otherwise. *)
Definition writeChecked (n : nat) (bigEndian : bool) (min max value : Z)
  : Result Buffer :=
  if (value <? min) || (max <? value) then Throw ERR_OUT_OF_RANGE
  else Ok (if bigEndian then rev (le_bytes n value) else le_bytes n value).

Definition writeUInt (n : nat) (bigEndian : bool) (value : Z) : Result Buffer :=
  writeChecked n bigEndian 0 (2 ^ (8 * Z.of_nat n) - 1) value.
Definition writeInt (n : nat) (bigEndian : bool) (value : Z) : Result Buffer :=
  writeChecked n bigEndian (- 2 ^ (8 * Z.of_nat n - 1))
               (2 ^ (8 * Z.of_nat n - 1) - 1) value.

(** *** Text encodings: [buf.toString(enc)] and [Buffer.from(s, enc)]

    The client is configured with ['utf-8'], a single-byte encoding
    (['latin1']) or [null] for raw bytes. *)
Inductive BufferEncoding : Type := utf8 | latin1.

(** The UTF-8 decoder, as the Encoding Standard states it: a lead byte
    fixes how many continuation bytes are needed and the range allowed
    for the next one; a byte outside that range ends the sequence with
    one U+FFFD and is decoded again as a first byte; so does the end of
    the input inside a sequence. *)
Record Utf8State : Type := mkUtf8State
  { remaining : nat; code_point : Z; lower : Z; upper : Z }.

Definition utf8_init : Utf8State := mkUtf8State 0 0 128 191.

Definition REPLACEMENT : Z := 65533. (* U+FFFD *)

Definition utf8_start (b : Z) : list Z * Utf8State :=
  if b <=? 127 then ([b], utf8_init)
  else if (194 <=? b) && (b <=? 223) then
    ([], mkUtf8State 1 (b - 192) 128 191)
  else if (224 <=? b) && (b <=? 239) then
    ([], mkUtf8State 2 (b - 224)
                     (if b =? 224 then 160 else 128)
                     (if b =? 237 then 159 else 191))
  else if (240 <=? b) && (b <=? 244) then
    ([], mkUtf8State 3 (b - 240)
                     (if b =? 240 then 144 else 128)
                     (if b =? 244 then 143 else 191))
  else ([REPLACEMENT], utf8_init).

(** The code points decoded from [bytes], starting in state [st];
    [code_point * 64 + (b - 128)] is [(code_point << 6) | (b & 0x3F)] for
    a continuation byte [b]. *)
Fixpoint utf8_decode_from (st : Utf8State) (bytes : Buffer) : list Z :=
  match bytes with
  | [] => match remaining st with O => [] | S _ => [REPLACEMENT] end
  | b :: rest =>
      match remaining st with
      | O => let '(out, st') := utf8_start b in
             out ++ utf8_decode_from st' rest
      | S k =>
          if (lower st <=? b) && (b <=? upper st) then
            let cp := code_point st * 64 + (b - 128) in
            match k with
            | O => cp :: utf8_decode_from utf8_init rest
            | S _ => utf8_decode_from (mkUtf8State k cp 128 191) rest
            end
          else
            let '(out, st') := utf8_start b in
            REPLACEMENT :: out ++ utf8_decode_from st' rest
      end
  end.

(** A code point as UTF-16 code units. *)
Definition utf16_units (cp : Z) : list Z :=
  if cp <? 65536 then [cp]
  else [55296 + (cp - 65536) / 1024; 56320 + (cp - 65536) mod 1024].

Definition is_high_surrogate (u : Z) : bool := (55296 <=? u) && (u <=? 56319).
Definition is_low_surrogate (u : Z) : bool := (56320 <=? u) && (u <=? 57343).

Definition utf8_encode_cp (cp : Z) : Buffer :=
  if cp <? 128 then [cp]
  else if cp <? 2048 then [192 + cp / 64; 128 + cp mod 64]
  else if cp <? 65536 then
    [224 + cp / 4096; 128 + (cp / 64) mod 64; 128 + cp mod 64]
  else [240 + cp / 262144; 128 + (cp / 4096) mod 64;
        128 + (cp / 64) mod 64; 128 + cp mod 64].

(** UTF-8 of a string: a surrogate pair is one code point, a lone
    surrogate is written as U+FFFD. *)
Fixpoint utf8_encode (s : JSString) : Buffer :=
  match s with
  | [] => []
  | u :: rest =>
      if is_high_surrogate u then
        match rest with
        | v :: rest' =>
            if is_low_surrogate v then
              utf8_encode_cp (65536 + (u - 55296) * 1024 + (v - 56320))
                ++ utf8_encode rest'
            else utf8_encode_cp REPLACEMENT ++ utf8_encode rest
        | [] => utf8_encode_cp REPLACEMENT
        end
      else if is_low_surrogate u then
        utf8_encode_cp REPLACEMENT ++ utf8_encode rest
      else utf8_encode_cp u ++ utf8_encode rest
  end.

(** [buf.toString(enc)] *)
Definition Buffer_toString (enc : BufferEncoding) (data : Buffer) : JSString :=
  match enc with
  | utf8 => flat_map utf16_units (utf8_decode_from utf8_init data)
  | latin1 => data
  end.

(** [Buffer.from(s, enc)]; ['latin1'] keeps the low byte of each unit. *)
Definition Buffer_from (s : JSString) (enc : BufferEncoding) : Buffer :=
  match enc with
  | utf8 => utf8_encode s
  | latin1 => map (fun u => Z.land u 255) s
  end.

(** [s.toLowerCase()], on the strings the sources apply it to: one
    decoded byte, that is one code unit of U+0000..U+00FF or U+FFFD.
    There the upper-case letters are A-Z and U+00C0..U+00DE without the
    multiplication sign U+00D7, each 32 below its lower-case form. *)
Definition toLowerCase_unit (u : Z) : Z :=
  if ((65 <=? u) && (u <=? 90))
     || ((192 <=? u) && (u <=? 222) && negb (u =? 215))
  then u + 32 else u.
Definition toLowerCase (s : JSString) : JSString := map toLowerCase_unit s.

(** A text value of the API: [string | Buffer]. *)
Inductive Text : Type :=
| Str (s : JSString)
| Buf (b : Buffer).

(** [(v as string).toLowerCase()]: the cast is erased at run time, and a
    Buffer has no such method. *)
Definition call_toLowerCase (v : Text) : Result JSString :=
  match v with
  | Str s => Ok (toLowerCase s)
  | Buf _ => Throw (TypeError "toLowerCase is not a function")
  end.

(** [v === 'literal'] *)
Definition strict_equals_string (v : JSString) (l : string) : bool :=
  if list_eq_dec Z.eq_dec v (lit l) then true else false.

End JS.

Export JS.

(* ===================================================================== *)
(** ** byteio.ts: ByteReader and ByteWriter                               *)
(* ===================================================================== *)

Module ByteIO.

Record ByteReader : Type := mkByteReader
  { buffer : Buffer;
    position : Z;
    encoding : option BufferEncoding;
    littleEndian : bool }.

(** [new ByteReader(buffer, littleEndian = true, encoding = null)] *)
Definition new_ByteReader (buffer : Buffer) (littleEndian : bool)
           (encoding : option BufferEncoding) : ByteReader :=
  mkByteReader buffer 0 encoding littleEndian.

Definition set_position (r : ByteReader) (p : Z) : ByteReader :=
  mkByteReader (buffer r) p (encoding r) (littleEndian r).

(** A method of the reader: the result or the exception, and the reader
    as the call leaves it. *)
Definition Reader (A : Type) : Type := ByteReader -> Result A * ByteReader.

Definition ret {A} (a : A) : Reader A := fun r => (Ok a, r).
Definition throw {A} (e : JSError) : Reader A := fun r => (Throw e, r).
Definition bind {A B} (m : Reader A) (k : A -> Reader B) : Reader B :=
  fun r => match m r with
           | (Ok a, r') => k a r'
           | (Throw e, r') => (Throw e, r')
           end.
Definition lift {A} (x : Result A) : Reader A := fun r => (x, r).

(** [try { m } catch (error) { h error }] *)
Definition try_catch {A} (m : Reader A) (h : JSError -> Reader A) : Reader A :=
  fun r => match m r with
           | (Ok a, r') => (Ok a, r')
           | (Throw e, r') => h e r'
           end.

Declare Scope reader_scope.
Delimit Scope reader_scope with reader.
Notation "x <- m ;; k" := (bind m (fun x => k))
  (at level 61, m at next level, right associativity) : reader_scope.
Notation "m ;;; k" := (bind m (fun _ => k))
  (at level 61, right associativity) : reader_scope.
Open Scope reader_scope.

(** [read(size)] *)
Definition read (size : Z) : Reader Buffer := fun r =>
  if position r + size >? Z.of_nat (length (buffer r)) then
    (Throw (BufferExhaustedError
              ("Cannot read " ++ show size ++ " bytes from position "
                              ++ show (position r))), r)
  else
    let data := subarray (buffer r) (position r) (position r + size) in
    (Ok data, set_position r (position r + size)).

(** [peek(size?)] *)
Definition peek (size : option Z) : Reader Buffer := fun r =>
  let endPos :=
    match size with
    | Some size => Z.min (position r + size) (Z.of_nat (length (buffer r)))
    | None => Z.of_nat (length (buffer r))
    end in
  (Ok (subarray (buffer r) (position r) endPos), r).

Definition readInt8 : Reader Z :=
  data <- read 1 ;; lift (JS.readInt8 data 0).

Definition readUint8 : Reader Z :=
  data <- read 1 ;; lift (JS.readUInt8 data 0).

Definition readInt16 : Reader Z := fun r =>
  (data <- read 2 ;;
   lift (if littleEndian r then readInt16LE data 0 else readInt16BE data 0)) r.

Definition readUint16 : Reader Z := fun r =>
  (data <- read 2 ;;
   lift (if littleEndian r then readUInt16LE data 0 else readUInt16BE data 0)) r.

Definition readInt32 : Reader Z := fun r =>
  (data <- read 4 ;;
   lift (if littleEndian r then readInt32LE data 0 else readInt32BE data 0)) r.

Definition readUint32 : Reader Z := fun r =>
  (data <- read 4 ;;
   lift (if littleEndian r then readUInt32LE data 0 else readUInt32BE data 0)) r.

Definition readInt64 : Reader Z := fun r =>
  (data <- read 8 ;;
   lift (if littleEndian r then readBigInt64LE data 0
         else readBigInt64BE data 0)) r.

Definition readUint64 : Reader Z := fun r =>
  (data <- read 8 ;;
   lift (if littleEndian r then readBigUInt64LE data 0
         else readBigUInt64BE data 0)) r.

(** [readFloat()]: the four bytes are read in the configured byte order;
    the IEEE-754 single they denote is kept as its 32-bit pattern. *)
Definition readFloat : Reader Z := fun r =>
  (data <- read 4 ;;
   lift (if littleEndian r then readUInt32LE data 0 else readUInt32BE data 0)) r.

(** [readDouble()], kept as its 64-bit pattern. *)
Definition readDouble : Reader Z := fun r =>
  (data <- read 8 ;;
   lift (if littleEndian r then readBigUInt64LE data 0
         else readBigUInt64BE data 0)) r.

Definition readBool : Reader bool :=
  v <- readInt8 ;; ret (negb (v =? 0)).

(** The tail shared by [readChar] and [readCString]. *)
Definition decoded (data : Buffer) : Reader Text := fun r =>
  match encoding r with
  | Some enc => (Ok (Str (Buffer_toString enc data)), r)
  | None => (Ok (Buf data), r)
  end.

Definition readChar : Reader Text :=
  data <- read 1 ;; decoded data.

(** The [do ... while (byte !== 0)] loop of [readCString]; every turn
    reads one byte, so [fuel] turns suffice when [fuel] exceeds the number
    of unread bytes. *)
Fixpoint readCString_loop (fuel : nat) (bytes : list Z) : Reader (list Z) :=
  match fuel with
  | O => throw (Error "unreachable: loop bound")
  | S fuel' =>
      byte <- readUint8 ;;
      if negb (byte =? 0) then readCString_loop fuel' (bytes ++ [byte])
      else ret bytes
  end.

Definition readCString : Reader Text := fun r =>
  (bytes <- readCString_loop (S (length (buffer r))) [] ;;
   decoded bytes) r.

Record ByteWriter : Type := mkByteWriter
  { buffers : list Buffer;
    w_encoding : option BufferEncoding;
    w_littleEndian : bool }.

(** [new ByteWriter(littleEndian = true, encoding = null)] *)
Definition new_ByteWriter (littleEndian : bool)
           (encoding : option BufferEncoding) : ByteWriter :=
  mkByteWriter [] encoding littleEndian.

(** [write(data)]: [this.buffers.push(data)] *)
Definition write (data : Buffer) (w : ByteWriter) : ByteWriter :=
  mkByteWriter (buffers w ++ [data]) (w_encoding w) (w_littleEndian w).

(** A write method: the writer after the call, or the [RangeError] of the
    runtime, thrown before anything is pushed. *)
Definition writeInt8 (value : Z) (w : ByteWriter) : Result ByteWriter :=
  rbind (writeInt 1 false value) (fun b => Ok (write b w)).
Definition writeUint8 (value : Z) (w : ByteWriter) : Result ByteWriter :=
  rbind (writeUInt 1 false value) (fun b => Ok (write b w)).
Definition writeInt16 (value : Z) (w : ByteWriter) : Result ByteWriter :=
  rbind (writeInt 2 (negb (w_littleEndian w)) value) (fun b => Ok (write b w)).
Definition writeUint16 (value : Z) (w : ByteWriter) : Result ByteWriter :=
  rbind (writeUInt 2 (negb (w_littleEndian w)) value) (fun b => Ok (write b w)).
Definition writeInt32 (value : Z) (w : ByteWriter) : Result ByteWriter :=
  rbind (writeInt 4 (negb (w_littleEndian w)) value) (fun b => Ok (write b w)).
Definition writeUint32 (value : Z) (w : ByteWriter) : Result ByteWriter :=
  rbind (writeUInt 4 (negb (w_littleEndian w)) value) (fun b => Ok (write b w)).
Definition writeInt64 (value : Z) (w : ByteWriter) : Result ByteWriter :=
  rbind (writeInt 8 (negb (w_littleEndian w)) value) (fun b => Ok (write b w)).
Definition writeUint64 (value : Z) (w : ByteWriter) : Result ByteWriter :=
  rbind (writeUInt 8 (negb (w_littleEndian w)) value) (fun b => Ok (write b w)).

Definition writeBool (value : bool) (w : ByteWriter) : Result ByteWriter :=
  writeInt8 (if value then 1 else 0) w.

(** [Buffer.from(value, this.encoding)], or [Buffer.from(value)], which
    encodes as UTF-8, when the encoding is [null]. *)
Definition encoded (value : JSString) (w : ByteWriter) : Buffer :=
  match w_encoding w with
  | Some enc => Buffer_from value enc
  | None => Buffer_from value utf8
  end.

Definition writeChar (value : JSString) (w : ByteWriter) : Result ByteWriter :=
  Ok (write (encoded value w) w).

Definition writeCString (value : Text) (w : ByteWriter) : Result ByteWriter :=
  let buffer :=
    match value with
    | Str s => encoded s w
    | Buf b => b
    end in
  writeUint8 0 (write buffer w).

Definition toBuffer (w : ByteWriter) : Buffer := concat (buffers w).

End ByteIO.

Export ByteIO.

(* ===================================================================== *)
(** ** fragment.ts                                                        *)
(* ===================================================================== *)

Module Fragment.

Record A2SFragment : Type := mkA2SFragment
  { messageId : Z;
    fragmentCount : Z;
    fragmentId : Z;
    mtu : Z;
    decompressedSize : Z;
    crc : Z;
    payload : Buffer }.

(** [new A2SFragment(messageId, fragmentCount, fragmentId, mtu)] *)
Definition new_A2SFragment (messageId fragmentCount fragmentId mtu : Z)
  : A2SFragment :=
  mkA2SFragment messageId fragmentCount fragmentId mtu 0 0 [].

(** [get isCompressed()]: [Boolean(this.messageId & (1 << 15))] *)
Definition isCompressed (f : A2SFragment) : bool :=
  negb (Z.land (messageId f) (Z.shiftl 1 15) =? 0).

Section Decode.

(** [zlib.inflateSync] of the runtime: the inflated bytes, or the
    exception it throws on data it cannot inflate. *)
Variable inflateSync : Buffer -> Result Buffer.

Definition decodeFragment_body : Reader A2SFragment :=
  messageId <- readUint32 ;;
  fragmentCount <- readUint8 ;;
  fragmentId <- readUint8 ;;
  mtu <- readUint16 ;;
  let frag := new_A2SFragment messageId fragmentCount fragmentId mtu in
  if isCompressed frag then
    decompressedSize <- readUint32 ;;
    crc <- readUint32 ;;
    compressedData <- peek None ;;
    let payload :=
      match inflateSync compressedData with
      | Ok inflated => inflated
      | Throw _ => compressedData
      end in
    ret (mkA2SFragment messageId fragmentCount fragmentId mtu
                       decompressedSize crc payload)
  else
    payload <- peek None ;;
    ret (mkA2SFragment messageId fragmentCount fragmentId mtu 0 0 payload).

Definition decodeFragment (data : Buffer) : Result A2SFragment :=
  fst (decodeFragment_body (new_ByteReader data true (Some utf8))).

End Decode.

End Fragment.

Export Fragment.

(* ===================================================================== *)
(** ** socket.ts: the transport                                           *)
(* ===================================================================== *)

Module Socket.

Definition HEADER_SIMPLE : Buffer := [255; 255; 255; 255].
Definition HEADER_MULTI : Buffer := [254; 255; 255; 255].
Definition A2S_CHALLENGE_RESPONSE : Z := 65.

(** [array.sort(compare)]: the sort of the language is stable; an
    insertion sort that puts an element before the first one it does not
    compare greater than is the stable order. *)
Fixpoint sort_insert {A} (compare : A -> A -> Z) (x : A) (l : list A) : list A :=
  match l with
  | [] => [x]
  | y :: l' => if compare x y <=? 0 then x :: y :: l'
               else y :: sort_insert compare x l'
  end.

Fixpoint Array_sort {A} (compare : A -> A -> Z) (l : list A) : list A :=
  match l with
  | [] => []
  | x :: l' => sort_insert compare x (Array_sort compare l')
  end.

(** What the transport emits to the listeners of one request. *)
Inductive Emitted : Type :=
| EmitData (data : Buffer)
| EmitError (error : JSError).

(** The fields of [A2SSocket] that the protocol engine reads and writes;
    [sent] records the datagrams handed to the UDP socket, oldest
    first. *)
Record A2SSocket : Type := mkA2SSocket
  { closed : bool;
    fragmentBuffer : list A2SFragment;
    sent : list Buffer }.

(** [new A2SSocket(address, port, timeout)] *)
Definition new_A2SSocket : A2SSocket := mkA2SSocket false [] [].

Definition set_fragmentBuffer (s : A2SSocket) (fb : list A2SFragment) : A2SSocket :=
  mkA2SSocket (closed s) fb (sent s).

(** [close()] *)
Definition close (s : A2SSocket) : A2SSocket :=
  if negb (closed s) then mkA2SSocket true (fragmentBuffer s) (sent s) else s.

(** [handleMultiPacket] from its second line on: the fragment is pushed,
    and the message is assembled once the buffer is long enough. *)
Definition handleFragment (fragment : A2SFragment) (s : A2SSocket)
  : option Emitted * A2SSocket :=
  let fragmentBuffer := fragmentBuffer s ++ [fragment] in
  if Z.of_nat (length fragmentBuffer) >=? fragmentCount fragment then
    let fragmentBuffer :=
      Array_sort (fun a b => fragmentId a - fragmentId b) fragmentBuffer in
    let reassembled := concat (map payload fragmentBuffer) in
    let finalData :=
      if Buffer_equals (subarray reassembled 0 4) HEADER_SIMPLE
      then subarray_from reassembled 4
      else reassembled in
    (Some (EmitData finalData), set_fragmentBuffer s [])
  else (None, set_fragmentBuffer s fragmentBuffer).

Section Transport.

Variable inflateSync : Buffer -> Result Buffer.

(** [handleMultiPacket(data)]; an exception of [decodeFragment] leaves
    the handler. *)
Definition handleMultiPacket (data : Buffer) (s : A2SSocket)
  : Result (option Emitted) * A2SSocket :=
  match decodeFragment inflateSync data with
  | Throw e => (Throw e, s)
  | Ok fragment =>
      let '(out, s') := handleFragment fragment s in (Ok out, s')
  end.

(** [handleMessage(packet, rinfo)] *)
Definition handleMessage (packet : Buffer) (s : A2SSocket)
  : Result (option Emitted) * A2SSocket :=
  if Z.of_nat (length packet) <? 4 then
    (Ok (Some (EmitError (BrokenMessageError "Packet too short"))), s)
  else
    let header := subarray packet 0 4 in
    let data := subarray_from packet 4 in
    if Buffer_equals header HEADER_SIMPLE then
      (Ok (Some (EmitData data)), s)
    else if Buffer_equals header HEADER_MULTI then
      handleMultiPacket data s
    else
      (Ok (Some (EmitError
                   (BrokenMessageError
                      ("Invalid packet header: "
                         ++ String.concat "" (map show_hex2 header))))), s).

(** What the network does while one [request] is pending: whether the
    transmission fails, the datagrams that arrive before the timeout
    fires, in order, and the milliseconds that pass until the call
    settles. *)
Record Exchange : Type := mkExchange
  { send_error : option JSError;
    arrivals : list Buffer;
    elapsed : Z }.

(** The datagrams of one exchange through [handleMessage], up to the
    first event: the one-shot listeners settle the promise on it and
    later events are ignored.  Without an event the timer rejects.  An
    exception that [handleMessage] throws is no event: it leaves the
    ['message'] listener of the UDP socket and never reaches the promise,
    so the request keeps waiting for the datagrams that follow. *)
Fixpoint await (packets : list Buffer) (s : A2SSocket)
  : Result Buffer * A2SSocket :=
  match packets with
  | [] => (Throw (Error "Request timeout"), s)
  | packet :: packets' =>
      match handleMessage packet s with
      | (Throw _, s') => await packets' s'
      | (Ok (Some (EmitData data)), s') => (Ok data, s')
      | (Ok (Some (EmitError e)), s') => (Throw e, s')
      | (Ok None, s') => await packets' s'
      end
  end.

(** [request(payload)], with [send(payload)] inlined: a closed socket
    sends nothing and the request times out; a failed transmission
    emits the error and closes the socket; otherwise the datagram
    [HEADER_SIMPLE ++ payload] goes out and the arrivals are awaited. *)
Definition request (payload : Buffer) (ex : Exchange) (s : A2SSocket)
  : Result Buffer * A2SSocket :=
  let packet := HEADER_SIMPLE ++ payload in
  if closed s then (Throw (Error "Request timeout"), s)
  else
    match send_error ex with
    | Some err => (Throw err, close s)
    | None =>
        await (arrivals ex)
              (mkA2SSocket (closed s) (fragmentBuffer s) (sent s ++ [packet]))
    end.

End Transport.

End Socket.

Export Socket.

(* ===================================================================== *)
(** ** types.ts and protocols.ts: the query codecs                        *)
(* ===================================================================== *)

Module Protocols.

Definition A2S_INFO_RESPONSE : Z := 73.
Definition A2S_INFO_RESPONSE_LEGACY : Z := 109.
Definition A2S_PLAYER_RESPONSE : Z := 68.
Definition A2S_RULES_RESPONSE : Z := 69.

(** [interface SourceInfo]; an optional field that was never assigned is
    [None]. *)
Record SourceInfo : Type := mkSourceInfo
  { protocol : Z;
    serverName : Text;
    mapName : Text;
    folder : Text;
    game : Text;
    appId : Z;
    playerCount : Z;
    maxPlayers : Z;
    botCount : Z;
    serverType : Text;
    platform : Text;
    passwordProtected : bool;
    vacEnabled : bool;
    version : Text;
    edf : Z;
    ping : Q;
    port : option Z;
    steamId : option Z;
    stvPort : option Z;
    stvName : option Text;
    keywords : option Text;
    gameId : option Z }.

(** [interface GoldSrcInfo] *)
Record GoldSrcInfo : Type := mkGoldSrcInfo
  { g_address : Text;
    g_serverName : Text;
    g_mapName : Text;
    g_folder : Text;
    g_game : Text;
    g_playerCount : Z;
    g_maxPlayers : Z;
    g_protocol : Z;
    g_serverType : Text;
    g_platform : Text;
    g_passwordProtected : bool;
    g_isMod : bool;
    g_vacEnabled : bool;
    g_botCount : Z;
    g_ping : Q;
    g_modWebsite : option Text;
    g_modDownload : option Text;
    g_modVersion : option Z;
    g_modSize : option Z;
    g_multiplayerOnly : option bool;
    g_usesCustomDll : option bool }.

Inductive ServerInfo : Type :=
| Source (info : SourceInfo)
| GoldSrc (info : GoldSrcInfo).

(** [interface Player]; [duration] is the bit pattern [readFloat] gives. *)
Record Player : Type := mkPlayer
  { index : Z; name : Text; score : Z; duration : Z }.

(** [Rules]: the own properties of the object, in insertion order. *)
Definition Rules : Type := list (JSString * Text).

(** The property key of [rules[key]]: a string as it is, a Buffer through
    its [toString()]. *)
Definition property_key (key : Text) : JSString :=
  match key with
  | Str s => s
  | Buf b => Buffer_toString utf8 b
  end.

(** An own data property written: an existing one keeps its place and
    takes the value, a new one comes last. *)
Fixpoint define_property (rules : Rules) (key : JSString) (value : Text) : Rules :=
  match rules with
  | [] => [(key, value)]
  | (k, v) :: rules' =>
      if list_eq_dec Z.eq_dec k key then (k, value) :: rules'
      else (k, v) :: define_property rules' key value
  end.

(** [rules[key] = value] on the object literal [{}].  The name
    [__proto__] is the accessor of [Object.prototype] and the assignment
    creates no own property: its setter ignores a string, and makes a
    Buffer (raw mode) the prototype of the object.  Every other name is
    written as an own property.  [Rules] holds the own properties only:
    it does not record a prototype replaced in raw mode, nor what the
    prototype chain of that Buffer does to the assignments after it
    (a name such as [length], which that chain defines with a getter
    only, is then rejected with a TypeError).  What is proved of the
    rules parser is therefore stated for the text decodings, or for
    responses in which no rule has that name. *)
Definition set_property (rules : Rules) (key : JSString) (value : Text) : Rules :=
  if list_eq_dec Z.eq_dec key (lit "__proto__") then rules
  else define_property rules key value.

(** [interface ProtocolHandler<T>] *)
Record ProtocolHandler (T : Type) : Type := mkProtocolHandler
  { validateResponseType : Z -> bool;
    serializeRequest : Z -> Result Buffer;
    deserializeResponse : Z -> Q -> Reader T }.

(** [Buffer.alloc(4)] and [writeUInt32LE(challenge, 0)] *)
Definition challengeBuffer (challenge : Z) : Result Buffer :=
  writeUInt 4 false challenge.

(** The bit test [if (edf & mask)]. *)
Definition flag (edf mask : Z) : bool := negb (Z.land edf mask =? 0).

(** [if (c) { x = m }]: the optional field is assigned when [c] holds. *)
Definition when {A} (c : bool) (m : Reader A) : Reader (option A) :=
  if c then (x <- m ;; ret (Some x)) else ret None.

Module InfoProtocol.

Definition validateResponseType (responseType : Z) : bool :=
  (responseType =? A2S_INFO_RESPONSE)
  || (responseType =? A2S_INFO_RESPONSE_LEGACY).

Definition serializeRequest (challenge : Z) : Result Buffer :=
  let request := lit "Source Engine Query" ++ [0] in
  let header := [84] in
  if negb (challenge =? 0) then
    rbind (challengeBuffer challenge)
          (fun challengeBuffer => Ok (header ++ request ++ challengeBuffer))
  else Ok (header ++ request).

Definition parseSource (ping : Q) : Reader SourceInfo :=
  protocol <- readUint8 ;;
  serverName <- readCString ;;
  mapName <- readCString ;;
  folder <- readCString ;;
  game <- readCString ;;
  appId <- readUint16 ;;
  playerCount <- readUint8 ;;
  maxPlayers <- readUint8 ;;
  botCount <- readUint8 ;;
  serverType <- (c <- readChar ;; lift (call_toLowerCase c)) ;;
  platform <- (c <- readChar ;; lift (call_toLowerCase c)) ;;
  let platform :=
    if strict_equals_string platform "o" then lit "m" else platform in
  passwordProtected <- readBool ;;
  vacEnabled <- readBool ;;
  version <- readCString ;;
  edf <- try_catch readUint8
                   (fun error =>
                      if negb (instanceof_BufferExhaustedError error)
                      then throw error else ret 0) ;;
  port <- when (flag edf 128) readUint16 ;;
  steamId <- when (flag edf 16) readUint64 ;;
  stv <- when (flag edf 64)
              (stvPort <- readUint16 ;;
               stvName <- readCString ;;
               ret (stvPort, stvName)) ;;
  keywords <- when (flag edf 32) readCString ;;
  gameId <- when (flag edf 1) readUint64 ;;
  ret (mkSourceInfo protocol serverName mapName folder game appId
                    playerCount maxPlayers botCount
                    (Str serverType) (Str platform)
                    passwordProtected vacEnabled version edf ping
                    port steamId
                    (option_map fst stv) (option_map snd stv)
                    keywords gameId).

Definition parseGoldSrc (ping : Q) : Reader GoldSrcInfo :=
  address <- readCString ;;
  serverName <- readCString ;;
  mapName <- readCString ;;
  folder <- readCString ;;
  game <- readCString ;;
  playerCount <- readUint8 ;;
  maxPlayers <- readUint8 ;;
  protocol <- readUint8 ;;
  serverType <- readChar ;;
  platform <- readChar ;;
  passwordProtected <- readBool ;;
  isMod <- readBool ;;
  rest <- peek None ;;
  mod_ <- when (isMod && (Z.of_nat (length rest) >? 2))
               (modWebsite <- readCString ;;
                modDownload <- readCString ;;
                read 1 ;;;
                modVersion <- readUint32 ;;
                modSize <- readUint32 ;;
                multiplayerOnly <- readBool ;;
                usesCustomDll <- readBool ;;
                ret (modWebsite, modDownload, modVersion, modSize,
                     multiplayerOnly, usesCustomDll)) ;;
  vacEnabled <- readBool ;;
  botCount <- readUint8 ;;
  ret (mkGoldSrcInfo address serverName mapName folder game
                     playerCount maxPlayers protocol serverType platform
                     passwordProtected isMod vacEnabled botCount ping
                     (option_map (fun '(a, _, _, _, _, _) => a) mod_)
                     (option_map (fun '(_, b, _, _, _, _) => b) mod_)
                     (option_map (fun '(_, _, c, _, _, _) => c) mod_)
                     (option_map (fun '(_, _, _, d, _, _) => d) mod_)
                     (option_map (fun '(_, _, _, _, e, _) => e) mod_)
                     (option_map (fun '(_, _, _, _, _, f) => f) mod_)).

Definition deserializeResponse (responseType : Z) (ping : Q)
  : Reader ServerInfo :=
  if responseType =? A2S_INFO_RESPONSE then
    info <- parseSource ping ;; ret (Source info)
  else if responseType =? A2S_INFO_RESPONSE_LEGACY then
    info <- parseGoldSrc ping ;; ret (GoldSrc info)
  else
    throw (BrokenMessageError
             ("Invalid info response type: " ++ show responseType)).

Definition handler : ProtocolHandler ServerInfo :=
  mkProtocolHandler validateResponseType serializeRequest deserializeResponse.

End InfoProtocol.

Module PlayersProtocol.

Definition validateResponseType (responseType : Z) : bool :=
  responseType =? A2S_PLAYER_RESPONSE.

Definition serializeRequest (challenge : Z) : Result Buffer :=
  let header := [85] in
  rbind (challengeBuffer challenge)
        (fun challengeBuffer => Ok (header ++ challengeBuffer)).

(** The [for] loop: [n] turns left, [players] pushed so far. *)
Fixpoint players_loop (n : nat) (players : list Player) : Reader (list Player) :=
  match n with
  | O => ret players
  | S n' =>
      index <- readUint8 ;;
      name <- readCString ;;
      score <- readInt32 ;;
      duration <- readFloat ;;
      players_loop n' (players ++ [mkPlayer index name score duration])
  end.

Definition deserializeResponse (_responseType : Z) (_ping : Q)
  : Reader (list Player) :=
  playerCount <- readUint8 ;;
  players_loop (Z.to_nat playerCount) [].

Definition handler : ProtocolHandler (list Player) :=
  mkProtocolHandler validateResponseType serializeRequest deserializeResponse.

End PlayersProtocol.

Module RulesProtocol.

Definition validateResponseType (responseType : Z) : bool :=
  responseType =? A2S_RULES_RESPONSE.

Definition serializeRequest (challenge : Z) : Result Buffer :=
  let header := [86] in
  rbind (challengeBuffer challenge)
        (fun challengeBuffer => Ok (header ++ challengeBuffer)).

Fixpoint rules_loop (n : nat) (rules : Rules) : Reader Rules :=
  match n with
  | O => ret rules
  | S n' =>
      key <- readCString ;;
      value <- readCString ;;
      rules_loop n' (set_property rules (property_key key) value)
  end.

Definition deserializeResponse (_responseType : Z) (_ping : Q)
  : Reader Rules :=
  ruleCount <- readUint16 ;;
  rules_loop (Z.to_nat ruleCount) [].

Definition handler : ProtocolHandler Rules :=
  mkProtocolHandler validateResponseType serializeRequest deserializeResponse.

End RulesProtocol.

End Protocols.

Export Protocols.

(* ===================================================================== *)
(** ** a2s.ts: the client and its challenge handshake                     *)
(* ===================================================================== *)

Module A2S.

Record A2SClient : Type := mkA2SClient
  { c_encoding : option BufferEncoding;
    socket : A2SSocket;
    c_closed : bool }.

(** [new A2SClient(address, port, timeout, encoding)] *)
Definition new_A2SClient (encoding : option BufferEncoding) : A2SClient :=
  mkA2SClient encoding new_A2SSocket false.

Definition set_socket (c : A2SClient) (s : A2SSocket) : A2SClient :=
  mkA2SClient (c_encoding c) s (c_closed c).

(** [ensureOpen()] *)
Definition ensureOpen (c : A2SClient) : Result unit :=
  if c_closed c then Throw (Error "A2SClient socket already closed")
  else Ok tt.

(** [close()] *)
Definition close (c : A2SClient) : A2SClient :=
  if negb (c_closed c)
  then mkA2SClient (c_encoding c) (Socket.close (socket c)) true
  else c.

(** The network during one query: what happens while the request of
    retry number [retries], carrying [payload], is pending. *)
Definition Network : Type := nat -> Buffer -> Exchange.

Section Client.

Variable inflateSync : Buffer -> Result Buffer.

(** [DEFAULT_RETRIES] of defaults.ts, which is not among the sources:
    the functions take it as a parameter. *)
Variable DEFAULT_RETRIES : nat.

(** [private async request<T>(protocol, challenge = 0, retries = 0)].
    [ping] is [(receiveTime - sendTime) / 1000]. *)
Equations? request {T : Type} (protocol : ProtocolHandler T) (net : Network)
           (challenge : Z) (retries : nat) (c : A2SClient)
  : Result T * A2SClient by wf (DEFAULT_RETRIES - retries)%nat lt :=
  request protocol net challenge retries c :=
    match ensureOpen c with
    | Throw e => (Throw e, c)
    | Ok _ =>
    match serializeRequest protocol challenge with
    | Throw e => (Throw e, c)
    | Ok payload =>
    let ex := net retries payload in
    match Socket.request inflateSync payload ex (socket c) with
    | (Throw e, s) => (Throw e, set_socket c s)
    | (Ok responseData, s) =>
    let c := set_socket c s in
    let ping := if Nat.eqb retries 0 then Qmake (elapsed ex) 1000 else 0%Q in
    let reader := new_ByteReader responseData true (c_encoding c) in
    match readUint8 reader with
    | (Throw e, _) => (Throw e, c)
    | (Ok responseType, reader) =>
    if responseType =? A2S_CHALLENGE_RESPONSE then
      match le_lt_dec DEFAULT_RETRIES retries with
      | left _ =>
          (Throw (BrokenMessageError
                    "Server keeps sending challenge responses"),
           if Nat.eqb retries 0 then close c else c)
      | right _ =>
          match readUint32 reader with
          | (Throw e, _) => (Throw e, c)
          | (Ok newChallenge, _) =>
              request protocol net newChallenge (S retries) c
          end
      end
    else if negb (validateResponseType protocol responseType) then
      (Throw (BrokenMessageError
                ("Invalid response type: 0x" ++ show_hex responseType)),
       if Nat.eqb retries 0 then close c else c)
    else
      match deserializeResponse protocol responseType ping reader with
      | (Throw e, _) => (Throw e, c)
      | (Ok result, _) => (Ok result, if Nat.eqb retries 0 then close c else c)
      end
    end end end end.
Proof. lia. Qed.

(** [info()], [players()], [rules()] *)
Definition info (net : Network) (c : A2SClient) : Result ServerInfo * A2SClient :=
  match ensureOpen c with
  | Throw e => (Throw e, c)
  | Ok _ => request InfoProtocol.handler net 0 0 c
  end.

Definition players (net : Network) (c : A2SClient)
  : Result (list Player) * A2SClient :=
  match ensureOpen c with
  | Throw e => (Throw e, c)
  | Ok _ => request PlayersProtocol.handler net 0 0 c
  end.

Definition rules (net : Network) (c : A2SClient) : Result Rules * A2SClient :=
  match ensureOpen c with
  | Throw e => (Throw e, c)
  | Ok _ => request RulesProtocol.handler net 0 0 c
  end.

End Client.

End A2S.

Export A2S.

(** The exported functions [info], [players] and [rules] of a2s.ts: a
    client of their own, the query, and [client.close()] in the
    [finally] block, whatever the query did. *)
Module Api.

Section Functions.

Variable inflateSync : Buffer -> Result Buffer.
Variable DEFAULT_RETRIES : nat.

Definition info (encoding : option BufferEncoding) (net : Network)
  : Result ServerInfo * A2SClient :=
  let client := new_A2SClient encoding in
  let '(result, client) := A2S.info inflateSync DEFAULT_RETRIES net client in
  (result, A2S.close client).

Definition players (encoding : option BufferEncoding) (net : Network)
  : Result (list Player) * A2SClient :=
  let client := new_A2SClient encoding in
  let '(result, client) := A2S.players inflateSync DEFAULT_RETRIES net client in
  (result, A2S.close client).

Definition rules (encoding : option BufferEncoding) (net : Network)
  : Result Rules * A2SClient :=
  let client := new_A2SClient encoding in
  let '(result, client) := A2S.rules inflateSync DEFAULT_RETRIES net client in
  (result, A2S.close client).

End Functions.

End Api.

(* ===================================================================== *)
(** ** Specification vocabulary                                           *)
(* ===================================================================== *)

(** The unread bytes of a reader whose position is not negative. *)
Definition At (r : ByteReader) (l : list Z) : Prop :=
  0 <= position r <= Z.of_nat (length (buffer r)) /\
  skipn (Z.to_nat (position r)) (buffer r) = l.

(** The reader [n] bytes further. *)
Definition adv (r : ByteReader) (n : Z) : ByteReader :=
  set_position r (position r + n).

(** [m] consumes exactly the bytes [l], whatever follows them, and returns
    [a], on a reader configured with byte order [le] and encoding [enc]. *)
Definition Reads {A} (le : bool) (enc : option BufferEncoding)
           (m : Reader A) (l : list Z) (a : A) : Prop :=
  forall r rest,
    littleEndian r = le -> encoding r = enc -> At r (l ++ rest) ->
    m r = (Ok a, adv r (Z.of_nat (length l))).

(** [m] throws a [BufferExhaustedError] on a reader with only [p] left. *)
Definition Exhausts {A} (le : bool) (enc : option BufferEncoding)
           (m : Reader A) (p : list Z) : Prop :=
  forall r,
    littleEndian r = le -> encoding r = enc -> At r p ->
    exists msg r', m r = (Throw (BufferExhaustedError msg), r').

(** [p] is [l] cut short. *)
Definition strict_prefix (p l : list Z) : Prop :=
  exists q, q <> [] /\ l = p ++ q.

(** [Reads], and every input cut short inside [l] exhausts the buffer. *)
Definition Parses {A} (le : bool) (enc : option BufferEncoding)
           (m : Reader A) (l : list Z) (a : A) : Prop :=
  Reads le enc m l a /\
  forall p, strict_prefix p l -> Exhausts le enc m p.

(** An [n]-byte integer field in the byte order of the reader. *)
Definition field (le : bool) (n : nat) (v : Z) : Buffer :=
  if le then le_bytes n v else rev (le_bytes n v).

(** [m] consumes the bytes [l] and returns [a] when nothing follows them. *)
Definition ReadsAll {A} (le : bool) (enc : option BufferEncoding)
           (m : Reader A) (l : list Z) (a : A) : Prop :=
  forall r,
    littleEndian r = le -> encoding r = enc -> At r l ->
    m r = (Ok a, adv r (Z.of_nat (length l))).

(** [Reads], and an input cut short inside [l] exhausts the buffer unless
    it is cut after exactly [n] bytes, where [m] returns [a0]. *)
Definition ParsesBut {A} (le : bool) (enc : option BufferEncoding)
           (m : Reader A) (l : list Z) (a : A) (n : nat) (a0 : A) : Prop :=
  Reads le enc m l a /\
  forall p, strict_prefix p l ->
            (length p = n -> ReadsAll le enc m p a0) /\
            (length p <> n -> Exhausts le enc m p).

(** A byte of a C string: not the terminator. *)
Definition cstring_bytes (s : Buffer) : Prop := Forall (fun b => b <> 0) s.

(** The text a reader with encoding [enc] returns for the bytes [s]. *)
Definition text_of (enc : option BufferEncoding) (s : Buffer) : Text :=
  match enc with
  | Some e => Str (Buffer_toString e s)
  | None => Buf s
  end.

(** The first four bytes dropped when they are the simple header. *)
Definition strip_simple_header (l : Buffer) : Buffer :=
  match l with
  | a :: b :: c :: d :: rest =>
      if (a =? 255) && (b =? 255) && (c =? 255) && (d =? 255) then rest else l
  | _ => l
  end.

(** The one recovery of [parseSource]:
    [try { edf = reader.readUint8() } catch (error) { ... }]. *)
Definition recover_flags : Reader Z :=
  try_catch readUint8
            (fun error => if negb (instanceof_BufferExhaustedError error)
                          then throw error else ret 0).

(** *** The wire layout of a modern info response

    The bytes after the response-type byte: the mandatory fields
    ([SourceBase]), the flags byte, and the optional fields the flags
    announce ([SourceOptional]), each absent ([None]) or present. *)
Record SourceBase : Type := mkSourceBase
  { b_protocol : Z;
    b_serverName : Buffer;
    b_mapName : Buffer;
    b_folder : Buffer;
    b_game : Buffer;
    b_appId : Z;
    b_playerCount : Z;
    b_maxPlayers : Z;
    b_botCount : Z;
    b_serverType : Z;
    b_platform : Z;
    b_passwordProtected : bool;
    b_vacEnabled : bool;
    b_version : Buffer }.

Record SourceOptional : Type := mkSourceOptional
  { o_port : option Z;
    o_steamId : option Z;
    o_stv : option (Z * Buffer);
    o_keywords : option Buffer;
    o_gameId : option Z }.

Definition no_optional : SourceOptional :=
  mkSourceOptional None None None None None.

Definition cstr (s : Buffer) : Buffer := s ++ [0].
Definition byte_of_bool (b : bool) : Z := if b then 1 else 0.

Definition wire_base (b : SourceBase) : Buffer :=
  [b_protocol b] ++ cstr (b_serverName b) ++ cstr (b_mapName b)
    ++ cstr (b_folder b) ++ cstr (b_game b) ++ field true 2 (b_appId b)
    ++ [b_playerCount b] ++ [b_maxPlayers b] ++ [b_botCount b]
    ++ [b_serverType b] ++ [b_platform b]
    ++ [byte_of_bool (b_passwordProtected b)]
    ++ [byte_of_bool (b_vacEnabled b)] ++ cstr (b_version b).

Definition opt_wire {A} (f : A -> Buffer) (o : option A) : Buffer :=
  match o with Some a => f a | None => [] end.

Definition stv_wire (x : Z * Buffer) : Buffer :=
  field true 2 (fst x) ++ cstr (snd x).

(** The optional fields, in the order 0x80, 0x10, 0x40, 0x20, 0x01. *)
Definition wire_optional (o : SourceOptional) : Buffer :=
  opt_wire (field true 2) (o_port o)
    ++ opt_wire (field true 8) (o_steamId o)
    ++ opt_wire stv_wire (o_stv o)
    ++ opt_wire cstr (o_keywords o)
    ++ opt_wire (field true 8) (o_gameId o).

Definition bit {A} (mask : Z) (o : option A) : Z :=
  match o with Some _ => mask | None => 0 end.

(** The flags byte with exactly the bits of the present fields. *)
Definition edf_of (o : SourceOptional) : Z :=
  bit 128 (o_port o) + bit 16 (o_steamId o) + bit 64 (o_stv o)
  + bit 32 (o_keywords o) + bit 1 (o_gameId o).

Definition is_some {A} (o : option A) : bool :=
  match o with Some _ => true | None => false end.

Definition opt_holds {A} (P : A -> Prop) (o : option A) : Prop :=
  match o with Some a => P a | None => True end.

Definition valid_base (b : SourceBase) : Prop :=
  cstring_bytes (b_serverName b) /\ cstring_bytes (b_mapName b) /\
  cstring_bytes (b_folder b) /\ cstring_bytes (b_game b) /\
  cstring_bytes (b_version b) /\ 0 <= b_appId b < 2 ^ 16.

Definition valid_optional (o : SourceOptional) : Prop :=
  opt_holds (fun p => 0 <= p < 2 ^ 16) (o_port o) /\
  opt_holds (fun i => 0 <= i < 2 ^ 64) (o_steamId o) /\
  opt_holds (fun x => 0 <= fst x < 2 ^ 16 /\ cstring_bytes (snd x)) (o_stv o) /\
  opt_holds cstring_bytes (o_keywords o) /\
  opt_holds (fun i => 0 <= i < 2 ^ 64) (o_gameId o).

(** [readChar().toLowerCase()] on the byte [b], and the ['o'] to ['m']
    rule of the platform. *)
Definition lower_char (e : BufferEncoding) (b : Z) : JSString :=
  toLowerCase (Buffer_toString e [b]).
Definition normalize_platform (s : JSString) : JSString :=
  if strict_equals_string s "o" then lit "m" else s.

(** The record the fields denote under the text encoding [e]. *)
Definition decoded_info (e : BufferEncoding) (ping : Q) (b : SourceBase)
           (edf : Z) (o : SourceOptional) : SourceInfo :=
  mkSourceInfo
    (b_protocol b)
    (text_of (Some e) (b_serverName b)) (text_of (Some e) (b_mapName b))
    (text_of (Some e) (b_folder b)) (text_of (Some e) (b_game b))
    (b_appId b) (b_playerCount b) (b_maxPlayers b) (b_botCount b)
    (Str (lower_char e (b_serverType b)))
    (Str (normalize_platform (lower_char e (b_platform b))))
    (b_passwordProtected b) (b_vacEnabled b)
    (text_of (Some e) (b_version b))
    edf ping
    (o_port o) (o_steamId o)
    (option_map fst (o_stv o))
    (option_map (fun x => text_of (Some e) (snd x)) (o_stv o))
    (option_map (text_of (Some e)) (o_keywords o))
    (o_gameId o).

(** Comparing by an integer key, as [(a, b) => a.key - b.key] does. *)
Definition key_compare {A} (key : A -> Z) (a b : A) : Z := key a - key b.
Definition key_le {A} (key : A -> Z) (a b : A) : Prop := key a <= key b.
Definition key_lt {A} (key : A -> Z) (a b : A) : Prop := key a < key b.

(** A run of fragments through the assembler: what each fragment made the
    transport emit, if anything. *)

Fixpoint feed (fragments : list A2SFragment) (s : A2SSocket)
  : list (option Emitted) * A2SSocket :=
  match fragments with
  | [] => ([], s)
  | f :: fragments' =>
      let '(out, s') := handleFragment f s in
      let '(outs, s'') := feed fragments' s' in
      (out :: outs, s'')
  end.

(** The same run on datagram payloads, through [handleMultiPacket]. *)
Fixpoint feed_datagrams (inflateSync : Buffer -> Result Buffer)
         (datagrams : list Buffer) (s : A2SSocket)
  : list (Result (option Emitted)) * A2SSocket :=
  match datagrams with
  | [] => ([], s)
  | data :: datagrams' =>
      let '(out, s') := handleMultiPacket inflateSync data s in
      let '(outs, s'') := feed_datagrams inflateSync datagrams' s' in
      (out :: outs, s'')
  end.

(** The payload of the datagram of an uncompressed fragment: message id,
    count, id, maximum packet size, then the payload bytes. *)
Definition fragment_wire (f : A2SFragment) : Buffer :=
  le_bytes 4 (messageId f) ++ [fragmentCount f] ++ [fragmentId f]
           ++ le_bytes 2 (mtu f) ++ payload f.

(** The message a pending set assembles to. *)
Definition assembled (ordered : list A2SFragment) : Buffer :=
  strip_simple_header (concat (map payload ordered)).

(** [f] with another message id. *)
Definition with_messageId (f : A2SFragment) (m : Z) : A2SFragment :=
  mkA2SFragment m (fragmentCount f) (fragmentId f) (mtu f)
                (decompressedSize f) (crc f) (payload f).

(** *** Servers that keep challenging

    The exchange is answered by a challenge response: the transmission
    succeeds and the first datagram back is a simple packet whose payload
    is the type byte 0x41 followed by the challenge [c]. *)
Definition challenge_reply (c : Buffer) (ex : Exchange) : Prop :=
  send_error ex = None /\
  exists more,
    arrivals ex = (HEADER_SIMPLE ++ A2S_CHALLENGE_RESPONSE :: c) :: more.

(** Every request of the query is answered by a challenge response that
    carries its four challenge bytes. *)
Definition always_challenges (net : Network) : Prop :=
  forall retries payload,
    exists c, challenge_reply c (net retries payload) /\
              (4 <= length c)%nat /\ is_bytes c.

(** The codec can serialize a request for every 32-bit challenge. *)
Definition serializes {T} (protocol : ProtocolHandler T) : Prop :=
  forall challenge,
    0 <= challenge < 2 ^ 32 ->
    exists payload, serializeRequest protocol challenge = Ok payload.

(** Modelled from the spec: defaults.ts, which declares [DEFAULT_RETRIES],
    is not among the sources; the maximum number of challenge retries
    defaults to 5 (the tests of defaults.ts expect the same value). *)
Definition DEFAULT_RETRIES_value : nat := 5.

(** A server answering every request with the datagram
    [FF FF FF FF 41 01 02 03 04], and one whose datagram stops after the
    type byte. *)
Definition challenging_server : Network :=
  fun _ _ => mkExchange None [[255; 255; 255; 255; 65; 1; 2; 3; 4]] 20.
Definition truncating_server : Network :=
  fun _ _ => mkExchange None [[255; 255; 255; 255; 65]] 20.
Definition no_inflate : Buffer -> Result Buffer :=
  fun _ => Throw (Error "incorrect header check").

Definition challenges_exhausted : JSError :=
  BrokenMessageError "Server keeps sending challenge responses".

(** *** Round trips of the binary codec

    The primitives of the claim, the values they carry, and one write
    followed by one read of the same primitive, through a fresh writer and
    a fresh reader with the same byte order and encoding. *)
Inductive Primitive : Type :=
| Int8 | Uint8 | Int16 | Uint16 | Int32 | Uint32 | Int64 | Uint64
| Bool | CString.

Inductive Value : Type :=
| VInt (v : Z)
| VBool (b : bool)
| VText (t : Text).

Definition encode (le : bool) (enc : option BufferEncoding)
           (k : Primitive) (v : Value) : Result Buffer :=
  let w := new_ByteWriter le enc in
  rbind match k, v with
        | Int8, VInt v => writeInt8 v w
        | Uint8, VInt v => writeUint8 v w
        | Int16, VInt v => writeInt16 v w
        | Uint16, VInt v => writeUint16 v w
        | Int32, VInt v => writeInt32 v w
        | Uint32, VInt v => writeUint32 v w
        | Int64, VInt v => writeInt64 v w
        | Uint64, VInt v => writeUint64 v w
        | Bool, VBool b => writeBool b w
        | CString, VText t => writeCString t w
        | _, _ => Throw (TypeError "argument of the wrong type")
        end
        (fun w' => Ok (toBuffer w')).

Definition decode (le : bool) (enc : option BufferEncoding)
           (k : Primitive) (data : Buffer) : Result Value :=
  let r := new_ByteReader data le enc in
  match k with
  | Int8 => rbind (fst (readInt8 r)) (fun v => Ok (VInt v))
  | Uint8 => rbind (fst (readUint8 r)) (fun v => Ok (VInt v))
  | Int16 => rbind (fst (readInt16 r)) (fun v => Ok (VInt v))
  | Uint16 => rbind (fst (readUint16 r)) (fun v => Ok (VInt v))
  | Int32 => rbind (fst (readInt32 r)) (fun v => Ok (VInt v))
  | Uint32 => rbind (fst (readUint32 r)) (fun v => Ok (VInt v))
  | Int64 => rbind (fst (readInt64 r)) (fun v => Ok (VInt v))
  | Uint64 => rbind (fst (readUint64 r)) (fun v => Ok (VInt v))
  | Bool => rbind (fst (readBool r)) (fun b => Ok (VBool b))
  | CString => rbind (fst (readCString r)) (fun t => Ok (VText t))
  end.

(** A string without lone surrogates, of 16-bit code units. *)
Fixpoint well_formed (s : JSString) : bool :=
  match s with
  | [] => true
  | u :: rest =>
      if is_high_surrogate u then
        match rest with
        | v :: rest' => is_low_surrogate v && well_formed rest'
        | [] => false
        end
      else negb (is_low_surrogate u) && (0 <=? u) && (u <? 65536)
           && well_formed rest
  end.

(** The strings an encoding represents as a C string: no NUL, and every
    unit a byte (latin1) or the string well formed (UTF-8). *)
Definition representable_string (e : BufferEncoding) (s : JSString) : Prop :=
  match e with
  | latin1 => Forall (fun u => 1 <= u <= 255) s
  | utf8 => well_formed s = true /\ Forall (fun u => u <> 0) s
  end.

(** The values a primitive represents: the integers of its width, the two
    booleans, and for C strings a string of the reader's encoding or, in
    raw mode, a Buffer without a zero byte. *)
Definition representable (enc : option BufferEncoding)
           (k : Primitive) (v : Value) : Prop :=
  match k, v with
  | Int8, VInt v => - 2 ^ 7 <= v < 2 ^ 7
  | Uint8, VInt v => 0 <= v < 2 ^ 8
  | Int16, VInt v => - 2 ^ 15 <= v < 2 ^ 15
  | Uint16, VInt v => 0 <= v < 2 ^ 16
  | Int32, VInt v => - 2 ^ 31 <= v < 2 ^ 31
  | Uint32, VInt v => 0 <= v < 2 ^ 32
  | Int64, VInt v => - 2 ^ 63 <= v < 2 ^ 63
  | Uint64, VInt v => 0 <= v < 2 ^ 64
  | Bool, VBool _ => True
  | CString, VText (Str s) =>
      match enc with
      | Some e => representable_string e s
      | None => False
      end
  | CString, VText (Buf b) => enc = None /\ is_bytes b /\ cstring_bytes b
  | _, _ => False
  end.

(** A Unicode scalar value. *)
Definition scalar (cp : Z) : Prop :=
  0 <= cp < 1114112 /\ ~ (55296 <= cp <= 57343).

(** *** Two readers over the same bytes

    [same_cursor]: the readers agree on everything but the text encoding.
    [Sim enc1 enc2 R m1 m2]: run on such readers, configured with [enc1]
    and [enc2], [m1] and [m2] both return, with results related by [R], or
    both throw the same exception; either way they stop at the same
    position and leave the encodings as they were. *)
Definition same_cursor (r1 r2 : ByteReader) : Prop :=
  buffer r1 = buffer r2 /\ position r1 = position r2 /\
  littleEndian r1 = littleEndian r2.

Definition Sim {A B} (enc1 enc2 : option BufferEncoding) (R : A -> B -> Prop)
           (m1 : Reader A) (m2 : Reader B) : Prop :=
  forall r1 r2,
    encoding r1 = enc1 -> encoding r2 = enc2 -> same_cursor r1 r2 ->
    match m1 r1, m2 r2 with
    | (Ok a, r1'), (Ok b, r2') =>
        R a b /\ same_cursor r1' r2' /\ encoding r1' = enc1 /\ encoding r2' = enc2
    | (Throw e1, r1'), (Throw e2, r2') =>
        e1 = e2 /\ same_cursor r1' r2' /\ encoding r1' = enc1 /\ encoding r2' = enc2
    | _, _ => False
    end.

(** Relations between results: anything goes, both are strings, and the
    lifting to optional results. *)
Definition any {A B} (_ : A) (_ : B) : Prop := True.
Definition both_strings (a b : Text) : Prop :=
  exists s1 s2, a = Str s1 /\ b = Str s2.
Definition option_rel {A B} (R : A -> B -> Prop) (a : option A) (b : option B) : Prop :=
  match a, b with
  | Some x, Some y => R x y
  | None, None => True
  | _, _ => False
  end.

(** The outcomes of two parses agree: both succeed or both fail with the
    same exception, having consumed the same number of bytes. *)
Definition same_outcome {A B} (x : Result A * ByteReader) (y : Result B * ByteReader)
  : Prop :=
  position (snd x) = position (snd y) /\
  match fst x, fst y with
  | Ok _, Ok _ => True
  | Throw e1, Throw e2 => e1 = e2
  | _, _ => False
  end.

(** [m] never returns on a reader configured with [enc]. *)
Definition NeverReturns {A} (enc : option BufferEncoding) (m : Reader A) : Prop :=
  forall r, encoding r = enc -> is_ok (fst (m r)) = false.

(** [m] leaves the encoding [enc] of the reader in place when it returns. *)
Definition Keeps {A} (enc : option BufferEncoding) (m : Reader A) : Prop :=
  forall r a r', encoding r = enc -> m r = (Ok a, r') -> encoding r' = enc.

(** Servers of the end-to-end scenarios: one answering the info query with
    the modern response, one answering in two fragments, last one first. *)
Definition multi_packet (mid count id : Z) (payload : Buffer) : Buffer :=
  HEADER_MULTI ++ le_bytes 4 mid ++ [count; id] ++ le_bytes 2 1200 ++ payload.

Definition fragmenting_exchange : Exchange :=
  mkExchange None [multi_packet 123 2 1 (lit "second");
                   multi_packet 123 2 0 (lit "first")] 5.

(** The response of the end-to-end scenario, and optional fields for it:
    port, identifier, spectator pair and product id, no keywords. *)
Definition example_base : SourceBase :=
  mkSourceBase 17 (lit "Test") (lit "de_dust2") (lit "cstrike") (lit "CSGO")
               730 10 32 0 100 108 false true (lit "1.0").

Definition modern_info_server : Network :=
  fun _ _ =>
    mkExchange None
               [HEADER_SIMPLE ++ A2S_INFO_RESPONSE :: wire_base example_base ++ [0]]
               20.

Definition example_optional : SourceOptional :=
  mkSourceOptional (Some 27015) (Some 76561198000000000)
                   (Some (27020, lit "GOTV")) None (Some 730).

(** *** Sequences of primitives

    One write and one read of a primitive, and runs of them through one
    writer and one reader. *)
Definition write_value (k : Primitive) (v : Value) (w : ByteWriter)
  : Result ByteWriter :=
  match k, v with
  | Int8, VInt v => writeInt8 v w
  | Uint8, VInt v => writeUint8 v w
  | Int16, VInt v => writeInt16 v w
  | Uint16, VInt v => writeUint16 v w
  | Int32, VInt v => writeInt32 v w
  | Uint32, VInt v => writeUint32 v w
  | Int64, VInt v => writeInt64 v w
  | Uint64, VInt v => writeUint64 v w
  | Bool, VBool b => writeBool b w
  | CString, VText t => writeCString t w
  | _, _ => Throw (TypeError "argument of the wrong type")
  end.

Definition read_value (k : Primitive) : Reader Value :=
  match k with
  | Int8 => v <- readInt8 ;; ret (VInt v)
  | Uint8 => v <- readUint8 ;; ret (VInt v)
  | Int16 => v <- readInt16 ;; ret (VInt v)
  | Uint16 => v <- readUint16 ;; ret (VInt v)
  | Int32 => v <- readInt32 ;; ret (VInt v)
  | Uint32 => v <- readUint32 ;; ret (VInt v)
  | Int64 => v <- readInt64 ;; ret (VInt v)
  | Uint64 => v <- readUint64 ;; ret (VInt v)
  | Bool => b <- readBool ;; ret (VBool b)
  | CString => t <- readCString ;; ret (VText t)
  end.

Fixpoint write_all (items : list (Primitive * Value)) (w : ByteWriter)
  : Result ByteWriter :=
  match items with
  | [] => Ok w
  | (k, v) :: items' => rbind (write_value k v w) (write_all items')
  end.

Fixpoint read_all (ks : list Primitive) : Reader (list Value) :=
  match ks with
  | [] => ret []
  | k :: ks' => v <- read_value k ;; vs <- read_all ks' ;; ret (v :: vs)
  end.

(** The character [readChar] returns for the byte [b]: under UTF-8 a
    byte above 0x7F is no character of its own and decodes to U+FFFD. *)
Definition char_of (enc : option BufferEncoding) (b : Z) : Text :=
  match enc with
  | None => Buf [b]
  | Some latin1 => Str [b]
  | Some utf8 => Str [if b <? 128 then b else REPLACEMENT]
  end.

(** The message of the [BufferExhaustedError] of a [read(size)] at
    [position]. *)
Definition exhausted_at (size position : Z) : JSError :=
  BufferExhaustedError
    ("Cannot read " ++ show size ++ " bytes from position " ++ show position).

(** *** Exchanges

    The transmission succeeds and the first datagram back is the simple
    packet with payload [data]; the transmission succeeds and nothing
    comes back. *)
Definition simple_reply (data : Buffer) (ex : Exchange) : Prop :=
  send_error ex = None /\
  exists more, arrivals ex = (HEADER_SIMPLE ++ data) :: more.

Definition silent (ex : Exchange) : Prop :=
  send_error ex = None /\ arrivals ex = [].

(** The reader the client hands to [deserializeResponse]: over the
    response, past the type byte. *)
Definition reader_past_type (responseData : Buffer)
           (encoding : option BufferEncoding) : ByteReader :=
  adv (new_ByteReader responseData true encoding) 1.

(** A message cut into [chunks], one uncompressed fragment each, numbered
    from 0, and the datagram of a fragment. *)
Fixpoint number_from (first : nat) (count : nat) (mid mtu : Z)
         (chunks : list Buffer) : list A2SFragment :=
  match chunks with
  | [] => []
  | chunk :: chunks' =>
      mkA2SFragment mid (Z.of_nat count) (Z.of_nat first) mtu 0 0 chunk
        :: number_from (S first) count mid mtu chunks'
  end.

Definition split_message (mid mtu : Z) (chunks : list Buffer)
  : list A2SFragment :=
  number_from 0 (length chunks) mid mtu chunks.

Definition multi_datagram (f : A2SFragment) : Buffer :=
  HEADER_MULTI ++ fragment_wire f.

(** *** The wire layout of a player list and of a rule list *)
Record PlayerFields : Type := mkPlayerFields
  { p_index : Z; p_name : Buffer; p_score : Z; p_duration : Z }.

Definition player_wire (p : PlayerFields) : Buffer :=
  [p_index p] ++ cstr (p_name p) ++ field true 4 (p_score p)
              ++ field true 4 (p_duration p).

Definition valid_player (p : PlayerFields) : Prop :=
  cstring_bytes (p_name p) /\ - 2 ^ 31 <= p_score p < 2 ^ 31 /\
  0 <= p_duration p < 2 ^ 32.

Definition decoded_player (enc : option BufferEncoding) (p : PlayerFields)
  : Player :=
  mkPlayer (p_index p) (text_of enc (p_name p)) (p_score p) (p_duration p).

Definition rule_wire (kv : Buffer * Buffer) : Buffer :=
  cstr (fst kv) ++ cstr (snd kv).

(** The property key a rule name becomes under [enc]. *)
Definition rule_key (enc : option BufferEncoding) (name : Buffer) : JSString :=
  property_key (text_of enc name).

(** The object the rule pairs build, assigned in order. *)
Definition rules_of (enc : option BufferEncoding) (pairs : list (Buffer * Buffer))
  : Rules :=
  fold_left (fun rules kv =>
               set_property rules (rule_key enc (fst kv)) (text_of enc (snd kv)))
            pairs [].

(** [Object.hasOwn(rules, key) ? rules[key] : undefined] *)
Fixpoint own_property (rules : Rules) (key : JSString) : option Text :=
  match rules with
  | [] => None
  | (k, v) :: rules' =>
      if list_eq_dec Z.eq_dec k key then Some v else own_property rules' key
  end.

(** The value of the last pair named [key], if any. *)
Definition last_value (enc : option BufferEncoding)
           (pairs : list (Buffer * Buffer)) (key : JSString) : option Text :=
  fold_left (fun found kv =>
               if list_eq_dec Z.eq_dec (rule_key enc (fst kv)) key
               then Some (text_of enc (snd kv)) else found)
            pairs None.

(** *** The wire layout of a legacy info response

    The bytes after the response-type byte: the mandatory fields, the mod
    section when the server sends one, then the two closing fields. *)
Record GoldBase : Type := mkGoldBase
  { gb_address : Buffer;
    gb_serverName : Buffer;
    gb_mapName : Buffer;
    gb_folder : Buffer;
    gb_game : Buffer;
    gb_playerCount : Z;
    gb_maxPlayers : Z;
    gb_protocol : Z;
    gb_serverType : Z;
    gb_platform : Z;
    gb_passwordProtected : bool;
    gb_isMod : bool }.

Record GoldMod : Type := mkGoldMod
  { gm_website : Buffer;
    gm_download : Buffer;
    gm_skipped : Z;
    gm_version : Z;
    gm_size : Z;
    gm_multiplayerOnly : bool;
    gm_usesCustomDll : bool }.

Definition wire_gold_base (b : GoldBase) : Buffer :=
  cstr (gb_address b) ++ cstr (gb_serverName b) ++ cstr (gb_mapName b)
    ++ cstr (gb_folder b) ++ cstr (gb_game b)
    ++ [gb_playerCount b] ++ [gb_maxPlayers b] ++ [gb_protocol b]
    ++ [gb_serverType b] ++ [gb_platform b]
    ++ [byte_of_bool (gb_passwordProtected b)]
    ++ [byte_of_bool (gb_isMod b)].

Definition wire_gold_mod (m : GoldMod) : Buffer :=
  cstr (gm_website m) ++ cstr (gm_download m) ++ [gm_skipped m]
    ++ field true 4 (gm_version m) ++ field true 4 (gm_size m)
    ++ [byte_of_bool (gm_multiplayerOnly m)]
    ++ [byte_of_bool (gm_usesCustomDll m)].

Definition wire_gold_tail (vac : bool) (bots : Z) : Buffer :=
  [byte_of_bool vac; bots].

Definition wire_gold (b : GoldBase) (m : option GoldMod) (vac : bool) (bots : Z)
  : Buffer :=
  wire_gold_base b ++ opt_wire wire_gold_mod m ++ wire_gold_tail vac bots.

Definition valid_gold_base (b : GoldBase) : Prop :=
  cstring_bytes (gb_address b) /\ cstring_bytes (gb_serverName b) /\
  cstring_bytes (gb_mapName b) /\ cstring_bytes (gb_folder b) /\
  cstring_bytes (gb_game b).

Definition valid_gold_mod (m : GoldMod) : Prop :=
  cstring_bytes (gm_website m) /\ cstring_bytes (gm_download m) /\
  0 <= gm_version m < 2 ^ 32 /\ 0 <= gm_size m < 2 ^ 32.

Definition decoded_gold (enc : option BufferEncoding) (ping : Q)
           (b : GoldBase) (m : option GoldMod) (vac : bool) (bots : Z)
  : GoldSrcInfo :=
  mkGoldSrcInfo
    (text_of enc (gb_address b)) (text_of enc (gb_serverName b))
    (text_of enc (gb_mapName b)) (text_of enc (gb_folder b))
    (text_of enc (gb_game b))
    (gb_playerCount b) (gb_maxPlayers b) (gb_protocol b)
    (text_of enc [gb_serverType b]) (text_of enc [gb_platform b])
    (gb_passwordProtected b) (gb_isMod b) vac bots ping
    (option_map (fun m => text_of enc (gm_website m)) m)
    (option_map (fun m => text_of enc (gm_download m)) m)
    (option_map gm_version m) (option_map gm_size m)
    (option_map gm_multiplayerOnly m) (option_map gm_usesCustomDll m).

(** The invariant of a client: once its own flag says closed, so does the
    flag of its transport. *)
Definition closed_together (c : A2SClient) : Prop :=
  c_closed c = true -> closed (socket c) = true.

(** A server that challenges the first request and answers the second
    with the modern info response of the scenario; a silent one; a
    network interface that refuses to transmit. *)
Definition handshake_server : Network :=
  fun retries _ =>
    match retries with
    | O => mkExchange None [HEADER_SIMPLE ++ [65; 239; 190; 173; 222]] 20
    | _ => mkExchange None
             [HEADER_SIMPLE ++ A2S_INFO_RESPONSE :: wire_base example_base ++ [0]]
             30
    end.

Definition silent_server : Network := fun _ _ => mkExchange None [] 3000.

Definition unreachable_network : Network :=
  fun _ _ => mkExchange (Some (Error "send EHOSTUNREACH")) [] 1.

(** What one write appends: on a writer configured with [le] and [enc]
    the write of [v] as a [k] returns, [bs] is added to [toBuffer()], and
    the configuration stays. *)
Definition Appends (le : bool) (enc : option BufferEncoding)
           (k : Primitive) (v : Value) (bs : Buffer) : Prop :=
  forall w,
    w_littleEndian w = le -> w_encoding w = enc ->
    exists w',
      write_value k v w = Ok w' /\ toBuffer w' = toBuffer w ++ bs /\
      w_littleEndian w' = le /\ w_encoding w' = enc.

(** A rule on the wire: two C strings; the name is not ["__proto__"],
    the one key whose assignment on a plain object creates no property. *)
Definition valid_rule (enc : option BufferEncoding) (kv : Buffer * Buffer)
  : Prop :=
  cstring_bytes (fst kv) /\ cstring_bytes (snd kv) /\
  rule_key enc (fst kv) <> lit "__proto__".

(** The lower case of an ASCII code unit, and the platform letter the
    parser reports for it: the deprecated ['o'] becomes ['m']. *)
Definition ascii_lower (u : Z) : Z :=
  if (65 <=? u) && (u <=? 90) then u + 32 else u.

Definition platform_letter (u : Z) : Z :=
  if ascii_lower u =? 111 then 109 else ascii_lower u.

(** *** Parsers on arbitrary bytes

    The reader stands inside its buffer.  [OnlyBroken P m]: run on such a
    reader whose encoding satisfies [P], [m] leaves the reader inside its
    buffer, over the same bytes and with the same encoding, and throws
    nothing but a [BrokenMessageError] or its subclass. *)
Definition in_buffer (r : ByteReader) : Prop :=
  0 <= position r <= Z.of_nat (length (buffer r)).

Definition OnlyBroken {A} (P : option BufferEncoding -> Prop) (m : Reader A)
  : Prop :=
  forall r,
    in_buffer r -> P (encoding r) ->
    in_buffer (snd (m r)) /\
    buffer (snd (m r)) = buffer r /\
    encoding (snd (m r)) = encoding r /\
    match fst (m r) with
    | Ok _ => True
    | Throw e => instanceof_BrokenMessageError e = true
    end.

(** Every mode, and the two text modes. *)
Definition any_mode (enc : option BufferEncoding) : Prop := True.
Definition text_mode (enc : option BufferEncoding) : Prop := enc <> None.

(* ===================================================================== *)
(** ** Buffer and reader facts                                            *)
(* ===================================================================== *)

Section BufferFacts.

Lemma subarray_within (b : Buffer) (s e : Z) :
  0 <= s <= e -> e <= Z.of_nat (length b) ->
  subarray b s e = firstn (Z.to_nat (e - s)) (skipn (Z.to_nat s) b).
Proof.
  intros Hs He. unfold subarray, clampIndex.
  destruct (Z.ltb_spec s 0); [lia|].
  destruct (Z.ltb_spec e 0); [lia|].
  rewrite !Z.min_l by lia. reflexivity.
Qed.

Lemma subarray_to_end (b : Buffer) (s : Z) :
  0 <= s ->
  subarray b s (Z.of_nat (length b)) = skipn (Z.to_nat s) b.
Proof.
  intros Hs. unfold subarray, clampIndex.
  destruct (Z.ltb_spec s 0); [lia|].
  destruct (Z.ltb_spec (Z.of_nat (length b)) 0); [lia|].
  rewrite Z.min_id.
  destruct (Z.le_gt_cases s (Z.of_nat (length b))).
  - rewrite Z.min_l by lia.
    apply firstn_all2. rewrite length_skipn. lia.
  - rewrite Z.min_r by lia.
    rewrite !skipn_all2 by lia. apply firstn_nil.
Qed.

Lemma Buffer_equals_iff (a b : Buffer) : Buffer_equals a b = true <-> a = b.
Proof.
  unfold Buffer_equals. destruct (list_eq_dec Z.eq_dec a b); split; congruence.
Qed.

Lemma Buffer_equals_length (a b : Buffer) :
  length a <> length b -> Buffer_equals a b = false.
Proof.
  intros H. destruct (Buffer_equals a b) eqn:E; [|reflexivity].
  apply Buffer_equals_iff in E. congruence.
Qed.

Lemma subarray_length_le (b : Buffer) (s e : Z) :
  (length (subarray b s e) <= length b)%nat.
Proof.
  unfold subarray. rewrite length_firstn, length_skipn. lia.
Qed.

(** The header test of the assembler is [strip_simple_header]. *)
Lemma strip_simple_header_spec (l : Buffer) :
  (if Buffer_equals (subarray l 0 4) HEADER_SIMPLE
   then subarray_from l 4 else l) = strip_simple_header l.
Proof.
  destruct (Nat.lt_ge_cases (length l) 4) as [Hlt|Hge].
  - rewrite Buffer_equals_length.
    + destruct l as [|a [|b [|c [|d rest]]]]; try reflexivity.
      cbn [length] in Hlt. lia.
    + pose proof (subarray_length_le l 0 4). cbn [HEADER_SIMPLE length]. lia.
  - destruct l as [|a [|b [|c [|d rest]]]]; cbn [length] in Hge; try lia.
    assert (Hsub : subarray (a :: b :: c :: d :: rest) 0 4 = [a; b; c; d]).
    { rewrite subarray_within by (cbn [length]; lia). reflexivity. }
    assert (Hrest : subarray_from (a :: b :: c :: d :: rest) 4 = rest).
    { unfold subarray_from. rewrite subarray_to_end by lia. reflexivity. }
    rewrite Hsub, Hrest. unfold strip_simple_header, HEADER_SIMPLE.
    destruct (Buffer_equals [a; b; c; d] [255; 255; 255; 255]) eqn:E.
    + apply Buffer_equals_iff in E. injection E as -> -> -> ->. reflexivity.
    + destruct ((a =? 255) && (b =? 255) && (c =? 255) && (d =? 255)) eqn:F;
        [|reflexivity].
      rewrite !andb_true_iff, !Z.eqb_eq in F.
      destruct F as [[[-> ->] ->] ->].
      vm_compute in E. discriminate.
Qed.

(** *** Little-endian fields *)

Lemma le_bytes_length (n : nat) (v : Z) : length (le_bytes n v) = n.
Proof. revert v. induction n; intros; cbn; [reflexivity|]. now rewrite IHn. Qed.

Lemma le_value_le_bytes (n : nat) (v : Z) :
  le_value (le_bytes n v) = v mod 2 ^ (8 * Z.of_nat n).
Proof.
  revert v. induction n as [|n IH]; intros v.
  - cbn. now rewrite Z.mod_1_r.
  - cbn [le_bytes le_value]. rewrite IH.
    change 255 with (Z.ones 8). rewrite Z.land_ones by lia.
    rewrite Z.shiftl_mul_pow2, Z.shiftr_div_pow2 by lia.
    replace (8 * Z.of_nat (S n)) with (8 + 8 * Z.of_nat n) by lia.
    rewrite Z.pow_add_r by lia.
    rewrite Z.rem_mul_r by lia. lia.
Qed.

Lemma le_value_unsigned (n : nat) (v : Z) :
  0 <= v < 2 ^ (8 * Z.of_nat n) -> le_value (le_bytes n v) = v.
Proof. intros H. rewrite le_value_le_bytes. now apply Z.mod_small. Qed.

Lemma testbit_top (w x : Z) :
  0 < w -> 0 <= x < 2 ^ w ->
  Z.testbit x (w - 1) = (2 ^ (w - 1) <=? x).
Proof.
  intros Hw Hx.
  assert (Hp : 2 ^ w = 2 * 2 ^ (w - 1)).
  { replace w with (1 + (w - 1)) at 1 by lia. now rewrite Z.pow_add_r by lia. }
  assert (Hpos : 0 < 2 ^ (w - 1)) by (apply Z.pow_pos_nonneg; lia).
  destruct (Z.leb_spec (2 ^ (w - 1)) x) as [Hge|Hlt].
  - apply Z.testbit_true; [lia|].
    assert (x / 2 ^ (w - 1) = 1) as ->; [|reflexivity].
    symmetry. apply Z.div_unique with (r := x - 2 ^ (w - 1)); lia.
  - apply Z.testbit_false; [lia|].
    rewrite Z.div_small by lia. reflexivity.
Qed.

Lemma to_signed_mod (w v : Z) :
  0 < w -> - 2 ^ (w - 1) <= v < 2 ^ (w - 1) ->
  to_signed w (v mod 2 ^ w) = v.
Proof.
  intros Hw Hv. unfold to_signed.
  assert (Hp : 2 ^ w = 2 * 2 ^ (w - 1)).
  { replace w with (1 + (w - 1)) at 1 by lia. now rewrite Z.pow_add_r by lia. }
  assert (Hpos : 0 < 2 ^ (w - 1)) by (apply Z.pow_pos_nonneg; lia).
  rewrite testbit_top by (try lia; apply Z.mod_pos_bound; lia).
  destruct (Z.le_gt_cases 0 v) as [Hnn|Hneg].
  - rewrite Z.mod_small by lia.
    destruct (Z.leb_spec (2 ^ (w - 1)) v); lia.
  - assert (Hm : v mod 2 ^ w = v + 2 ^ w).
    { symmetry. apply Z.mod_unique with (q := -1); lia. }
    rewrite Hm. destruct (Z.leb_spec (2 ^ (w - 1)) (v + 2 ^ w)); lia.
Qed.

Lemma bytesAt_exact (n : nat) (data : Buffer) :
  length data = n -> bytesAt n data 0 = Ok data.
Proof.
  intros H. unfold bytesAt. cbn [skipn].
  rewrite firstn_all2 by lia. now rewrite H, Nat.eqb_refl.
Qed.

Lemma readUInt_le_bytes (n : nat) (v : Z) (be : bool) :
  0 <= v < 2 ^ (8 * Z.of_nat n) ->
  (if be then readUIntBE n (rev (le_bytes n v)) 0
   else readUIntLE n (le_bytes n v) 0) = Ok v.
Proof.
  intros H. destruct be; unfold readUIntBE, readUIntLE.
  - rewrite bytesAt_exact by (now rewrite length_rev, le_bytes_length).
    cbn [rbind]. now rewrite rev_involutive, le_value_unsigned.
  - rewrite bytesAt_exact by apply le_bytes_length.
    cbn [rbind]. now rewrite le_value_unsigned.
Qed.

Lemma readInt_le_bytes (n : nat) (v : Z) (be : bool) :
  (0 < n)%nat ->
  - 2 ^ (8 * Z.of_nat n - 1) <= v < 2 ^ (8 * Z.of_nat n - 1) ->
  (if be then readIntBE n (rev (le_bytes n v)) 0
   else readIntLE n (le_bytes n v) 0) = Ok v.
Proof.
  intros Hn H. destruct be; unfold readIntBE, readIntLE, readUIntBE, readUIntLE.
  - rewrite bytesAt_exact by (now rewrite length_rev, le_bytes_length).
    cbn [rbind]. rewrite rev_involutive, le_value_le_bytes.
    now rewrite to_signed_mod by lia.
  - rewrite bytesAt_exact by apply le_bytes_length.
    cbn [rbind]. rewrite le_value_le_bytes.
    now rewrite to_signed_mod by lia.
Qed.

End BufferFacts.

Section ReaderFacts.

Variable le : bool.
Variable enc : option BufferEncoding.

Lemma At_new (b : Buffer) (l' : bool) (e' : option BufferEncoding) :
  At (new_ByteReader b l' e') b.
Proof. split; cbn; [lia|reflexivity]. Qed.

Lemma At_length (r : ByteReader) (l : list Z) :
  At r l -> Z.of_nat (length (buffer r)) = position r + Z.of_nat (length l).
Proof.
  intros [Hp Hs]. rewrite <- Hs, length_skipn. lia.
Qed.

Lemma At_adv (r : ByteReader) (x y : list Z) :
  At r (x ++ y) -> At (adv r (Z.of_nat (length x))) y.
Proof.
  intros H. pose proof (At_length H) as HL. destruct H as [Hp Hs].
  rewrite length_app in HL.
  split; cbn [adv set_position position buffer]; [lia|].
  replace (Z.to_nat (position r + Z.of_nat (length x)))
    with (length x + Z.to_nat (position r))%nat by lia.
  rewrite <- skipn_skipn, Hs.
  now rewrite skipn_app, skipn_all, Nat.sub_diag.
Qed.

Lemma adv_0 (r : ByteReader) : adv r 0 = r.
Proof. destruct r. unfold adv, set_position. cbn. now rewrite Z.add_0_r. Qed.

Lemma adv_adv (r : ByteReader) (n m : Z) : adv (adv r n) m = adv r (n + m).
Proof. unfold adv, set_position. cbn. now rewrite Z.add_assoc. Qed.

Lemma read_at (r : ByteReader) (x rest : list Z) :
  At r (x ++ rest) ->
  read (Z.of_nat (length x)) r = (Ok x, adv r (Z.of_nat (length x))).
Proof.
  intros H. pose proof (At_length H) as HL. destruct H as [Hp Hs].
  rewrite length_app in HL. unfold read.
  destruct (Z.gtb_spec (position r + Z.of_nat (length x))
                       (Z.of_nat (length (buffer r)))); [lia|].
  rewrite subarray_within by lia.
  rewrite Hs.
  replace (Z.to_nat (position r + Z.of_nat (length x) - position r))
    with (length x) by lia.
  rewrite firstn_app, firstn_all, Nat.sub_diag. cbn [firstn].
  now rewrite app_nil_r.
Qed.

Lemma read_short (r : ByteReader) (p : list Z) (n : Z) :
  At r p -> Z.of_nat (length p) < n ->
  read n r = (Throw (BufferExhaustedError
                       ("Cannot read " ++ show n ++ " bytes from position "
                                       ++ show (position r))), r).
Proof.
  intros H Hn. pose proof (At_length H) as HL. unfold read.
  destruct (Z.gtb_spec (position r + n) (Z.of_nat (length (buffer r))));
    [reflexivity|lia].
Qed.

(** *** The combinators *)

Lemma Reads_ret {A} (a : A) : Reads le enc (ret a) [] a.
Proof. intros r rest _ _ _. cbn. now rewrite adv_0. Qed.

Lemma Reads_bind {A B} (m : Reader A) (k : A -> Reader B) l1 l2 a b :
  Reads le enc m l1 a -> Reads le enc (k a) l2 b ->
  Reads le enc (bind m k) (l1 ++ l2) b.
Proof.
  intros Hm Hk r rest Hle Henc Hat. unfold bind.
  rewrite <- app_assoc in Hat.
  rewrite (Hm r _ Hle Henc Hat).
  rewrite (Hk _ rest) by (try apply At_adv; assumption).
  now rewrite adv_adv, length_app, Nat2Z.inj_add.
Qed.

Lemma Exhausts_bind_l {A B} (m : Reader A) (k : A -> Reader B) p :
  Exhausts le enc m p -> Exhausts le enc (bind m k) p.
Proof.
  intros Hm r Hle Henc Hat. unfold bind.
  destruct (Hm r Hle Henc Hat) as (msg & r' & ->). eauto.
Qed.

Lemma Exhausts_bind_r {A B} (m : Reader A) (k : A -> Reader B) l1 a p :
  Reads le enc m l1 a -> Exhausts le enc (k a) p ->
  Exhausts le enc (bind m k) (l1 ++ p).
Proof.
  intros Hm Hk r Hle Henc Hat. unfold bind.
  rewrite (Hm r _ Hle Henc Hat).
  apply Hk; try assumption. now apply At_adv.
Qed.

Lemma strict_prefix_app (p l1 l2 : list Z) :
  strict_prefix p (l1 ++ l2) ->
  strict_prefix p l1 \/ exists p2, p = l1 ++ p2 /\ strict_prefix p2 l2.
Proof.
  intros (q & Hq & E). apply app_eq_app in E.
  destruct E as (l & [[E1 E2]|[E1 E2]]).
  - destruct l as [|x l].
    + right. exists []. rewrite app_nil_r in E1. cbn in E2. subst l1 q.
      split; [now rewrite app_nil_r|]. exists l2. auto.
    + left. exists (x :: l). split; [discriminate|assumption].
  - right. exists l. split; [assumption|]. exists q. auto.
Qed.

Lemma Parses_bind {A B} (m : Reader A) (k : A -> Reader B) l1 l2 a b :
  Parses le enc m l1 a -> Parses le enc (k a) l2 b ->
  Parses le enc (bind m k) (l1 ++ l2) b.
Proof.
  intros [Hm Hmx] [Hk Hkx]. split; [now apply Reads_bind with a|].
  intros p Hp. apply strict_prefix_app in Hp.
  destruct Hp as [Hp|(p2 & -> & Hp2)].
  - apply Exhausts_bind_l. auto.
  - apply Exhausts_bind_r with a; auto.
Qed.

Lemma Parses_ret {A} (a : A) : Parses le enc (ret a) [] a.
Proof.
  split; [apply Reads_ret|].
  intros p (q & Hq & E). destruct p, q; try discriminate. congruence.
Qed.

Lemma Parses_when {A} (c : bool) (m : Reader A) l a :
  Parses le enc m l a ->
  Parses le enc (when c m) (if c then l else [])
         (if c then Some a else None).
Proof.
  intros H. destruct c; cbn [when]; [|apply Parses_ret].
  rewrite <- (app_nil_r l). apply Parses_bind with a; [assumption|].
  apply Parses_ret.
Qed.

(** *** Fixed-width fields *)

Lemma Parses_fixed {A} (n : nat) (f : bool -> Buffer -> Result A) l a :
  length l = n -> f le l = Ok a ->
  Parses le enc
         (fun r => (data <- read (Z.of_nat n) ;; lift (f (littleEndian r) data)) r)
         l a.
Proof.
  intros Hl Hf. split.
  - intros r rest Hle Henc Hat. unfold bind. subst n.
    rewrite (read_at _ _ Hat). unfold lift. now rewrite Hle, Hf.
  - intros p (q & Hq & ->) r Hle Henc Hat. unfold bind.
    rewrite (read_short Hat).
    + eauto.
    + subst n. rewrite length_app. destruct q; [congruence|cbn; lia].
Qed.

Lemma Parses_readUint8 (b : Z) : Parses le enc readUint8 [b] b.
Proof.
  apply (@Parses_fixed Z 1 (fun _ data => JS.readUInt8 data 0)); [reflexivity|].
  cbn. now rewrite Z.add_0_r.
Qed.

Lemma Parses_readInt8 (v : Z) :
  -128 <= v <= 127 -> Parses le enc readInt8 (le_bytes 1 v) v.
Proof.
  intros H.
  apply (@Parses_fixed Z 1 (fun _ data => JS.readInt8 data 0));
    [reflexivity|].
  apply (@readInt_le_bytes 1 v false); [lia|]. cbn. lia.
Qed.

Lemma Parses_readUint16 (v : Z) :
  0 <= v < 2 ^ 16 -> Parses le enc readUint16 (field le 2 v) v.
Proof.
  intros H.
  apply (@Parses_fixed Z 2
           (fun l data => if l then readUInt16LE data 0 else readUInt16BE data 0)).
  - unfold field. destruct le; now rewrite ?length_rev, le_bytes_length.
  - unfold field. pose proof (@readUInt_le_bytes 2 v (negb le) H) as E.
    destruct le; exact E.
Qed.

Lemma Parses_readInt16 (v : Z) :
  - 2 ^ 15 <= v < 2 ^ 15 -> Parses le enc readInt16 (field le 2 v) v.
Proof.
  intros H.
  apply (@Parses_fixed Z 2
           (fun l data => if l then readInt16LE data 0 else readInt16BE data 0)).
  - unfold field. destruct le; now rewrite ?length_rev, le_bytes_length.
  - unfold field.
    assert (E := @readInt_le_bytes 2 v (negb le) ltac:(lia) H).
    destruct le; exact E.
Qed.

Lemma Parses_readUint32 (v : Z) :
  0 <= v < 2 ^ 32 -> Parses le enc readUint32 (field le 4 v) v.
Proof.
  intros H.
  apply (@Parses_fixed Z 4
           (fun l data => if l then readUInt32LE data 0 else readUInt32BE data 0)).
  - unfold field. destruct le; now rewrite ?length_rev, le_bytes_length.
  - unfold field. pose proof (@readUInt_le_bytes 4 v (negb le) H) as E.
    destruct le; exact E.
Qed.

Lemma Parses_readInt32 (v : Z) :
  - 2 ^ 31 <= v < 2 ^ 31 -> Parses le enc readInt32 (field le 4 v) v.
Proof.
  intros H.
  apply (@Parses_fixed Z 4
           (fun l data => if l then readInt32LE data 0 else readInt32BE data 0)).
  - unfold field. destruct le; now rewrite ?length_rev, le_bytes_length.
  - unfold field.
    assert (E := @readInt_le_bytes 4 v (negb le) ltac:(lia) H).
    destruct le; exact E.
Qed.

Lemma Parses_readUint64 (v : Z) :
  0 <= v < 2 ^ 64 -> Parses le enc readUint64 (field le 8 v) v.
Proof.
  intros H.
  apply (@Parses_fixed Z 8
           (fun l data => if l then readBigUInt64LE data 0
                          else readBigUInt64BE data 0)).
  - unfold field. destruct le; now rewrite ?length_rev, le_bytes_length.
  - unfold field. pose proof (@readUInt_le_bytes 8 v (negb le) H) as E.
    destruct le; exact E.
Qed.

Lemma Parses_readInt64 (v : Z) :
  - 2 ^ 63 <= v < 2 ^ 63 -> Parses le enc readInt64 (field le 8 v) v.
Proof.
  intros H.
  apply (@Parses_fixed Z 8
           (fun l data => if l then readBigInt64LE data 0
                          else readBigInt64BE data 0)).
  - unfold field. destruct le; now rewrite ?length_rev, le_bytes_length.
  - unfold field.
    assert (E := @readInt_le_bytes 8 v (negb le) ltac:(lia) H).
    destruct le; exact E.
Qed.

Lemma Parses_readBool (b : bool) :
  Parses le enc readBool [if b then 1 else 0] b.
Proof.
  unfold readBool.
  change [if b then 1 else 0] with ([if b then 1 else 0] ++ []).
  apply Parses_bind with (if b then 1 else 0).
  - replace [if b then 1 else 0] with (le_bytes 1 (if b then 1 else 0))
      by now destruct b.
    apply Parses_readInt8. destruct b; lia.
  - destruct b; apply Parses_ret.
Qed.

(** *** Characters and C strings *)

Lemma decoded_at (data : Buffer) (r : ByteReader) :
  encoding r = enc -> decoded data r = (Ok (text_of enc data), r).
Proof. intros <-. unfold decoded, text_of. now destruct (encoding r). Qed.

Lemma read1_at (r : ByteReader) (b : Z) (rest : list Z) :
  At r (b :: rest) -> read 1 r = (Ok [b], adv r 1).
Proof. intros Hat. exact (read_at [b] rest Hat). Qed.

Lemma Parses_readChar (b : Z) : Parses le enc readChar [b] (text_of enc [b]).
Proof.
  split.
  - intros r rest Hle Henc Hat. unfold readChar, bind.
    rewrite (read1_at Hat). now apply decoded_at.
  - intros p (q & Hq & E) r Hle Henc Hat. unfold readChar, bind.
    destruct p; [|destruct p, q; discriminate || congruence].
    rewrite (read_short Hat) by (cbn; lia). eauto.
Qed.

Lemma readUint8_at (r : ByteReader) (b : Z) (rest : list Z) :
  At r (b :: rest) -> readUint8 r = (Ok b, adv r 1).
Proof.
  intros Hat. unfold readUint8, bind. rewrite (read1_at Hat).
  cbn. now rewrite Z.add_0_r.
Qed.

Lemma readUint8_end (r : ByteReader) :
  At r [] ->
  readUint8 r = (Throw (BufferExhaustedError
                          ("Cannot read " ++ show 1 ++ " bytes from position "
                                          ++ show (position r))), r).
Proof.
  intros Hat. unfold readUint8, bind.
  now rewrite (read_short Hat) by (cbn; lia).
Qed.

Lemma readCString_loop_ok (s : list Z) :
  cstring_bytes s ->
  forall fuel acc r rest,
    (length s < fuel)%nat -> At r (s ++ 0 :: rest) ->
    readCString_loop fuel acc r
    = (Ok (acc ++ s), adv r (Z.of_nat (length s) + 1)).
Proof.
  induction 1 as [|b s Hb Hs IH]; intros fuel acc r rest Hf Hat;
    destruct fuel as [|fuel]; try (cbn in Hf; lia);
    cbn [readCString_loop]; unfold bind.
  - cbn [app] in Hat. rewrite (readUint8_at Hat). cbn.
    now rewrite app_nil_r.
  - cbn [app] in Hat. rewrite (readUint8_at Hat).
    destruct (Z.eqb_spec b 0); [contradiction|]. cbn [negb].
    rewrite (IH fuel (acc ++ [b]) (adv r 1) rest).
    + rewrite adv_adv, <- app_assoc. cbn [length app].
      do 2 f_equal. lia.
    + cbn in Hf. lia.
    + exact (At_adv [b] _ Hat).
Qed.

Lemma readCString_loop_short (p : list Z) :
  cstring_bytes p ->
  forall fuel acc r,
    (length p < fuel)%nat -> At r p ->
    exists msg r',
      readCString_loop fuel acc r = (Throw (BufferExhaustedError msg), r').
Proof.
  induction 1 as [|b p Hb Hp IH]; intros fuel acc r Hf Hat;
    destruct fuel as [|fuel]; try (cbn in Hf; lia);
    cbn [readCString_loop]; unfold bind.
  - rewrite (readUint8_end Hat). eauto.
  - rewrite (readUint8_at Hat).
    destruct (Z.eqb_spec b 0); [contradiction|]. cbn [negb].
    apply IH; [cbn in Hf; lia|].
    rewrite <- (app_nil_r p) in Hat |- *.
    exact (At_adv [b] _ Hat).
Qed.

Lemma Parses_readCString (s : Buffer) :
  cstring_bytes s -> Parses le enc readCString (cstr s) (text_of enc s).
Proof.
  intros Hs. unfold cstr. split.
  - intros r rest Hle Henc Hat. unfold readCString, bind.
    rewrite <- app_assoc in Hat. cbn [app] in Hat.
    pose proof (At_length Hat) as HL. rewrite length_app in HL.
    pose proof (proj1 Hat) as Hpos.
    rewrite (@readCString_loop_ok s Hs _ [] r rest) by (assumption || lia).
    cbn [app]. rewrite decoded_at by assumption.
    rewrite length_app. cbn [length]. do 2 f_equal. lia.
  - intros p (q & Hq & E) r Hle Henc Hat. unfold readCString, bind.
    destruct (exists_last Hq) as (q' & x & ->).
    rewrite app_assoc in E. apply app_inj_tail in E. destruct E as [-> _].
    apply Forall_app in Hs. destruct Hs as [Hp _].
    pose proof (At_length Hat) as HL. pose proof (proj1 Hat) as Hpos.
    destruct (@readCString_loop_short p Hp (S (length (buffer r))) [] r)
      as (msg & r' & ->); [lia|assumption|]. eauto.
Qed.

Lemma split_at_zero (l : list Z) :
  cstring_bytes l \/
  exists s rest, l = s ++ 0 :: rest /\ cstring_bytes s.
Proof.
  induction l as [|b l [IH|(s & rest & -> & IH)]].
  - left. constructor.
  - destruct (Z.eq_dec b 0) as [->|Hb].
    + right. exists [], l. split; [reflexivity|constructor].
    + left. now constructor.
  - destruct (Z.eq_dec b 0) as [->|Hb].
    + right. exists [], (s ++ 0 :: rest). split; [reflexivity|constructor].
    + right. exists (b :: s), rest. split; [reflexivity|now constructor].
Qed.

(** The loop bound of [readCString] is never reached: on a reader inside
    its buffer the call returns the string or throws the
    [BufferExhaustedError]. *)
Lemma readCString_total (r : ByteReader) (l : list Z) :
  At r l ->
  (exists t r', readCString r = (Ok t, r')) \/
  (exists msg r', readCString r = (Throw (BufferExhaustedError msg), r')).
Proof.
  intros Hat. pose proof (At_length Hat) as HL. pose proof (proj1 Hat) as Hpos.
  unfold readCString, bind.
  destruct (split_at_zero l) as [Hnz|(s & rest & -> & Hnz)].
  - right.
    destruct (@readCString_loop_short l Hnz (S (length (buffer r))) [] r)
      as (msg & r' & ->); [lia|assumption|]. eauto.
  - left. rewrite length_app in HL.
    rewrite (@readCString_loop_ok s Hnz _ [] r rest) by (assumption || lia).
    unfold decoded. cbn [encoding adv set_position].
    destruct (encoding r); eauto.
Qed.

(** *** The one recovery: [try { edf = readUint8() } catch ...] *)

Lemma recover_flags_at (r : ByteReader) (b : Z) (rest : list Z) :
  At r (b :: rest) -> recover_flags r = (Ok b, adv r 1).
Proof.
  intros Hat. unfold recover_flags, try_catch. now rewrite (readUint8_at Hat).
Qed.

Lemma recover_flags_end (r : ByteReader) :
  At r [] -> recover_flags r = (Ok 0, r).
Proof.
  intros Hat. unfold recover_flags, try_catch. now rewrite (readUint8_end Hat).
Qed.

Lemma ParsesBut_recover {A} (k : Z -> Reader A) (edf : Z) tail a a0 :
  Parses le enc (k edf) tail a ->
  Reads le enc (k 0) [] a0 ->
  ParsesBut le enc (bind recover_flags k) (edf :: tail) a 0 a0.
Proof.
  intros [Hk Hkx] H0. split.
  - intros r rest Hle Henc Hat. unfold bind.
    cbn [app] in Hat. rewrite (recover_flags_at Hat).
    rewrite (Hk (adv r 1) rest) by (try exact (At_adv [edf] _ Hat); assumption).
    rewrite adv_adv. cbn [length]. do 2 f_equal. lia.
  - intros p Hp. split.
    + intros Hlen r Hle Henc Hat. destruct p; [|discriminate].
      unfold bind. rewrite (recover_flags_end Hat).
      rewrite <- (app_nil_r []) in Hat.
      now rewrite (H0 r [] Hle Henc Hat).
    + intros Hlen r Hle Henc Hat. destruct p as [|b p]; [now cbn in Hlen|].
      destruct Hp as (q & Hq & E). injection E as <- ->.
      unfold bind. rewrite (recover_flags_at Hat).
      apply (Hkx p); try assumption.
      * exists q. auto.
      * rewrite <- (app_nil_r p) in Hat |- *. exact (At_adv [edf] _ Hat).
Qed.

Lemma ParsesBut_bind {A B} (m : Reader A) (k : A -> Reader B) l1 l2 a b n b0 :
  Parses le enc m l1 a -> ParsesBut le enc (k a) l2 b n b0 ->
  ParsesBut le enc (bind m k) (l1 ++ l2) b (length l1 + n) b0.
Proof.
  intros [Hm Hmx] [Hk Hkx]. split; [now apply Reads_bind with a|].
  intros p Hp. apply strict_prefix_app in Hp.
  destruct Hp as [Hp|(p2 & -> & Hp2)].
  - split.
    + intros Hlen. exfalso. destruct Hp as (q & Hq & ->).
      rewrite length_app in Hlen.
      destruct q; [congruence|cbn [length] in Hlen; lia].
    + intros _. apply Exhausts_bind_l. auto.
  - destruct (Hkx p2 Hp2) as [Hall Hex]. split.
    + intros Hlen r Hle Henc Hat. rewrite length_app in Hlen.
      unfold bind. rewrite (Hm r p2 Hle Henc Hat).
      rewrite (Hall ltac:(lia) (adv r (Z.of_nat (length l1))))
        by (try apply At_adv; try rewrite app_nil_r; assumption).
      now rewrite adv_adv, length_app, Nat2Z.inj_add.
    + intros Hlen. rewrite length_app in Hlen.
      apply Exhausts_bind_r with a; [assumption|]. apply Hex. lia.
Qed.

End ReaderFacts.

(* ===================================================================== *)
(** ** The modern info parser on its wire layout                          *)
(* ===================================================================== *)

Section ParseSource.

Variable e : BufferEncoding.
Variable ping : Q.

Lemma Parses_lower_char (b : Z) :
  Parses true (Some e) (c <- readChar ;; lift (call_toLowerCase c)) [b]
         (lower_char e b).
Proof.
  rewrite <- (app_nil_r [b]).
  apply Parses_bind with (text_of (Some e) [b]); [apply Parses_readChar|].
  cbn [text_of call_toLowerCase]. apply Parses_ret.
Qed.

Lemma Parses_ret_eq {A} (a a' : A) :
  a = a' -> Parses true (Some e) (ret a) [] a'.
Proof. intros ->. apply Parses_ret. Qed.

Lemma Parses_when_opt {A B} (c : bool) (m : Reader A) (o : option B)
      (f : B -> Buffer) (g : B -> A) :
  c = is_some o ->
  (forall x, o = Some x -> Parses true (Some e) m (f x) (g x)) ->
  Parses true (Some e) (when c m) (opt_wire f o) (option_map g o).
Proof.
  intros -> H. destruct o as [x|]; cbn [is_some opt_wire option_map].
  - apply (Parses_when true). now apply H.
  - cbn [when]. apply Parses_ret.
Qed.

Lemma flags_of_optional (o : SourceOptional) :
  flag (edf_of o) 128 = is_some (o_port o) /\
  flag (edf_of o) 16 = is_some (o_steamId o) /\
  flag (edf_of o) 64 = is_some (o_stv o) /\
  flag (edf_of o) 32 = is_some (o_keywords o) /\
  flag (edf_of o) 1 = is_some (o_gameId o).
Proof.
  destruct o as [[?|] [?|] [?|] [?|] [?|]]; vm_compute; auto.
Qed.

(** The optional tail, given the flags byte of exactly the present
    fields. *)
Lemma Parses_optional (b : SourceBase) (o : SourceOptional) :
  valid_optional o ->
  Parses true (Some e)
    (port <- when (flag (edf_of o) 128) readUint16 ;;
     steamId <- when (flag (edf_of o) 16) readUint64 ;;
     stv <- when (flag (edf_of o) 64)
                 (stvPort <- readUint16 ;;
                  stvName <- readCString ;;
                  ret (stvPort, stvName)) ;;
     keywords <- when (flag (edf_of o) 32) readCString ;;
     gameId <- when (flag (edf_of o) 1) readUint64 ;;
     ret (mkSourceInfo (b_protocol b)
            (text_of (Some e) (b_serverName b)) (text_of (Some e) (b_mapName b))
            (text_of (Some e) (b_folder b)) (text_of (Some e) (b_game b))
            (b_appId b) (b_playerCount b) (b_maxPlayers b) (b_botCount b)
            (Str (lower_char e (b_serverType b)))
            (Str (normalize_platform (lower_char e (b_platform b))))
            (b_passwordProtected b) (b_vacEnabled b)
            (text_of (Some e) (b_version b))
            (edf_of o) ping port steamId
            (option_map fst stv) (option_map snd stv) keywords gameId))
    (wire_optional o)
    (decoded_info e ping b (edf_of o) o).
Proof.
  intros (Hport & Hsteam & Hstv & Hkw & Hgame).
  destruct (flags_of_optional o) as (F1 & F2 & F3 & F4 & F5).
  unfold wire_optional.
  rewrite <- (app_nil_r (opt_wire (field true 8) (o_gameId o))).
  eapply Parses_bind.
  { apply Parses_when_opt with (g := fun x => x); [exact F1|].
    intros x Hx. rewrite Hx in Hport. now apply Parses_readUint16. }
  eapply Parses_bind.
  { apply Parses_when_opt with (g := fun x => x); [exact F2|].
    intros x Hx. rewrite Hx in Hsteam. now apply Parses_readUint64. }
  eapply Parses_bind.
  { apply Parses_when_opt
      with (g := fun x : Z * Buffer => (fst x, text_of (Some e) (snd x)));
      [exact F3|].
    intros x Hx. rewrite Hx in Hstv. destruct Hstv as [Hp Hn].
    unfold stv_wire. eapply Parses_bind; [now apply Parses_readUint16|].
    rewrite <- (app_nil_r (cstr (snd x))).
    eapply Parses_bind; [now apply Parses_readCString|]. apply Parses_ret. }
  eapply Parses_bind.
  { apply Parses_when_opt with (g := text_of (Some e)); [exact F4|].
    intros x Hx. rewrite Hx in Hkw. now apply Parses_readCString. }
  eapply Parses_bind.
  { apply Parses_when_opt with (g := fun x => x); [exact F5|].
    intros x Hx. rewrite Hx in Hgame. now apply Parses_readUint64. }
  apply Parses_ret_eq. unfold decoded_info.
  destruct o as [[?|] [?|] [[? ?]|] [?|] [?|]]; reflexivity.
Qed.

(** The whole parser: it reads a response laid out as [wire_base],
    flags byte, [wire_optional]; cut short, it exhausts the buffer,
    except when cut just before the flags byte, where it returns the
    record with [edf = 0] and no optional field. *)
Lemma parseSource_spec (b : SourceBase) (o : SourceOptional) :
  valid_base b -> valid_optional o ->
  ParsesBut true (Some e) (InfoProtocol.parseSource ping)
            (wire_base b ++ edf_of o :: wire_optional o)
            (decoded_info e ping b (edf_of o) o)
            (length (wire_base b))
            (decoded_info e ping b 0 no_optional).
Proof.
  intros (Hn & Hm & Hf & Hg & Hv & Happ) Ho.
  enough (exists n, n = length (wire_base b) /\
                    ParsesBut true (Some e) (InfoProtocol.parseSource ping)
                              (wire_base b ++ edf_of o :: wire_optional o)
                              (decoded_info e ping b (edf_of o) o) n
                              (decoded_info e ping b 0 no_optional))
    as (n & -> & H); [exact H|].
  eexists. split; cycle 1.
  - unfold InfoProtocol.parseSource, wire_base. rewrite <- !app_assoc.
    eapply ParsesBut_bind; [apply Parses_readUint8|cbv beta].
    eapply ParsesBut_bind; [apply Parses_readCString; assumption|cbv beta].
    eapply ParsesBut_bind; [apply Parses_readCString; assumption|cbv beta].
    eapply ParsesBut_bind; [apply Parses_readCString; assumption|cbv beta].
    eapply ParsesBut_bind; [apply Parses_readCString; assumption|cbv beta].
    eapply ParsesBut_bind; [apply Parses_readUint16; assumption|cbv beta].
    eapply ParsesBut_bind; [apply Parses_readUint8|cbv beta].
    eapply ParsesBut_bind; [apply Parses_readUint8|cbv beta].
    eapply ParsesBut_bind; [apply Parses_readUint8|cbv beta].
    eapply ParsesBut_bind; [apply Parses_lower_char|cbv beta].
    eapply ParsesBut_bind; [apply Parses_lower_char|cbv beta zeta].
    eapply ParsesBut_bind; [apply Parses_readBool|cbv beta].
    eapply ParsesBut_bind; [apply Parses_readBool|cbv beta].
    eapply ParsesBut_bind; [apply Parses_readCString; assumption|cbv beta].
    apply ParsesBut_recover.
    + apply Parses_optional. assumption.
    + intros r rest _ _ _.
      change (flag 0 128) with false. change (flag 0 16) with false.
      change (flag 0 64) with false. change (flag 0 32) with false.
      change (flag 0 1) with false.
      cbn [when bind ret option_map length Z.of_nat].
      now rewrite adv_0.
  - unfold wire_base. rewrite !length_app. cbn [length]. lia.
Qed.

End ParseSource.

(* ===================================================================== *)
(** ** Binary codec: failed reads                                         *)
(* ===================================================================== *)

(** C10.  A [read(size)] that throws leaves the reader as it was: the
    exception is a [BufferExhaustedError], the reader after the call is the
    reader before it, position included, and any later [read] or [peek]
    sees the same bytes. *)
Theorem C10_failed_read_is_atomic (r r' : ByteReader) (size : Z) (e : JSError) :
  read size r = (Throw e, r') ->
  instanceof_BufferExhaustedError e = true /\
  r' = r /\
  position r' = position r /\
  (forall n, read n r' = read n r) /\
  (forall n, peek n r' = peek n r).
Proof.
  unfold read. intros H.
  destruct (position r + size >? Z.of_nat (length (buffer r)));
    [|discriminate].
  injection H as <- <-. repeat split; reflexivity.
Qed.

Lemma C10_witness :
  let r := new_ByteReader [1; 2] true None in
  instanceof_BufferExhaustedError
    (BufferExhaustedError "Cannot read 3 bytes from position 0") = true /\
  r = r /\
  position r = position r /\
  (forall n, read n r = read n r) /\
  (forall n, peek n r = peek n r).
Proof.
  exact (@C10_failed_read_is_atomic
           (new_ByteReader [1; 2] true None) (new_ByteReader [1; 2] true None) 3
           (BufferExhaustedError "Cannot read 3 bytes from position 0")
           eq_refl).
Defined.

(* ===================================================================== *)
(** ** Query codecs: the extra-data flags of the modern info response     *)
(* ===================================================================== *)

Lemma strict_prefix_same_length (p l t : list Z) :
  strict_prefix p (l ++ t) -> length p = length l -> p = l.
Proof.
  intros (q & _ & E) Hlen.
  apply (f_equal (firstn (length l))) in E.
  rewrite firstn_app, firstn_all, Nat.sub_diag in E. cbn [firstn] in E.
  rewrite app_nil_r in E.
  rewrite <- Hlen, firstn_app, firstn_all, Nat.sub_diag in E. cbn [firstn] in E.
  now rewrite app_nil_r in E.
Qed.

(** C6.  For every subset of the five optional fields ([o] gives each as
    present or absent), a modern info response whose flags byte has exactly
    the bits of the present fields and whose tail holds exactly those
    fields, in the order 0x80, 0x10, 0x40, 0x20, 0x01, parses to a record
    in which exactly the present fields are populated, with their
    values. *)
Theorem C6_flags_select_optional_fields
        (e : BufferEncoding) (ping : Q) (b : SourceBase) (o : SourceOptional) :
  valid_base b -> valid_optional o ->
  let response := wire_base b ++ edf_of o :: wire_optional o in
  exists info r',
    InfoProtocol.parseSource ping (new_ByteReader response true (Some e))
    = (Ok info, r') /\
    position r' = Z.of_nat (length response) /\
    info = decoded_info e ping b (edf_of o) o /\
    edf info = edf_of o /\
    port info = o_port o /\
    steamId info = o_steamId o /\
    stvPort info = option_map fst (o_stv o) /\
    stvName info = option_map (fun x => text_of (Some e) (snd x)) (o_stv o) /\
    keywords info = option_map (text_of (Some e)) (o_keywords o) /\
    gameId info = o_gameId o.
Proof.
  intros Hb Ho response.
  destruct (parseSource_spec e ping Hb Ho) as [H _].
  exists (decoded_info e ping b (edf_of o) o).
  eexists. split.
  - apply (H (new_ByteReader response true (Some e)) []); try reflexivity.
    rewrite app_nil_r. apply At_new.
  - repeat split; reflexivity.
Qed.

Lemma C6_witness :
  let response :=
    wire_base example_base
      ++ edf_of example_optional :: wire_optional example_optional in
  exists info r',
    InfoProtocol.parseSource 0 (new_ByteReader response true (Some utf8))
    = (Ok info, r') /\
    position r' = Z.of_nat (length response) /\
    info = decoded_info utf8 0 example_base (edf_of example_optional)
                        example_optional /\
    edf info = 209 /\
    port info = Some 27015 /\
    steamId info = Some 76561198000000000 /\
    stvPort info = Some 27020 /\
    stvName info = Some (Str (lit "GOTV")) /\
    keywords info = None /\
    gameId info = Some 730.
Proof.
  apply (@C6_flags_select_optional_fields utf8 0 example_base example_optional).
  - unfold valid_base, cstring_bytes, example_base; cbn.
    repeat split; try lia; repeat constructor; discriminate.
  - unfold valid_optional, cstring_bytes, example_optional; cbn.
    repeat split; try lia; repeat constructor; discriminate.
Defined.

(** C7.  A modern info response cut just before the flags byte parses: the
    record has [edf = 0] and no optional field.  That is the only cut that
    is recovered: a response cut short anywhere else, before or after that
    point, makes the parser throw the [BufferExhaustedError]. *)
Theorem C7_missing_flags_byte_is_zero
        (e : BufferEncoding) (ping : Q) (b : SourceBase) :
  valid_base b ->
  (exists info r',
      InfoProtocol.parseSource ping (new_ByteReader (wire_base b) true (Some e))
      = (Ok info, r') /\
      info = decoded_info e ping b 0 no_optional /\
      edf info = 0 /\
      port info = None /\ steamId info = None /\ stvPort info = None /\
      stvName info = None /\ keywords info = None /\ gameId info = None) /\
  (forall (o : SourceOptional) (p : Buffer),
      valid_optional o ->
      strict_prefix p (wire_base b ++ edf_of o :: wire_optional o) ->
      p <> wire_base b ->
      exists msg r',
        InfoProtocol.parseSource ping (new_ByteReader p true (Some e))
        = (Throw (BufferExhaustedError msg), r')).
Proof.
  intros Hb. split.
  - assert (Ho : valid_optional no_optional) by (repeat split).
    destruct (parseSource_spec e ping Hb Ho) as [_ H].
    destruct (H (wire_base b)) as [Hall _].
    { exists (edf_of no_optional :: wire_optional no_optional).
      split; [discriminate|reflexivity]. }
    exists (decoded_info e ping b 0 no_optional). eexists. split.
    + apply (Hall eq_refl); try reflexivity. apply At_new.
    + repeat split; reflexivity.
  - intros o p Ho Hp Hne.
    destruct (parseSource_spec e ping Hb Ho) as [_ H].
    destruct (H p Hp) as [_ Hex].
    apply Hex; try reflexivity; [|apply At_new].
    intros Hlen. apply Hne. now apply strict_prefix_same_length with (2 := Hlen) in Hp.
Qed.

Lemma C7_witness :
  (exists info r',
      InfoProtocol.parseSource 0
        (new_ByteReader (wire_base example_base) true (Some utf8))
      = (Ok info, r') /\
      info = decoded_info utf8 0 example_base 0 no_optional /\
      edf info = 0 /\
      port info = None /\ steamId info = None /\ stvPort info = None /\
      stvName info = None /\ keywords info = None /\ gameId info = None) /\
  (forall (o : SourceOptional) (p : Buffer),
      valid_optional o ->
      strict_prefix p (wire_base example_base ++ edf_of o :: wire_optional o) ->
      p <> wire_base example_base ->
      exists msg r',
        InfoProtocol.parseSource 0 (new_ByteReader p true (Some utf8))
        = (Throw (BufferExhaustedError msg), r')).
Proof.
  apply (@C7_missing_flags_byte_is_zero utf8 0 example_base).
  unfold valid_base, cstring_bytes, example_base; cbn.
  repeat split; try lia; repeat constructor; discriminate.
Defined.

(* ===================================================================== *)
(** ** Fragment codec                                                     *)
(* ===================================================================== *)

Section FragmentFacts.

Variable inflateSync : Buffer -> Result Buffer.

Lemma readUIntLE_exact (n : nat) (l : Buffer) :
  length l = n -> readUIntLE n l 0 = Ok (le_value l).
Proof. intros H. unfold readUIntLE. now rewrite bytesAt_exact. Qed.

Lemma Reads_readUint16_raw enc (l : Buffer) :
  length l = 2%nat -> Reads true enc readUint16 l (le_value l).
Proof.
  intros H.
  apply (@Parses_fixed true enc Z 2
           (fun l data => if l then readUInt16LE data 0 else readUInt16BE data 0));
    [assumption|]. now apply readUIntLE_exact.
Qed.

Lemma Reads_readUint32_raw enc (l : Buffer) :
  length l = 4%nat -> Reads true enc readUint32 l (le_value l).
Proof.
  intros H.
  apply (@Parses_fixed true enc Z 4
           (fun l data => if l then readUInt32LE data 0 else readUInt32BE data 0));
    [assumption|]. now apply readUIntLE_exact.
Qed.

Lemma readUint16_raw_at (r : ByteReader) (l rest : Buffer) :
  At r (l ++ rest) -> length l = 2%nat -> littleEndian r = true ->
  readUint16 r = (Ok (le_value l), adv r 2).
Proof.
  intros Hat Hl Hle.
  rewrite (@Reads_readUint16_raw (encoding r) l Hl r rest Hle eq_refl Hat).
  now rewrite Hl.
Qed.

Lemma readUint32_raw_at (r : ByteReader) (l rest : Buffer) :
  At r (l ++ rest) -> length l = 4%nat -> littleEndian r = true ->
  readUint32 r = (Ok (le_value l), adv r 4).
Proof.
  intros Hat Hl Hle.
  rewrite (@Reads_readUint32_raw (encoding r) l Hl r rest Hle eq_refl Hat).
  now rewrite Hl.
Qed.

Lemma peek_rest (r : ByteReader) (l : list Z) :
  At r l -> peek None r = (Ok l, r).
Proof.
  intros [Hp Hs]. unfold peek. now rewrite subarray_to_end, Hs by lia.
Qed.

(** A datagram as its header fields and the bytes after them. *)
Lemma decodeFragment_plain (m4 t2 rest : Buffer) (c i : Z) :
  length m4 = 4%nat -> length t2 = 2%nat ->
  Z.land (le_value m4) (Z.shiftl 1 15) = 0 ->
  decodeFragment inflateSync (m4 ++ [c] ++ [i] ++ t2 ++ rest)
  = Ok (mkA2SFragment (le_value m4) c i (le_value t2) 0 0 rest).
Proof.
  intros Hm Ht Hbit. unfold decodeFragment, decodeFragment_body.
  pose proof (At_new (m4 ++ [c] ++ [i] ++ t2 ++ rest) true (Some utf8)) as Hat.
  set (r := new_ByteReader _ _ _) in *.
  unfold bind at 1. rewrite (readUint32_raw_at _ _ Hat Hm eq_refl).
  apply At_adv in Hat. rewrite Hm in Hat.
  cbn [Z.of_nat Pos.of_succ_nat Pos.succ] in Hat.
  unfold bind at 1. rewrite (readUint8_at Hat). apply (At_adv [c]) in Hat.
  change (Z.of_nat (length [c])) with 1 in Hat.
  unfold bind at 1. rewrite (readUint8_at Hat). apply (At_adv [i]) in Hat.
  change (Z.of_nat (length [i])) with 1 in Hat.
  unfold bind at 1.
  rewrite (readUint16_raw_at _ _ Hat Ht eq_refl).
  apply At_adv in Hat. rewrite Ht in Hat.
  cbn [Z.of_nat Pos.of_succ_nat Pos.succ] in Hat.
  unfold isCompressed, new_A2SFragment. cbn [messageId].
  rewrite Hbit. cbn [Z.eqb negb].
  unfold bind. now rewrite (peek_rest Hat).
Qed.

Lemma decodeFragment_compressed (m4 t2 d4 k4 rest : Buffer) (c i : Z) :
  length m4 = 4%nat -> length t2 = 2%nat ->
  length d4 = 4%nat -> length k4 = 4%nat ->
  Z.land (le_value m4) (Z.shiftl 1 15) <> 0 ->
  decodeFragment inflateSync (m4 ++ [c] ++ [i] ++ t2 ++ d4 ++ k4 ++ rest)
  = Ok (mkA2SFragment (le_value m4) c i (le_value t2)
                      (le_value d4) (le_value k4)
                      match inflateSync rest with
                      | Ok inflated => inflated
                      | Throw _ => rest
                      end).
Proof.
  intros Hm Ht Hd Hk Hbit. unfold decodeFragment, decodeFragment_body.
  pose proof (At_new (m4 ++ [c] ++ [i] ++ t2 ++ d4 ++ k4 ++ rest)
                     true (Some utf8)) as Hat.
  set (r := new_ByteReader _ _ _) in *.
  unfold bind at 1. rewrite (readUint32_raw_at _ _ Hat Hm eq_refl).
  apply At_adv in Hat. rewrite Hm in Hat.
  cbn [Z.of_nat Pos.of_succ_nat Pos.succ] in Hat.
  unfold bind at 1. rewrite (readUint8_at Hat). apply (At_adv [c]) in Hat.
  change (Z.of_nat (length [c])) with 1 in Hat.
  unfold bind at 1. rewrite (readUint8_at Hat). apply (At_adv [i]) in Hat.
  change (Z.of_nat (length [i])) with 1 in Hat.
  unfold bind at 1.
  rewrite (readUint16_raw_at _ _ Hat Ht eq_refl).
  apply At_adv in Hat. rewrite Ht in Hat.
  cbn [Z.of_nat Pos.of_succ_nat Pos.succ] in Hat.
  unfold isCompressed, new_A2SFragment. cbn [messageId].
  destruct (Z.eqb_spec (Z.land (le_value m4) (Z.shiftl 1 15)) 0);
    [contradiction|]. cbn [negb].
  unfold bind at 1.
  rewrite (readUint32_raw_at _ _ Hat Hd eq_refl).
  apply At_adv in Hat. rewrite Hd in Hat.
  cbn [Z.of_nat Pos.of_succ_nat Pos.succ] in Hat.
  unfold bind at 1.
  rewrite (readUint32_raw_at _ _ Hat Hk eq_refl).
  apply At_adv in Hat. rewrite Hk in Hat.
  cbn [Z.of_nat Pos.of_succ_nat Pos.succ] in Hat.
  unfold bind. now rewrite (peek_rest Hat).
Qed.

End FragmentFacts.

(** C8.  A fragment datagram (at least the sixteen bytes of a compressed
    header) whose message id has bit 15 set and whose remaining bytes
    [inflateSync] refuses decodes without an exception, to the fragment
    whose payload is those remaining bytes as they came. *)
Theorem C8_decompression_failure_keeps_raw_bytes
        (inflateSync : Buffer -> Result Buffer) (data : Buffer) (e : JSError) :
  (16 <= length data)%nat ->
  Z.land (le_value (firstn 4 data)) (Z.shiftl 1 15) <> 0 ->
  inflateSync (skipn 16 data) = Throw e ->
  exists f,
    decodeFragment inflateSync data = Ok f /\
    payload f = skipn 16 data /\
    isCompressed f = true /\
    messageId f = le_value (firstn 4 data).
Proof.
  intros Hlen Hbit Hfail.
  do 16 (destruct data as [|? data]; [cbn in Hlen; lia|]).
  cbn [firstn skipn] in *.
  match goal with
  | |- context [decodeFragment _ (?a :: ?b :: ?c :: ?d :: ?cnt :: ?id :: ?t0 :: ?t1
                                    :: ?d0 :: ?d1 :: ?d2 :: ?d3
                                    :: ?k0 :: ?k1 :: ?k2 :: ?k3 :: data)] =>
      pose proof (@decodeFragment_compressed inflateSync
                    [a; b; c; d] [t0; t1] [d0; d1; d2; d3] [k0; k1; k2; k3]
                    data cnt id eq_refl eq_refl eq_refl eq_refl Hbit) as E
  end.
  cbn [app] in E. rewrite Hfail in E.
  eexists. split; [exact E|].
  repeat split. unfold isCompressed. cbn [messageId].
  apply negb_true_iff, Z.eqb_neq. exact Hbit.
Qed.

Lemma C8_witness :
  let data := [123; 128; 0; 0; 4; 2; 176; 4; 0; 2; 0; 0; 120; 86; 52; 18]
                ++ lit "invalid compressed data" in
  exists f,
    decodeFragment (fun _ => Throw (Error "Decompression failed")) data = Ok f /\
    payload f = lit "invalid compressed data" /\
    isCompressed f = true /\
    messageId f = 32891.
Proof.
  apply (@C8_decompression_failure_keeps_raw_bytes
           (fun _ => Throw (Error "Decompression failed"))
           ([123; 128; 0; 0; 4; 2; 176; 4; 0; 2; 0; 0; 120; 86; 52; 18]
              ++ lit "invalid compressed data")
           (Error "Decompression failed")).
  - cbn. lia.
  - vm_compute. discriminate.
  - reflexivity.
Defined.

(* ===================================================================== *)
(** ** Fragment assembler                                                 *)
(* ===================================================================== *)

Section SortFacts.

Variable A : Type.
Variable key : A -> Z.


Lemma sort_insert_perm (x : A) (l : list A) :
  Permutation (sort_insert (key_compare key) x l) (x :: l).
Proof.
  induction l as [|y l IH]; cbn; [reflexivity|].
  destruct (key_compare key x y <=? 0); [reflexivity|].
  rewrite IH. apply perm_swap.
Qed.

Lemma Array_sort_perm (l : list A) : Permutation (Array_sort (key_compare key) l) l.
Proof.
  induction l as [|x l IH]; cbn; [reflexivity|].
  rewrite sort_insert_perm. now constructor.
Qed.

Lemma sort_insert_sorted (x : A) (l : list A) :
  StronglySorted (key_le key) l -> StronglySorted (key_le key) (sort_insert (key_compare key) x l).
Proof.
  induction 1 as [|y l Hs IH Hy]; cbn.
  - repeat constructor.
  - unfold key_compare at 1. destruct (Z.leb_spec (key x - key y) 0).
    + constructor; [now constructor|].
      constructor; [unfold key_le; lia|].
      eapply Forall_impl; [|exact Hy]. unfold key_le. intros; lia.
    + constructor; [assumption|].
      eapply Permutation_Forall; [symmetry; apply sort_insert_perm|].
      constructor; [unfold key_le; lia|assumption].
Qed.

Lemma Array_sort_sorted (l : list A) : StronglySorted (key_le key) (Array_sort (key_compare key) l).
Proof.
  induction l as [|x l IH]; cbn; [constructor|].
  now apply sort_insert_sorted.
Qed.

Lemma sorted_NoDup_strict (l : list A) :
  StronglySorted (key_le key) l -> NoDup (map key l) -> StronglySorted (key_lt key) l.
Proof.
  induction 1 as [|x l Hs IH Hx]; intros Hnd; [constructor|].
  cbn in Hnd. inversion Hnd as [|? ? Hnin Hnd']; subst.
  constructor; [auto|].
  rewrite Forall_forall in Hx |- *. intros y Hy.
  specialize (Hx y Hy). unfold key_le in Hx. unfold key_lt.
  assert (key x <> key y); [|lia].
  intros E. apply Hnin. rewrite E. now apply in_map.
Qed.

Lemma strict_sorted_unique (l1 l2 : list A) :
  StronglySorted (key_lt key) l1 -> StronglySorted (key_lt key) l2 -> Permutation l1 l2 ->
  l1 = l2.
Proof.
  intros H1. revert l2.
  induction H1 as [|a t1 Ht1 IH Ha]; intros l2 H2 Hp.
  - now apply Permutation_nil in Hp.
  - destruct H2 as [|b t2 Ht2 Hb].
    + apply Permutation_sym, Permutation_nil in Hp. discriminate.
    + assert (a = b) as ->.
      { assert (Hin_a : In a (b :: t2))
          by (eapply Permutation_in; [exact Hp|now left]).
        assert (Hin_b : In b (a :: t1))
          by (eapply Permutation_in; [symmetry; exact Hp|now left]).
        destruct Hin_a as [->|Hat2]; [reflexivity|].
        destruct Hin_b as [->|Hbt1]; [reflexivity|].
        rewrite Forall_forall in Ha, Hb.
        specialize (Ha b Hbt1). specialize (Hb a Hat2).
        unfold key_lt in *. lia. }
      f_equal. apply IH; [assumption|].
      now apply Permutation_cons_inv in Hp.
Qed.

(** Distinct keys: the sorted order does not depend on the order of
    arrival. *)
Lemma Array_sort_order_independent (l l' : list A) :
  NoDup (map key l) -> Permutation l' l ->
  Array_sort (key_compare key) l' = Array_sort (key_compare key) l.
Proof.
  intros Hnd Hp. apply strict_sorted_unique.
  - apply sorted_NoDup_strict; [apply Array_sort_sorted|].
    eapply Permutation_NoDup; [|exact Hnd].
    apply Permutation_map. symmetry.
    etransitivity; [apply Array_sort_perm|exact Hp].
  - apply sorted_NoDup_strict; [apply Array_sort_sorted|].
    eapply Permutation_NoDup; [|exact Hnd].
    apply Permutation_map. symmetry. apply Array_sort_perm.
  - rewrite !Array_sort_perm. exact Hp.
Qed.

End SortFacts.

Section AssemblerFacts.

Lemma handleFragment_pending (f : A2SFragment) (s : A2SSocket) :
  Z.of_nat (length (fragmentBuffer s)) + 1 < fragmentCount f ->
  handleFragment f s = (None, set_fragmentBuffer s (fragmentBuffer s ++ [f])).
Proof.
  intros H. unfold handleFragment.
  rewrite length_app. cbn [length].
  destruct (Z.geb_spec (Z.of_nat (length (fragmentBuffer s) + 1))
                       (fragmentCount f)); [lia|reflexivity].
Qed.

Lemma handleFragment_complete (f : A2SFragment) (s : A2SSocket) :
  fragmentCount f <= Z.of_nat (length (fragmentBuffer s)) + 1 ->
  handleFragment f s
  = (Some (EmitData
             (assembled (Array_sort (key_compare fragmentId)
                                    (fragmentBuffer s ++ [f])))),
     set_fragmentBuffer s []).
Proof.
  intros H. unfold handleFragment.
  rewrite length_app. cbn [length].
  destruct (Z.geb_spec (Z.of_nat (length (fragmentBuffer s) + 1))
                       (fragmentCount f)); [|lia].
  unfold assembled. now rewrite strip_simple_header_spec.
Qed.

Lemma feed_pending (l : list A2SFragment) :
  forall s,
    (forall f, In f l ->
               Z.of_nat (length (fragmentBuffer s) + length l) < fragmentCount f) ->
    feed l s = (repeat None (length l),
                set_fragmentBuffer s (fragmentBuffer s ++ l)).
Proof.
  induction l as [|f l IH]; intros s H; cbn [feed repeat length].
  - rewrite app_nil_r. now destruct s.
  - rewrite handleFragment_pending.
    2:{ specialize (H f (or_introl eq_refl)). cbn [length] in H. lia. }
    rewrite IH.
    + cbn [set_fragmentBuffer fragmentBuffer closed sent].
      now rewrite <- app_assoc.
    + intros g Hg. specialize (H g (or_intror Hg)).
      cbn [set_fragmentBuffer fragmentBuffer length] in *.
      rewrite length_app. cbn [length] in *. lia.
Qed.

Lemma feed_app (l1 l2 : list A2SFragment) (s : A2SSocket) :
  feed (l1 ++ l2) s
  = (fst (feed l1 s) ++ fst (feed l2 (snd (feed l1 s))),
     snd (feed l2 (snd (feed l1 s)))).
Proof.
  revert s. induction l1 as [|f l1 IH]; intros s; cbn [app feed fst snd].
  - now destruct (feed l2 s).
  - destruct (handleFragment f s) as [out s']. rewrite IH.
    destruct (feed l1 s') as [o1 s1]. cbn [fst snd].
    now destruct (feed l2 s1).
Qed.

End AssemblerFacts.

Section DatagramFacts.

Variable inflateSync : Buffer -> Result Buffer.

Lemma handleMultiPacket_decoded (data : Buffer) (f : A2SFragment) (s : A2SSocket) :
  decodeFragment inflateSync data = Ok f ->
  handleMultiPacket inflateSync data s
  = (Ok (fst (handleFragment f s)), snd (handleFragment f s)).
Proof.
  intros E. unfold handleMultiPacket. rewrite E.
  now destruct (handleFragment f s).
Qed.

Lemma feed_datagrams_decoded (wire : A2SFragment -> Buffer) (l : list A2SFragment) :
  (forall f, In f l -> decodeFragment inflateSync (wire f) = Ok f) ->
  forall s,
    feed_datagrams inflateSync (map wire l) s
    = (map Ok (fst (feed l s)), snd (feed l s)).
Proof.
  induction l as [|f l IH]; intros H s; cbn [map feed_datagrams feed];
    [reflexivity|].
  rewrite (@handleMultiPacket_decoded (wire f) f s) by (apply H; now left).
  destruct (handleFragment f s) as [out s']. cbn [fst snd].
  rewrite IH by (intros g Hg; apply H; now right).
  now destruct (feed l s').
Qed.

(** An uncompressed fragment with fields of the widths of the header is
    what its datagram decodes to. *)
Lemma decodeFragment_fragment_wire (f : A2SFragment) :
  0 <= messageId f < 2 ^ 32 -> 0 <= mtu f < 2 ^ 16 ->
  isCompressed f = false -> decompressedSize f = 0 -> crc f = 0 ->
  decodeFragment inflateSync (fragment_wire f) = Ok f.
Proof.
  intros Hm Ht Hc Hd Hk. unfold fragment_wire.
  rewrite decodeFragment_plain.
  - rewrite !le_value_unsigned by assumption.
    destruct f; cbn in *. now subst.
  - apply le_bytes_length.
  - apply le_bytes_length.
  - rewrite le_value_unsigned by assumption.
    unfold isCompressed in Hc. apply negb_false_iff in Hc.
    now apply Z.eqb_eq in Hc.
Qed.

End DatagramFacts.

(** C3.  The fragments of one logical message (they declare the same
    [fragmentCount], which is their number, and have distinct
    [fragmentId]s), each delivered as the datagram [wire f] that decodes to
    it, in any order, to an assembler with nothing pending: no datagram but
    the last produces a message, and the last one produces the payloads
    concatenated in ascending [fragmentId] order, a leading simple header
    stripped.  The order [ordered] is fixed by the fragments alone, so
    every arrival order gives the same message. *)
Theorem C3_reassembly_count_gated_order_independent
        (inflateSync : Buffer -> Result Buffer) (wire : A2SFragment -> Buffer)
        (fragments : list A2SFragment) (s : A2SSocket) :
  fragmentBuffer s = [] ->
  fragments <> [] ->
  (forall f, In f fragments -> decodeFragment inflateSync (wire f) = Ok f) ->
  (forall f, In f fragments -> fragmentCount f = Z.of_nat (length fragments)) ->
  NoDup (map fragmentId fragments) ->
  exists ordered,
    Permutation ordered fragments /\
    StronglySorted (key_lt fragmentId) ordered /\
    forall arrival,
      Permutation arrival fragments ->
      fst (feed_datagrams inflateSync (map wire arrival) s)
      = repeat (Ok None) (length fragments - 1)
          ++ [Ok (Some (EmitData (assembled ordered)))] /\
      fragmentBuffer (snd (feed_datagrams inflateSync (map wire arrival) s)) = [].
Proof.
  intros Hs Hne Hwire Hcount Hnd.
  exists (Array_sort (key_compare fragmentId) fragments).
  split; [apply Array_sort_perm|].
  split; [apply sorted_NoDup_strict; [apply Array_sort_sorted|];
          eapply Permutation_NoDup; [|exact Hnd];
          apply Permutation_map; symmetry; apply Array_sort_perm|].
  intros arrival Hp.
  rewrite feed_datagrams_decoded
    by (intros f Hf; apply Hwire; eapply Permutation_in; [exact Hp|exact Hf]).
  cbn [fst snd].
  assert (Hlen : length arrival = length fragments)
    by now apply Permutation_length.
  destruct (@exists_last _ arrival) as (init & last & ->).
  { intros ->. apply Permutation_nil in Hp. now subst. }
  rewrite length_app in Hlen. cbn [length] in Hlen.
  rewrite feed_app. rewrite feed_pending.
  2:{ intros f Hf. rewrite Hs. cbn [length].
      rewrite (Hcount f); [lia|].
      eapply Permutation_in; [exact Hp|]. apply in_or_app. now left. }
  cbn [fst snd feed].
  rewrite handleFragment_complete.
  2:{ cbn [set_fragmentBuffer fragmentBuffer]. rewrite Hs. cbn [app].
      rewrite (Hcount last); [lia|].
      eapply Permutation_in; [exact Hp|]. apply in_or_app. right. now left. }
  cbn [fst snd set_fragmentBuffer fragmentBuffer]. rewrite Hs. cbn [app].
  rewrite (Array_sort_order_independent fragmentId Hnd Hp).
  split; [|reflexivity].
  rewrite map_app, map_repeat. cbn [map].
  do 2 f_equal. lia.
Qed.

Lemma C3_witness :
  let f0 := mkA2SFragment 123 2 0 1200 0 0 (lit "first") in
  let f1 := mkA2SFragment 123 2 1 1200 0 0 (lit "second") in
  exists ordered,
    Permutation ordered [f0; f1] /\
    StronglySorted (key_lt fragmentId) ordered /\
    forall arrival,
      Permutation arrival [f0; f1] ->
      fst (feed_datagrams no_inflate (map fragment_wire arrival) new_A2SSocket)
      = repeat (Ok None) (length [f0; f1] - 1)
          ++ [Ok (Some (EmitData (assembled ordered)))] /\
      fragmentBuffer
        (snd (feed_datagrams no_inflate (map fragment_wire arrival) new_A2SSocket))
      = [].
Proof.
  apply (@C3_reassembly_count_gated_order_independent
           no_inflate fragment_wire
           [mkA2SFragment 123 2 0 1200 0 0 (lit "first");
            mkA2SFragment 123 2 1 1200 0 0 (lit "second")]
           new_A2SSocket).
  - reflexivity.
  - discriminate.
  - intros f [<-|[<-|[]]]; reflexivity.
  - intros f [<-|[<-|[]]]; reflexivity.
  - cbn. repeat constructor; cbn; intuition discriminate.
Defined.

(** The two arrival orders of the scenario give the same message. *)
Example reassembly_both_orders :
  let f0 := mkA2SFragment 123 2 0 1200 0 0 (lit "first") in
  let f1 := mkA2SFragment 123 2 1 1200 0 0 (lit "second") in
  fst (feed_datagrams no_inflate (map fragment_wire [f0; f1]) new_A2SSocket)
  = [Ok None; Ok (Some (EmitData (lit "firstsecond")))] /\
  fst (feed_datagrams no_inflate (map fragment_wire [f1; f0]) new_A2SSocket)
  = [Ok None; Ok (Some (EmitData (lit "firstsecond")))].
Proof. split; reflexivity. Qed.

(** What the sort does to the payloads depends on the payloads and the
    fragment ids alone. *)
Lemma Array_sort_payloads (l1 l2 : list A2SFragment) :
  map payload l1 = map payload l2 ->
  map fragmentId l1 = map fragmentId l2 ->
  map payload (Array_sort (key_compare fragmentId) l1)
  = map payload (Array_sort (key_compare fragmentId) l2) /\
  map fragmentId (Array_sort (key_compare fragmentId) l1)
  = map fragmentId (Array_sort (key_compare fragmentId) l2).
Proof.
  revert l2. induction l1 as [|x l1 IH]; intros [|y l2] Hp Hi; try discriminate;
    [split; reflexivity|].
  cbn in Hp, Hi. injection Hp as Hpx Hp. injection Hi as Hix Hi.
  destruct (IH l2 Hp Hi) as [IHp IHi]. cbn [Array_sort].
  revert IHp IHi.
  generalize (Array_sort (key_compare fragmentId) l1).
  generalize (Array_sort (key_compare fragmentId) l2).
  intros t2 t1. revert t2.
  induction t1 as [|a t1 IHt]; intros [|b t2] Ep Ei; try discriminate.
  - cbn. now rewrite Hpx, Hix.
  - cbn in Ep, Ei. injection Ep as Epa Ep. injection Ei as Eia Ei.
    cbn [sort_insert].
    assert (Hc : key_compare fragmentId x a = key_compare fragmentId y b)
      by (unfold key_compare; congruence).
    rewrite Hc.
    destruct (key_compare fragmentId y b <=? 0).
    + cbn. now rewrite Hpx, Hix, Epa, Eia, Ep, Ei.
    + destruct (IHt t2 Ep Ei) as [E1 E2]. cbn.
      now rewrite Epa, Eia, E1, E2.
Qed.

(** C4, as the code has it.  The assembler never looks at [messageId]:
    every incoming fragment is pushed onto the pending set; while the set
    is shorter than the [fragmentCount] the incoming fragment declares,
    nothing is produced; otherwise all pending fragments, the incoming one
    included, are assembled by [fragmentId] and the set is cleared.  The
    outcome is the same whatever message id the fragment carries. *)
Theorem C4_fragments_are_appended_whatever_their_message_id
        (f : A2SFragment) (s : A2SSocket) :
  handleFragment f s
  = (if fragmentCount f <=? Z.of_nat (length (fragmentBuffer s)) + 1
     then (Some (EmitData
                   (assembled (Array_sort (key_compare fragmentId)
                                          (fragmentBuffer s ++ [f])))),
           set_fragmentBuffer s [])
     else (None, set_fragmentBuffer s (fragmentBuffer s ++ [f]))) /\
  forall m,
    fst (handleFragment (with_messageId f m) s) = fst (handleFragment f s) /\
    map payload (fragmentBuffer (snd (handleFragment (with_messageId f m) s)))
    = map payload (fragmentBuffer (snd (handleFragment f s))).
Proof.
  assert (Hcases : forall g,
             handleFragment g s
             = (if fragmentCount g <=? Z.of_nat (length (fragmentBuffer s)) + 1
                then (Some (EmitData
                              (assembled (Array_sort (key_compare fragmentId)
                                                     (fragmentBuffer s ++ [g])))),
                      set_fragmentBuffer s [])
                else (None, set_fragmentBuffer s (fragmentBuffer s ++ [g])))).
  { intros g.
    destruct (Z.leb_spec (fragmentCount g)
                         (Z.of_nat (length (fragmentBuffer s)) + 1)).
    - now apply handleFragment_complete.
    - apply handleFragment_pending. lia. }
  split; [apply Hcases|].
  intros m. rewrite !Hcases. cbn [with_messageId fragmentCount].
  destruct (fragmentCount f <=? Z.of_nat (length (fragmentBuffer s)) + 1);
    cbn [fst snd set_fragmentBuffer fragmentBuffer].
  - split; [|reflexivity]. unfold assembled.
    destruct (@Array_sort_payloads
                (fragmentBuffer s ++ [with_messageId f m])
                (fragmentBuffer s ++ [f])) as [E _];
      [now rewrite !map_app..|].
    now rewrite E.
  - split; [reflexivity|]. now rewrite !map_app.
Qed.

(** C4 as stated fails.  With a fragment of message 7 pending, a fragment
    of message 9 is not discarded: when it declares two fragments it
    completes the pending set, and the two payloads are assembled into one
    message; when it declares three it joins the pending set. *)
Lemma C4_counterexample :
  let pending := mkA2SFragment 7 2 0 1200 0 0 (lit "old") in
  let stray := mkA2SFragment 9 2 1 1200 0 0 (lit "new") in
  let stray3 := mkA2SFragment 9 3 1 1200 0 0 (lit "new") in
  let s := mkA2SSocket false [pending] [] in
  messageId stray <> messageId pending /\
  handleFragment stray s
  = (Some (EmitData (lit "oldnew")), mkA2SSocket false [] []) /\
  handleMultiPacket no_inflate (fragment_wire stray) s
  = (Ok (Some (EmitData (lit "oldnew"))), mkA2SSocket false [] []) /\
  handleFragment stray3 s
  = (None, mkA2SSocket false [pending; stray3] []) /\
  handleMultiPacket no_inflate (fragment_wire stray3) s
  = (Ok None, mkA2SSocket false [pending; stray3] []).
Proof. repeat split. discriminate. Qed.

(* ===================================================================== *)
(** ** Client: the challenge handshake                                    *)
(* ===================================================================== *)

Lemma le_value_bound (l : Buffer) :
  is_bytes l -> 0 <= le_value l < 2 ^ (8 * Z.of_nat (length l)).
Proof.
  induction 1 as [|b l Hb Hl IH]; [cbn; lia|].
  cbn [le_value length]. rewrite Z.shiftl_mul_pow2 by lia.
  replace (8 * Z.of_nat (S (length l))) with (8 * Z.of_nat (length l) + 8) by lia.
  rewrite Z.pow_add_r by lia. unfold is_byte in Hb. lia.
Qed.

Section ClientFacts.

Variable inflateSync : Buffer -> Result Buffer.
Variable DEFAULT_RETRIES : nat.

Lemma handleMessage_simple (data : Buffer) (s : A2SSocket) :
  handleMessage inflateSync (HEADER_SIMPLE ++ data) s
  = (Ok (Some (EmitData data)), s).
Proof.
  unfold handleMessage.
  destruct (Z.ltb_spec (Z.of_nat (length (HEADER_SIMPLE ++ data))) 4) as [H|_].
  { rewrite length_app in H. cbn [length HEADER_SIMPLE] in H. lia. }
  rewrite subarray_within
    by (rewrite ?length_app; cbn [length HEADER_SIMPLE]; lia).
  cbn [Z.to_nat Z.sub Z.opp Z.add skipn firstn HEADER_SIMPLE app Pos.to_nat
       Pos.iter_op Nat.add].
  change (Buffer_equals [255; 255; 255; 255] [255; 255; 255; 255]) with true.
  cbv iota. unfold subarray_from.
  change (255 :: 255 :: 255 :: 255 :: data) with (HEADER_SIMPLE ++ data).
  rewrite subarray_to_end by lia. reflexivity.
Qed.

(** No datagram closes the transport or makes it send. *)
Lemma handleMessage_keeps (packet : Buffer) (s : A2SSocket) :
  closed (snd (handleMessage inflateSync packet s)) = closed s /\
  sent (snd (handleMessage inflateSync packet s)) = sent s.
Proof.
  unfold handleMessage, handleMultiPacket, handleFragment.
  repeat match goal with
         | |- context [if ?c then _ else _] => destruct c
         | |- context [match ?x with _ => _ end] => destruct x
         end; split; reflexivity.
Qed.

Lemma await_keeps (packets : list Buffer) :
  forall s,
    closed (snd (await inflateSync packets s)) = closed s /\
    sent (snd (await inflateSync packets s)) = sent s.
Proof.
  induction packets as [|packet packets IH]; intros s; cbn [await];
    [split; reflexivity|].
  pose proof (handleMessage_keeps packet s) as [Hc Hs].
  destruct (handleMessage inflateSync packet s) as [[[[data|e]|]|e] s'];
    cbn [snd] in *; try (split; assumption).
  all: destruct (IH s') as [Hc' Hs']; split; congruence.
Qed.

(** A request whose transmission does not fail leaves the transport as
    open or closed as it found it. *)
Lemma Socket_request_keeps_closed (payload : Buffer) (ex : Exchange)
      (s : A2SSocket) :
  send_error ex = None ->
  closed (snd (Socket.request inflateSync payload ex s)) = closed s.
Proof.
  intros Hsend. unfold Socket.request. rewrite Hsend.
  destruct (closed s) eqn:Hc; [exact Hc|].
  match goal with
  | |- context [await _ _ ?s0] =>
      destruct (await_keeps (arrivals ex) s0) as [-> _]
  end.
  reflexivity.
Qed.

Lemma request_answered_by_challenge (payload c : Buffer) (ex : Exchange)
      (s : A2SSocket) :
  closed s = false -> challenge_reply c ex ->
  Socket.request inflateSync payload ex s
  = (Ok (A2S_CHALLENGE_RESPONSE :: c),
     mkA2SSocket false (fragmentBuffer s) (sent s ++ [HEADER_SIMPLE ++ payload])).
Proof.
  intros Hopen (Hsend & more & Harr). unfold Socket.request.
  rewrite Hopen, Hsend, Harr. cbn [await].
  now rewrite handleMessage_simple.
Qed.

Section Query.

Variable T : Type.
Variable protocol : ProtocolHandler T.
Variable net : Network.
Hypothesis Hser : serializes protocol.
Hypothesis Hnet : always_challenges net.

(** From retry [retries] on, the query sends one request per remaining
    retry and one more, then gives up; the client is closed on the way
    out only if that happens in the outermost call. *)
Lemma request_keeps_being_challenged (k : nat) :
  forall (retries : nat) (challenge : Z) (c : A2SClient),
    (retries + k = DEFAULT_RETRIES)%nat ->
    0 <= challenge < 2 ^ 32 ->
    c_closed c = false -> closed (socket c) = false ->
    let res := request inflateSync DEFAULT_RETRIES protocol net
                       challenge retries c in
    fst res = Throw challenges_exhausted /\
    length (sent (socket (snd res)))
    = (length (sent (socket c)) + k + 1)%nat /\
    c_closed (snd res) = Nat.eqb DEFAULT_RETRIES 0 /\
    closed (socket (snd res)) = Nat.eqb DEFAULT_RETRIES 0.
Proof.
  induction k as [|k IH]; intros retries challenge c Hk Hch Hopen Hsock;
    cbv zeta; rewrite request_equation_1;
    unfold ensureOpen; rewrite Hopen;
    destruct (Hser Hch) as (payload & ->); cbv zeta;
    destruct (Hnet retries payload) as (cb & Hreply & Hlen & Hbytes);
    rewrite (@request_answered_by_challenge payload _ _ _ Hsock Hreply);
    rewrite (@readUint8_at _ A2S_CHALLENGE_RESPONSE cb (At_new _ _ _));
    change (A2S_CHALLENGE_RESPONSE =? A2S_CHALLENGE_RESPONSE) with true;
    cbv iota;
    destruct (le_lt_dec DEFAULT_RETRIES retries) as [Hge|Hlt]; try lia.
  - cbn [fst snd]. split; [reflexivity|].
    assert (retries = DEFAULT_RETRIES) as -> by lia.
    destruct DEFAULT_RETRIES;
      unfold A2S.close, Socket.close, set_socket;
      cbn [Nat.eqb c_closed socket closed sent fragmentBuffer c_encoding];
      rewrite ?Hopen;
      cbn [negb c_closed socket closed sent fragmentBuffer c_encoding];
      rewrite length_app; cbn [length]; repeat split; lia.
  - match goal with
    | |- context [readUint32 ?r] =>
        assert (Hat : At r (firstn 4 cb ++ skipn 4 cb))
          by (rewrite firstn_skipn;
              exact (At_adv [A2S_CHALLENGE_RESPONSE] cb (At_new _ _ _)))
    end.
    assert (H4 : length (firstn 4 cb) = 4%nat)
      by (rewrite length_firstn; lia).
    rewrite (readUint32_raw_at _ _ Hat H4 eq_refl).
    specialize (IH (S retries) (le_value (firstn 4 cb))
                   (set_socket c (mkA2SSocket false (fragmentBuffer (socket c))
                                              (sent (socket c) ++ [HEADER_SIMPLE ++ payload])))).
    cbv zeta in IH.
    destruct IH as (R1 & R2 & R3 & R4);
      [lia| |exact Hopen|reflexivity|].
    { assert (Hb : is_bytes (firstn 4 cb)).
      { unfold is_bytes in *. rewrite <- (firstn_skipn 4 cb) in Hbytes.
        now apply Forall_app in Hbytes. }
      pose proof (le_value_bound Hb) as B. rewrite H4 in B. exact B. }
    split; [exact R1|]. split; [|split; assumption].
    rewrite R2. cbn [set_socket socket sent]. rewrite length_app.
    cbn [length]. lia.
Qed.

End Query.

(** A recursive step ([retries >= 1]) never calls [close()] on the
    client, whatever the network and the codec do. *)
Lemma recursive_step_never_closes T (protocol : ProtocolHandler T)
      (net : Network) (k : nat) :
  forall (retries : nat) (challenge : Z) (c : A2SClient),
    (DEFAULT_RETRIES - retries <= k)%nat -> (1 <= retries)%nat ->
    c_closed (snd (request inflateSync DEFAULT_RETRIES protocol net
                           challenge retries c)) = c_closed c.
Proof.
  induction k as [|k IH]; intros retries challenge c Hk Hr;
    rewrite request_equation_1;
    (destruct retries as [|r]; [lia|]); cbn [Nat.eqb]; cbv zeta;
    repeat (match goal with
            | |- context [le_lt_dec ?a ?b] => destruct (le_lt_dec a b)
            | |- context [match ?x with _ => _ end] => destruct x eqn:?
            end; cbn [snd set_socket c_closed]; try reflexivity; try lia).
  rewrite IH by lia. reflexivity.
Qed.

(** Nor does a recursive step close the transport, unless one of its
    transmissions fails: [send()] then closes the transport itself. *)
Lemma recursive_step_keeps_transport T (protocol : ProtocolHandler T)
      (net : Network) (k : nat) :
  forall (retries : nat) (challenge : Z) (c : A2SClient),
    (DEFAULT_RETRIES - retries <= k)%nat -> (1 <= retries)%nat ->
    (forall r payload, (retries <= r)%nat -> send_error (net r payload) = None) ->
    closed (socket (snd (request inflateSync DEFAULT_RETRIES protocol net
                                 challenge retries c))) = closed (socket c).
Proof.
  induction k as [|k IH]; intros retries challenge c Hk Hr Hnet;
    rewrite request_equation_1;
    (destruct retries as [|r]; [lia|]); cbn [Nat.eqb]; cbv zeta;
    (destruct (ensureOpen c); [|reflexivity]);
    (destruct (serializeRequest protocol challenge) as [payload|];
     [|reflexivity]);
    pose proof (@Socket_request_keeps_closed payload (net (S r) payload)
                  (socket c) (Hnet (S r) payload (le_n _))) as Hs;
    destruct (Socket.request inflateSync payload (net (S r) payload) (socket c))
      as [[data|e] s']; cbn [snd] in Hs; cbn [snd set_socket socket];
    try exact Hs;
    repeat (match goal with
            | |- context [le_lt_dec ?a ?b] => destruct (le_lt_dec a b)
            | |- context [match ?x with _ => _ end] => destruct x eqn:?
            end; cbn [snd set_socket socket]; try exact Hs; try lia).
  rewrite IH; [exact Hs|lia|lia|].
  intros r' payload' Hr'. apply Hnet. lia.
Qed.

Lemma info_serializes : serializes InfoProtocol.handler.
Proof.
  intros ch Hch. cbn [serializeRequest InfoProtocol.handler].
  unfold InfoProtocol.serializeRequest, challengeBuffer, writeUInt, writeChecked.
  destruct (negb (ch =? 0)); [|eauto].
  destruct (Z.ltb_spec ch 0); [lia|].
  destruct (Z.ltb_spec (2 ^ (8 * Z.of_nat 4) - 1) ch); [cbn in *; lia|].
  cbn [orb rbind]. eauto.
Qed.

Lemma players_serializes : serializes PlayersProtocol.handler.
Proof.
  intros ch Hch. cbn [serializeRequest PlayersProtocol.handler].
  unfold PlayersProtocol.serializeRequest, challengeBuffer, writeUInt, writeChecked.
  destruct (Z.ltb_spec ch 0); [lia|].
  destruct (Z.ltb_spec (2 ^ (8 * Z.of_nat 4) - 1) ch); [cbn in *; lia|].
  cbn [orb rbind]. eauto.
Qed.

Lemma rules_serializes : serializes RulesProtocol.handler.
Proof.
  intros ch Hch. cbn [serializeRequest RulesProtocol.handler].
  unfold RulesProtocol.serializeRequest, challengeBuffer, writeUInt, writeChecked.
  destruct (Z.ltb_spec ch 0); [lia|].
  destruct (Z.ltb_spec (2 ^ (8 * Z.of_nat 4) - 1) ch); [cbn in *; lia|].
  cbn [orb rbind]. eauto.
Qed.

End ClientFacts.

Lemma challenging_server_always_challenges : always_challenges challenging_server.
Proof.
  intros retries payload. exists [1; 2; 3; 4]. split; [|split].
  - split; [reflexivity|]. now exists [].
  - cbn. lia.
  - repeat constructor; unfold is_byte; lia.
Qed.

(** C1, as the code has it.  Against a server that answers every request
    with a challenge response carrying its four challenge bytes, each of
    the three queries sends exactly [DEFAULT_RETRIES + 1] requests through
    the transport and then fails with the [BrokenMessageError] "Server
    keeps sending challenge responses". *)
Theorem C1_challenge_retry_bound
        (inflateSync : Buffer -> Result Buffer) (DEFAULT_RETRIES : nat)
        (encoding : option BufferEncoding) (net : Network) :
  always_challenges net ->
  let c := new_A2SClient encoding in
  (fst (info inflateSync DEFAULT_RETRIES net c) = Throw challenges_exhausted /\
   length (sent (socket (snd (info inflateSync DEFAULT_RETRIES net c))))
   = S DEFAULT_RETRIES) /\
  (fst (players inflateSync DEFAULT_RETRIES net c) = Throw challenges_exhausted /\
   length (sent (socket (snd (players inflateSync DEFAULT_RETRIES net c))))
   = S DEFAULT_RETRIES) /\
  (fst (rules inflateSync DEFAULT_RETRIES net c) = Throw challenges_exhausted /\
   length (sent (socket (snd (rules inflateSync DEFAULT_RETRIES net c))))
   = S DEFAULT_RETRIES).
Proof.
  intros Hnet c. subst c. unfold info, players, rules.
  cbn [ensureOpen c_closed new_A2SClient].
  repeat split.
  all: try (apply (@request_keeps_being_challenged inflateSync DEFAULT_RETRIES
                     _ _ net) with (k := DEFAULT_RETRIES);
            auto using info_serializes, players_serializes, rules_serializes;
            lia).
  all: match goal with
       | |- context [request _ _ ?p _ _ _ _] =>
           destruct (@request_keeps_being_challenged inflateSync DEFAULT_RETRIES
                       _ p net) with (k := DEFAULT_RETRIES) (retries := 0%nat)
                       (challenge := 0) (c := new_A2SClient encoding)
             as (_ & H & _);
           auto using info_serializes, players_serializes, rules_serializes;
           try lia
       end.
  all: cbv zeta in H; rewrite H; cbn; lia.
Qed.

Lemma C1_witness :
  let c := new_A2SClient (Some utf8) in
  (fst (info no_inflate 5 challenging_server c) = Throw challenges_exhausted /\
   length (sent (socket (snd (info no_inflate 5 challenging_server c))))
   = 6%nat) /\
  (fst (players no_inflate 5 challenging_server c) = Throw challenges_exhausted /\
   length (sent (socket (snd (players no_inflate 5 challenging_server c))))
   = 6%nat) /\
  (fst (rules no_inflate 5 challenging_server c) = Throw challenges_exhausted /\
   length (sent (socket (snd (rules no_inflate 5 challenging_server c))))
   = 6%nat).
Proof.
  apply (@C1_challenge_retry_bound no_inflate 5 (Some utf8) challenging_server).
  intros retries payload. exists [1; 2; 3; 4]. split; [|split].
  - split; [reflexivity|]. now exists [].
  - cbn. lia.
  - repeat constructor; unfold is_byte; lia.
Defined.

(** C1 as stated fails.  A server whose every reply is the datagram
    [FF FF FF FF 41], the challenge-response type byte and nothing after
    it, is sent one request, not six, and the query fails with the
    [BufferExhaustedError] of the challenge that cannot be read. *)
Lemma C1_counterexample :
  let res := info no_inflate DEFAULT_RETRIES_value truncating_server
                  (new_A2SClient (Some utf8)) in
  fst res = Throw (BufferExhaustedError "Cannot read 4 bytes from position 1") /\
  fst res <> Throw challenges_exhausted /\
  length (sent (socket (snd res))) = 1%nat /\
  length (sent (socket (snd res))) <> S DEFAULT_RETRIES_value.
Proof. vm_compute. repeat split; discriminate. Qed.

(** C2, as the code has it.  When the retry counter reaches the maximum
    the query fails with "Server keeps sending challenge responses", and
    the step that gives up closes client and transport only when it is
    the outermost call, which is the case exactly when the maximum is 0:
    with a maximum of at least 1 both are still open when the failure
    reaches the caller.  No recursive step ([retries >= 1]) ever closes
    the client, whatever the network and the codec do, and none closes
    the transport as long as the transmissions do not fail.  A failed
    transmission is the one thing that closes the transport in a
    recursive step, as in any step: [send()] closes it itself, and the
    client is left open. *)
Theorem C2_retry_exhaustion_closes_only_in_outermost_call
        (inflateSync : Buffer -> Result Buffer) (DEFAULT_RETRIES : nat)
        (T : Type) (protocol : ProtocolHandler T)
        (encoding : option BufferEncoding) (net : Network) :
  serializes protocol ->
  always_challenges net ->
  let res := request inflateSync DEFAULT_RETRIES protocol net 0 0
                     (new_A2SClient encoding) in
  fst res = Throw challenges_exhausted /\
  c_closed (snd res) = Nat.eqb DEFAULT_RETRIES 0 /\
  closed (socket (snd res)) = Nat.eqb DEFAULT_RETRIES 0 /\
  (forall (net' : Network) (challenge : Z) (retries : nat) (c : A2SClient),
      (1 <= retries)%nat ->
      let step := request inflateSync DEFAULT_RETRIES protocol net'
                          challenge retries c in
      c_closed (snd step) = c_closed c /\
      ((forall r payload,
           (retries <= r)%nat -> send_error (net' r payload) = None) ->
       closed (socket (snd step)) = closed (socket c))) /\
  (forall (net' : Network) (challenge : Z) (retries : nat) (c : A2SClient)
          (payload : Buffer) (err : JSError),
      c_closed c = false -> closed (socket c) = false ->
      serializeRequest protocol challenge = Ok payload ->
      send_error (net' retries payload) = Some err ->
      let step := request inflateSync DEFAULT_RETRIES protocol net'
                          challenge retries c in
      fst step = Throw err /\
      c_closed (snd step) = false /\
      closed (socket (snd step)) = true).
Proof.
  intros Hser Hnet res.
  destruct (@request_keeps_being_challenged inflateSync DEFAULT_RETRIES
              T protocol net Hser Hnet DEFAULT_RETRIES 0%nat 0
              (new_A2SClient encoding))
    as (R1 & _ & R3 & R4); try reflexivity; try lia.
  split; [exact R1|]. split; [exact R3|]. split; [exact R4|]. split.
  - intros net' challenge retries c Hr step. subst step. split.
    + now apply recursive_step_never_closes
        with (k := (DEFAULT_RETRIES - retries)%nat).
    + intros Hsend.
      now apply recursive_step_keeps_transport
        with (k := (DEFAULT_RETRIES - retries)%nat).
  - intros net' challenge retries c payload err Hc Hs Hp Herr step.
    subst step. rewrite request_equation_1.
    unfold ensureOpen. rewrite Hc, Hp. cbv zeta.
    unfold Socket.request. rewrite Hs, Herr.
    unfold Socket.close. rewrite Hs.
    cbn [fst snd set_socket c_closed socket closed negb].
    now rewrite Hc.
Qed.

Lemma C2_witness :
  let res := request no_inflate 5 InfoProtocol.handler challenging_server 0 0
                     (new_A2SClient (Some utf8)) in
  fst res = Throw challenges_exhausted /\
  c_closed (snd res) = false /\
  closed (socket (snd res)) = false /\
  (forall (net' : Network) (challenge : Z) (retries : nat) (c : A2SClient),
      (1 <= retries)%nat ->
      let step := request no_inflate 5 InfoProtocol.handler net'
                          challenge retries c in
      c_closed (snd step) = c_closed c /\
      ((forall r payload,
           (retries <= r)%nat -> send_error (net' r payload) = None) ->
       closed (socket (snd step)) = closed (socket c))) /\
  (forall (net' : Network) (challenge : Z) (retries : nat) (c : A2SClient)
          (payload : Buffer) (err : JSError),
      c_closed c = false -> closed (socket c) = false ->
      serializeRequest InfoProtocol.handler challenge = Ok payload ->
      send_error (net' retries payload) = Some err ->
      let step := request no_inflate 5 InfoProtocol.handler net'
                          challenge retries c in
      fst step = Throw err /\
      c_closed (snd step) = false /\
      closed (socket (snd step)) = true).
Proof.
  apply (@C2_retry_exhaustion_closes_only_in_outermost_call
           no_inflate 5 ServerInfo InfoProtocol.handler (Some utf8)
           challenging_server).
  - intros ch Hch. cbn [serializeRequest InfoProtocol.handler].
    unfold InfoProtocol.serializeRequest, challengeBuffer, writeUInt, writeChecked.
    destruct (negb (ch =? 0)); [|eauto].
    destruct (Z.ltb_spec ch 0); [lia|].
    destruct (Z.ltb_spec (2 ^ (8 * Z.of_nat 4) - 1) ch); [cbn in *; lia|].
    cbn [orb rbind]. eauto.
  - intros retries payload. exists [1; 2; 3; 4]. split; [|split].
    + split; [reflexivity|]. now exists [].
    + cbn. lia.
    + repeat constructor; unfold is_byte; lia.
Defined.

(** C2 as stated fails.  With the default of five retries and a server
    that keeps challenging, the query fails as the claim says, but neither
    the client nor its transport has been closed: [close()] was not called
    at all. *)
Lemma C2_counterexample :
  let res := info no_inflate DEFAULT_RETRIES_value challenging_server
                  (new_A2SClient (Some utf8)) in
  fst res = Throw challenges_exhausted /\
  c_closed (snd res) = false /\
  closed (socket (snd res)) = false.
Proof. vm_compute. repeat split. Qed.

(* ===================================================================== *)
(** ** Binary codec: round trips                                          *)
(* ===================================================================== *)

(** Decides the comparisons of a goal, closing the impossible cases. *)
Ltac decide_tests :=
  repeat match goal with
         | |- context [?a <=? ?b] => destruct (Z.leb_spec a b); try lia
         | |- context [?a <? ?b] => destruct (Z.ltb_spec a b); try lia
         | |- context [?a =? ?b] => destruct (Z.eqb_spec a b); try lia
         end; cbn [andb orb negb].

Lemma utf8_decode_encode_cp (cp : Z) (rest : Buffer) :
  scalar cp ->
  utf8_decode_from utf8_init (utf8_encode_cp cp ++ rest)
  = cp :: utf8_decode_from utf8_init rest.
Proof.
  intros [Hr Hs]. unfold utf8_encode_cp.
  destruct (Z.ltb_spec cp 128) as [H1|H1];
    [|destruct (Z.ltb_spec cp 2048) as [H2|H2];
      [|destruct (Z.ltb_spec cp 65536) as [H3|H3]]].
  - cbn [app utf8_decode_from utf8_init remaining]. unfold utf8_start.
    decide_tests. reflexivity.
  - pose proof (Z.div_mod cp 64 ltac:(lia)) as E.
    pose proof (Z.mod_pos_bound cp 64 ltac:(lia)) as B.
    assert (Hq : 2 <= cp / 64 < 32) by (split; [apply Z.div_le_lower_bound|apply Z.div_lt_upper_bound]; lia).
    revert E B Hq. generalize (cp / 64) (cp mod 64). intros q r E B Hq.
    cbn [app utf8_decode_from utf8_init remaining]. unfold utf8_start.
    decide_tests.
    cbn [utf8_decode_from remaining lower upper code_point].
    decide_tests. cbn [app]. f_equal. lia.
  - pose proof (Z.div_mod cp 64 ltac:(lia)) as E.
    pose proof (Z.mod_pos_bound cp 64 ltac:(lia)) as B.
    pose proof (Z.div_mod (cp / 64) 64 ltac:(lia)) as E2.
    pose proof (Z.mod_pos_bound (cp / 64) 64 ltac:(lia)) as B2.
    assert (E3 : cp / 4096 = cp / 64 / 64) by (rewrite Z.div_div by lia; reflexivity).
    rewrite E3.
    assert (Hq : 0 <= cp / 64 / 64 < 16).
    { split; [apply Z.div_le_lower_bound; lia|apply Z.div_lt_upper_bound; lia]. }
    revert E B E2 B2 Hq.
    generalize (cp / 64 / 64) ((cp / 64) mod 64) (cp mod 64) (cp / 64).
    intros a b c q E B E2 B2 Hq.
    cbn [app utf8_decode_from utf8_init remaining]. unfold utf8_start.
    decide_tests;
    cbn [utf8_decode_from remaining lower upper code_point];
    decide_tests; cbn [utf8_decode_from remaining lower upper code_point];
    decide_tests; cbn [app]; f_equal; lia.
  - pose proof (Z.div_mod cp 64 ltac:(lia)) as E.
    pose proof (Z.mod_pos_bound cp 64 ltac:(lia)) as B.
    pose proof (Z.div_mod (cp / 64) 64 ltac:(lia)) as E2.
    pose proof (Z.mod_pos_bound (cp / 64) 64 ltac:(lia)) as B2.
    pose proof (Z.div_mod (cp / 64 / 64) 64 ltac:(lia)) as E4.
    pose proof (Z.mod_pos_bound (cp / 64 / 64) 64 ltac:(lia)) as B4.
    assert (E3 : cp / 4096 = cp / 64 / 64) by (rewrite Z.div_div by lia; reflexivity).
    assert (E5 : cp / 262144 = cp / 64 / 64 / 64) by (rewrite !Z.div_div by lia; reflexivity).
    rewrite E3, E5.
    assert (Hq : 0 <= cp / 64 / 64 / 64 < 5).
    { rewrite <- E5. split; [apply Z.div_le_lower_bound; lia|apply Z.div_lt_upper_bound; lia]. }
    revert E B E2 B2 E4 B4 Hq.
    generalize (cp / 64 / 64 / 64) ((cp / 64 / 64) mod 64) ((cp / 64) mod 64) (cp mod 64) (cp / 64 / 64) (cp / 64).
    intros a b c d q2 q1 E B E2 B2 E4 B4 Hq.
    cbn [app utf8_decode_from utf8_init remaining]. unfold utf8_start.
    decide_tests;
    cbn [utf8_decode_from remaining lower upper code_point];
    decide_tests; cbn [utf8_decode_from remaining lower upper code_point];
    decide_tests; cbn [utf8_decode_from remaining lower upper code_point];
    decide_tests; cbn [app]; f_equal; lia.
Qed.

Lemma well_formed_induction (P : JSString -> Prop) :
  P [] ->
  (forall u rest,
      is_high_surrogate u = false -> is_low_surrogate u = false ->
      0 <= u < 65536 -> well_formed rest = true -> P rest -> P (u :: rest)) ->
  (forall u v rest,
      is_high_surrogate u = true -> is_low_surrogate v = true ->
      well_formed rest = true -> P rest -> P (u :: v :: rest)) ->
  forall s, well_formed s = true -> P s.
Proof.
  intros Hnil Hone Hpair s.
  assert (H : forall n s, (length s <= n)%nat -> well_formed s = true -> P s).
  { clear s. induction n as [|n IH]; intros s Hlen Hwf.
    - destruct s; [exact Hnil|cbn in Hlen; lia].
    - destruct s as [|u rest]; [exact Hnil|].
      cbn [well_formed] in Hwf. cbn [length] in Hlen.
      destruct (is_high_surrogate u) eqn:Hh.
      + destruct rest as [|v rest']; [discriminate|].
        apply andb_true_iff in Hwf. destruct Hwf as [Hl Hwf].
        apply Hpair; try assumption. apply IH; [cbn [length] in Hlen; lia|assumption].
      + rewrite !andb_true_iff in Hwf. destruct Hwf as [[[Hl H0] H1] Hwf].
        apply negb_true_iff in Hl.
        apply Hone; try assumption; [lia|]. apply IH; [lia|assumption]. }
  intros Hwf. now apply (H (length s) s).
Qed.

Lemma surrogates_scalar (u : Z) :
  is_high_surrogate u = false -> is_low_surrogate u = false ->
  0 <= u < 65536 -> scalar u.
Proof.
  unfold is_high_surrogate, is_low_surrogate, scalar.
  intros Hh Hl Hu. split; [lia|].
  apply andb_false_iff in Hh, Hl. lia.
Qed.

Lemma pair_scalar (u v : Z) :
  is_high_surrogate u = true -> is_low_surrogate v = true ->
  scalar (65536 + (u - 55296) * 1024 + (v - 56320)) /\
  utf16_units (65536 + (u - 55296) * 1024 + (v - 56320)) = [u; v].
Proof.
  unfold is_high_surrogate, is_low_surrogate, scalar, utf16_units.
  intros Hh Hl. apply andb_true_iff in Hh, Hl.
  split; [lia|].
  destruct (Z.ltb_spec (65536 + (u - 55296) * 1024 + (v - 56320)) 65536); [lia|].
  replace (65536 + (u - 55296) * 1024 + (v - 56320) - 65536)
    with ((v - 56320) + (u - 55296) * 1024) by lia.
  rewrite Z.div_add, Z.mod_add by lia.
  rewrite Z.div_small, Z.mod_small by lia.
  f_equal; [lia|f_equal; lia].
Qed.

Lemma utf8_round_trip (s : JSString) :
  well_formed s = true -> Buffer_toString utf8 (utf8_encode s) = s.
Proof.
  unfold Buffer_toString. revert s. apply well_formed_induction.
  - reflexivity.
  - intros u rest Hh Hl Hu Hwf IH. cbn [utf8_encode]. rewrite Hh, Hl.
    rewrite utf8_decode_encode_cp by now apply surrogates_scalar.
    cbn [flat_map]. rewrite IH. unfold utf16_units.
    destruct (Z.ltb_spec u 65536); [reflexivity|lia].
  - intros u v rest Hh Hl Hwf IH. cbn [utf8_encode]. rewrite Hh, Hl.
    destruct (@pair_scalar u v Hh Hl) as [Hsc Hun].
    rewrite utf8_decode_encode_cp by assumption.
    cbn [flat_map]. now rewrite IH, Hun.
Qed.

Lemma utf8_encode_cp_nonzero (cp : Z) :
  0 < cp -> cstring_bytes (utf8_encode_cp cp).
Proof.
  intros H. unfold utf8_encode_cp, cstring_bytes.
  pose proof (Z.mod_pos_bound cp 64 ltac:(lia)).
  pose proof (Z.mod_pos_bound (cp / 64) 64 ltac:(lia)).
  pose proof (Z.mod_pos_bound (cp / 4096) 64 ltac:(lia)).
  assert (0 <= cp / 64) by (apply Z.div_pos; lia).
  assert (0 <= cp / 4096) by (apply Z.div_pos; lia).
  assert (0 <= cp / 262144) by (apply Z.div_pos; lia).
  destruct (cp <? 128); [|destruct (cp <? 2048); [|destruct (cp <? 65536)]];
    repeat constructor; lia.
Qed.

Lemma utf8_encode_nonzero (s : JSString) :
  well_formed s = true -> Forall (fun u => u <> 0) s ->
  cstring_bytes (utf8_encode s).
Proof.
  revert s. apply (well_formed_induction
                     (fun s => Forall (fun u => u <> 0) s -> cstring_bytes (utf8_encode s))).
  - constructor.
  - intros u rest Hh Hl Hu Hwf IH Hnz. inversion Hnz; subst.
    cbn [utf8_encode]. rewrite Hh, Hl. apply Forall_app. split; [|apply IH; assumption].
    apply utf8_encode_cp_nonzero. lia.
  - intros u v rest Hh Hl Hwf IH Hnz. inversion Hnz as [|? ? _ Hnz']; subst.
    inversion Hnz'; subst.
    cbn [utf8_encode]. rewrite Hh, Hl. apply Forall_app. split; [|apply IH; assumption].
    apply utf8_encode_cp_nonzero.
    unfold is_high_surrogate, is_low_surrogate in *.
    apply andb_true_iff in Hh, Hl. lia.
Qed.

Lemma latin1_round_trip (s : JSString) :
  Forall (fun u => 1 <= u <= 255) s ->
  Buffer_toString latin1 (Buffer_from s latin1) = s /\
  cstring_bytes (Buffer_from s latin1).
Proof.
  unfold Buffer_toString, Buffer_from, cstring_bytes.
  induction 1 as [|u s Hu Hs [IH1 IH2]]; [split; constructor|].
  cbn [map]. change 255 with (Z.ones 8). rewrite Z.land_ones by lia.
  rewrite Z.mod_small by (cbn; lia). split.
  - f_equal. exact IH1.
  - constructor; [lia|exact IH2].
Qed.

Lemma representable_string_round_trip (e : BufferEncoding) (s : JSString) :
  representable_string e s ->
  Buffer_toString e (Buffer_from s e) = s /\ cstring_bytes (Buffer_from s e).
Proof.
  destruct e; cbn [representable_string].
  - intros [Hwf Hnz]. split; [now apply utf8_round_trip|now apply utf8_encode_nonzero].
  - apply latin1_round_trip.
Qed.

Lemma writeUInt_field (le : bool) (n : nat) (v : Z) :
  0 <= v < 2 ^ (8 * Z.of_nat n) ->
  writeUInt n (negb le) v = Ok (field le n v).
Proof.
  intros H. unfold writeUInt, writeChecked, field.
  destruct (Z.ltb_spec v 0); [lia|].
  destruct (Z.ltb_spec (2 ^ (8 * Z.of_nat n) - 1) v); [lia|].
  now destruct le.
Qed.

Lemma writeInt_field (le : bool) (n : nat) (v : Z) :
  - 2 ^ (8 * Z.of_nat n - 1) <= v < 2 ^ (8 * Z.of_nat n - 1) ->
  writeInt n (negb le) v = Ok (field le n v).
Proof.
  intros H. unfold writeInt, writeChecked, field.
  destruct (Z.ltb_spec v (- 2 ^ (8 * Z.of_nat n - 1))); [lia|].
  destruct (Z.ltb_spec (2 ^ (8 * Z.of_nat n - 1) - 1) v); [lia|].
  now destruct le.
Qed.

Lemma decode_reads {A} (le : bool) (enc : option BufferEncoding)
      (m : Reader A) (l : Buffer) (a : A) :
  Reads le enc m l a -> fst (m (new_ByteReader (l ++ []) le enc)) = Ok a.
Proof.
  intros H. rewrite (H (new_ByteReader (l ++ []) le enc) []); try reflexivity.
  apply At_new.
Qed.

(** C5.  For each primitive (signed and unsigned integers of 8, 16, 32
    and 64 bits, booleans, null-terminated strings), each byte order and
    each text mode: a representable value written by a fresh writer is
    written without an exception, and a fresh reader over the bytes
    written reads the same value back. *)
Theorem C5_round_trip
        (le : bool) (enc : option BufferEncoding) (k : Primitive) (v : Value) :
  representable enc k v ->
  exists data,
    encode le enc k v = Ok data /\ decode le enc k data = Ok v.
Proof.
  destruct k, v as [v|b|[s|b]]; cbn [representable]; try contradiction; intros H;
    unfold encode, decode.
  - (* Int8 *)
    unfold writeInt8.
    pose proof (@writeInt_field true 1 v ltac:(cbn; lia)) as E;
      cbn [negb] in E; rewrite E.
    cbn [rbind toBuffer write buffers new_ByteWriter concat app field].
    eexists. split; [reflexivity|].
    assert (H8 : -128 <= v <= 127) by (cbn in H; lia).
    rewrite (@decode_reads _ _ _ _ _ _ (proj1 (Parses_readInt8 le enc H8))).
    reflexivity.
  - (* Uint8 *)
    unfold writeUint8.
    pose proof (@writeUInt_field true 1 v ltac:(cbn; lia)) as E;
      cbn [negb] in E; rewrite E.
    cbn [rbind toBuffer write buffers new_ByteWriter concat app field].
    eexists. split; [reflexivity|].
    change (le_bytes 1 v) with [Z.land v (Z.ones 8)].
    rewrite Z.land_ones, Z.mod_small by lia.
    rewrite (@decode_reads _ _ _ _ _ _ (proj1 (Parses_readUint8 le enc v))).
    reflexivity.
  - unfold writeInt16. cbn [new_ByteWriter w_littleEndian].
    rewrite (@writeInt_field le 2 v) by (cbn; lia).
    cbn [rbind toBuffer write buffers concat app new_ByteWriter].
    eexists. split; [reflexivity|].
    now rewrite (@decode_reads _ _ _ _ _ _ (proj1 (Parses_readInt16 le enc H))).
  - unfold writeUint16. cbn [new_ByteWriter w_littleEndian].
    rewrite (@writeUInt_field le 2 v) by (cbn; lia).
    cbn [rbind toBuffer write buffers concat app new_ByteWriter].
    eexists. split; [reflexivity|].
    now rewrite (@decode_reads _ _ _ _ _ _ (proj1 (Parses_readUint16 le enc H))).
  - unfold writeInt32. cbn [new_ByteWriter w_littleEndian].
    rewrite (@writeInt_field le 4 v) by (cbn; lia).
    cbn [rbind toBuffer write buffers concat app new_ByteWriter].
    eexists. split; [reflexivity|].
    now rewrite (@decode_reads _ _ _ _ _ _ (proj1 (Parses_readInt32 le enc H))).
  - unfold writeUint32. cbn [new_ByteWriter w_littleEndian].
    rewrite (@writeUInt_field le 4 v) by (cbn; lia).
    cbn [rbind toBuffer write buffers concat app new_ByteWriter].
    eexists. split; [reflexivity|].
    now rewrite (@decode_reads _ _ _ _ _ _ (proj1 (Parses_readUint32 le enc H))).
  - unfold writeInt64. cbn [new_ByteWriter w_littleEndian].
    rewrite (@writeInt_field le 8 v) by (cbn; lia).
    cbn [rbind toBuffer write buffers concat app new_ByteWriter].
    eexists. split; [reflexivity|].
    now rewrite (@decode_reads _ _ _ _ _ _ (proj1 (Parses_readInt64 le enc H))).
  - unfold writeUint64. cbn [new_ByteWriter w_littleEndian].
    rewrite (@writeUInt_field le 8 v) by (cbn; lia).
    cbn [rbind toBuffer write buffers concat app new_ByteWriter].
    eexists. split; [reflexivity|].
    now rewrite (@decode_reads _ _ _ _ _ _ (proj1 (Parses_readUint64 le enc H))).
  - (* Bool *)
    unfold writeBool, writeInt8.
    pose proof (@writeInt_field true 1 (if b then 1 else 0)
                  ltac:(destruct b; cbn; lia)) as E;
      cbn [negb] in E; rewrite E.
    cbn [rbind toBuffer write buffers new_ByteWriter concat app field].
    eexists. split; [reflexivity|].
    replace (le_bytes 1 (if b then 1 else 0)) with [if b then 1 else 0]
      by now destruct b.
    now rewrite (@decode_reads _ _ _ _ _ _ (proj1 (Parses_readBool le enc b))).
  - (* CString, a string *)
    destruct enc as [e|]; [|contradiction].
    destruct (@representable_string_round_trip e s H) as [Hrt Hnz].
    unfold writeCString, writeUint8, encoded.
    cbn [write w_encoding new_ByteWriter buffers w_littleEndian].
    pose proof (@writeUInt_field true 1 0 ltac:(cbn; lia)) as E;
      cbn [negb] in E; rewrite E.
    cbn [rbind toBuffer write buffers concat app field le_bytes Z.land
         new_ByteWriter].
    eexists. split; [reflexivity|].
    change (Buffer_from s e ++ [0]) with (cstr (Buffer_from s e)).
    rewrite <- (app_nil_r (cstr _)).
    rewrite (@decode_reads _ _ _ _ _ _ (proj1 (Parses_readCString le (Some e) Hnz))).
    cbn [rbind text_of]. now rewrite Hrt.
  - (* CString, raw bytes *)
    destruct H as (-> & Hb & Hnz).
    unfold writeCString, writeUint8.
    cbn [write w_encoding new_ByteWriter buffers w_littleEndian].
    pose proof (@writeUInt_field true 1 0 ltac:(cbn; lia)) as E;
      cbn [negb] in E; rewrite E.
    cbn [rbind toBuffer write buffers concat app field le_bytes Z.land
         new_ByteWriter].
    eexists. split; [reflexivity|].
    change (b ++ [0]) with (cstr b).
    rewrite <- (app_nil_r (cstr _)).
    now rewrite (@decode_reads _ _ _ _ _ _ (proj1 (Parses_readCString le None Hnz))).
Qed.

Lemma C5_witness :
  exists data,
    encode true (Some utf8) CString (VText (Str (lit "hello"))) = Ok data /\
    decode true (Some utf8) CString data = Ok (VText (Str (lit "hello"))).
Proof.
  apply (@C5_round_trip true (Some utf8) CString (VText (Str (lit "hello")))).
  cbn. split; [reflexivity|]. repeat constructor; discriminate.
Defined.

(** The boundary values of every width, in both byte orders. *)
Example round_trip_boundaries :
  forall le : bool,
    Forall (fun '(k, v) =>
              exists data, encode le None k (VInt v) = Ok data /\
                           decode le None k data = Ok (VInt v))
           [(Int8, 0); (Int8, -1); (Int8, -128); (Int8, 127);
            (Uint8, 0); (Uint8, 255);
            (Int16, 0); (Int16, -1); (Int16, -32768); (Int16, 32767);
            (Uint16, 0); (Uint16, 65535);
            (Int32, 0); (Int32, -1); (Int32, -2147483648); (Int32, 2147483647);
            (Uint32, 0); (Uint32, 4294967295);
            (Int64, 0); (Int64, -1); (Int64, -9223372036854775808);
            (Int64, 9223372036854775807);
            (Uint64, 0); (Uint64, 18446744073709551615)].
Proof.
  intros le. destruct le; repeat constructor; eexists; split; reflexivity.
Qed.

(** Out of range, the writer throws and nothing is written. *)
Example write_out_of_range :
  encode true None Uint8 (VInt 256) = Throw ERR_OUT_OF_RANGE /\
  encode true None Int8 (VInt (-129)) = Throw ERR_OUT_OF_RANGE.
Proof. split; reflexivity. Qed.

(* ===================================================================== *)
(** ** Text decoding and byte-level parsing                               *)
(* ===================================================================== *)

Section Simulation.

Variables enc1 enc2 : option BufferEncoding.

Lemma same_cursor_refl (r : ByteReader) : same_cursor r r.
Proof. repeat split. Qed.

Lemma Sim_ret {A B} (R : A -> B -> Prop) (a : A) (b : B) :
  R a b -> Sim enc1 enc2 R (ret a) (ret b).
Proof. intros H r1 r2 H1 H2 Hc. cbn. auto. Qed.

Lemma Sim_throw {A B} (R : A -> B -> Prop) (e : JSError) :
  Sim enc1 enc2 R (throw e) (throw e).
Proof. intros r1 r2 H1 H2 Hc. cbn. auto. Qed.

Lemma Sim_lift {A B} (R : A -> B -> Prop) (x : Result A) (y : Result B) :
  match x, y with
  | Ok a, Ok b => R a b
  | Throw e1, Throw e2 => e1 = e2
  | _, _ => False
  end ->
  Sim enc1 enc2 R (lift x) (lift y).
Proof.
  intros H r1 r2 H1 H2 Hc. unfold lift.
  destruct x, y; try contradiction; auto.
Qed.

Lemma Sim_bind {A B C D} (R : A -> B -> Prop) (S : C -> D -> Prop)
      (m1 : Reader A) (m2 : Reader B) (k1 : A -> Reader C) (k2 : B -> Reader D) :
  Sim enc1 enc2 R m1 m2 ->
  (forall a b, R a b -> Sim enc1 enc2 S (k1 a) (k2 b)) ->
  Sim enc1 enc2 S (bind m1 k1) (bind m2 k2).
Proof.
  intros Hm Hk r1 r2 H1 H2 Hc. unfold bind.
  specialize (Hm r1 r2 H1 H2 Hc).
  destruct (m1 r1) as [[a|e1] r1'], (m2 r2) as [[b|e2] r2']; try contradiction.
  - destruct Hm as (HR & Hc' & E1 & E2). now apply Hk.
  - exact Hm.
Qed.

Lemma Sim_weaken {A B} (R R' : A -> B -> Prop) (m1 : Reader A) (m2 : Reader B) :
  (forall a b, R a b -> R' a b) ->
  Sim enc1 enc2 R m1 m2 -> Sim enc1 enc2 R' m1 m2.
Proof.
  intros HR Hm r1 r2 H1 H2 Hc. specialize (Hm r1 r2 H1 H2 Hc).
  destruct (m1 r1) as [[a|e1] r1'], (m2 r2) as [[b|e2] r2']; try contradiction.
  - destruct Hm as (Hab & ?). split; auto.
  - exact Hm.
Qed.

Lemma Sim_read (n : Z) : Sim enc1 enc2 eq (read n) (read n).
Proof.
  intros r1 r2 H1 H2 (Hb & Hp & Hl). unfold read. rewrite Hb, Hp.
  destruct (position r2 + n >? Z.of_nat (length (buffer r2))).
  - repeat split; assumption.
  - repeat split; cbn; congruence.
Qed.

Lemma Sim_peek (n : option Z) : Sim enc1 enc2 eq (peek n) (peek n).
Proof.
  intros r1 r2 H1 H2 (Hb & Hp & Hl). unfold peek. rewrite Hb, Hp.
  repeat split; assumption.
Qed.

Lemma Sim_fixed {A} (n : Z) (f : bool -> Buffer -> Result A) :
  Sim enc1 enc2 eq
      (fun r => (data <- read n ;; lift (f (littleEndian r) data)) r)
      (fun r => (data <- read n ;; lift (f (littleEndian r) data)) r).
Proof.
  intros r1 r2 H1 H2 Hc.
  assert (Hl : littleEndian r1 = littleEndian r2) by apply Hc.
  rewrite Hl.
  apply (@Sim_bind _ _ _ _ eq eq (read n) (read n)); try assumption.
  - apply Sim_read.
  - intros a b <-. apply Sim_lift. now destruct (f (littleEndian r2) a).
Qed.

Lemma Sim_readUint8 : Sim enc1 enc2 eq readUint8 readUint8.
Proof. apply (@Sim_fixed Z 1 (fun _ data => JS.readUInt8 data 0)). Qed.
Lemma Sim_readInt8 : Sim enc1 enc2 eq readInt8 readInt8.
Proof. apply (@Sim_fixed Z 1 (fun _ data => JS.readInt8 data 0)). Qed.
Lemma Sim_readUint16 : Sim enc1 enc2 eq readUint16 readUint16.
Proof.
  apply (@Sim_fixed Z 2 (fun l data => if l then readUInt16LE data 0
                                       else readUInt16BE data 0)).
Qed.
Lemma Sim_readUint32 : Sim enc1 enc2 eq readUint32 readUint32.
Proof.
  apply (@Sim_fixed Z 4 (fun l data => if l then readUInt32LE data 0
                                       else readUInt32BE data 0)).
Qed.
Lemma Sim_readInt32 : Sim enc1 enc2 eq readInt32 readInt32.
Proof.
  apply (@Sim_fixed Z 4 (fun l data => if l then readInt32LE data 0
                                       else readInt32BE data 0)).
Qed.
Lemma Sim_readFloat : Sim enc1 enc2 eq readFloat readFloat.
Proof.
  apply (@Sim_fixed Z 4 (fun l data => if l then readUInt32LE data 0
                                       else readUInt32BE data 0)).
Qed.
Lemma Sim_readUint64 : Sim enc1 enc2 eq readUint64 readUint64.
Proof.
  apply (@Sim_fixed Z 8 (fun l data => if l then readBigUInt64LE data 0
                                       else readBigUInt64BE data 0)).
Qed.

Lemma Sim_readBool : Sim enc1 enc2 eq readBool readBool.
Proof.
  unfold readBool. eapply Sim_bind; [apply Sim_readInt8|].
  intros a b <-. now apply Sim_ret.
Qed.

Lemma Sim_decoded (data : Buffer) :
  Sim enc1 enc2 any (decoded data) (decoded data).
Proof.
  intros r1 r2 H1 H2 Hc. unfold decoded.
  destruct (encoding r1) eqn:E1, (encoding r2) eqn:E2;
    repeat split; try congruence; apply Hc.
Qed.

Lemma Sim_readChar : Sim enc1 enc2 any readChar readChar.
Proof.
  unfold readChar. eapply Sim_bind; [apply Sim_read|].
  intros a b <-. apply Sim_decoded.
Qed.

Lemma Sim_readCString_loop (fuel : nat) :
  forall acc, Sim enc1 enc2 eq (readCString_loop fuel acc) (readCString_loop fuel acc).
Proof.
  induction fuel as [|fuel IH]; intros acc; cbn [readCString_loop].
  - apply Sim_throw.
  - eapply Sim_bind; [apply Sim_readUint8|].
    intros a b <-. destruct (negb (a =? 0)); [apply IH|now apply Sim_ret].
Qed.

Lemma Sim_readCString : Sim enc1 enc2 any readCString readCString.
Proof.
  intros r1 r2 H1 H2 Hc. unfold readCString.
  assert (Hb : buffer r1 = buffer r2) by apply Hc. rewrite Hb.
  apply (@Sim_bind _ _ _ _ eq any
           (readCString_loop (S (length (buffer r2))) [])
           (readCString_loop (S (length (buffer r2))) [])); try assumption.
  - apply Sim_readCString_loop.
  - intros a b <-. apply Sim_decoded.
Qed.

Lemma Sim_when {A B} (R : A -> B -> Prop) (c : bool) (m1 : Reader A) (m2 : Reader B) :
  Sim enc1 enc2 R m1 m2 ->
  Sim enc1 enc2 (option_rel R) (when c m1) (when c m2).
Proof.
  intros H. destruct c; cbn [when]; [|now apply Sim_ret].
  eapply Sim_bind; [exact H|]. intros a b Hab. now apply Sim_ret.
Qed.

Lemma Sim_try_catch {A B} (R : A -> B -> Prop) (m1 : Reader A) (m2 : Reader B)
      (h1 : JSError -> Reader A) (h2 : JSError -> Reader B) :
  Sim enc1 enc2 R m1 m2 ->
  (forall e, Sim enc1 enc2 R (h1 e) (h2 e)) ->
  Sim enc1 enc2 R (try_catch m1 h1) (try_catch m2 h2).
Proof.
  intros Hm Hh r1 r2 H1 H2 Hc. unfold try_catch.
  specialize (Hm r1 r2 H1 H2 Hc).
  destruct (m1 r1) as [[a|e1] r1'], (m2 r2) as [[b|e2] r2']; try contradiction.
  - exact Hm.
  - destruct Hm as (-> & Hc' & E1 & E2). now apply Hh.
Qed.

Lemma Sim_same_outcome {A B} (R : A -> B -> Prop) (m1 : Reader A) (m2 : Reader B)
      (data : Buffer) (le : bool) :
  Sim enc1 enc2 R m1 m2 ->
  same_outcome (m1 (new_ByteReader data le enc1)) (m2 (new_ByteReader data le enc2)).
Proof.
  intros H.
  specialize (H (new_ByteReader data le enc1) (new_ByteReader data le enc2)
                eq_refl eq_refl (conj eq_refl (conj eq_refl eq_refl))).
  unfold same_outcome.
  destruct (m1 _) as [[a|e1] r1'], (m2 _) as [[b|e2] r2']; try contradiction;
    cbn [fst snd]; destruct H as (H & (_ & Hp & _) & _); auto.
Qed.

Lemma Sim_when_any {A B} (c : bool) (m1 : Reader A) (m2 : Reader B) :
  Sim enc1 enc2 any m1 m2 -> Sim enc1 enc2 any (when c m1) (when c m2).
Proof.
  intros H. eapply Sim_weaken; [|apply Sim_when, H]. intros; exact I.
Qed.

Lemma Sim_recover_flags : Sim enc1 enc2 eq recover_flags recover_flags.
Proof.
  apply Sim_try_catch; [apply Sim_readUint8|].
  intros e. destruct (negb (instanceof_BufferExhaustedError e));
    [apply Sim_throw|now apply Sim_ret].
Qed.

Lemma Sim_Keeps {A} (R : A -> A -> Prop) (m : Reader A) :
  enc1 = enc2 -> Sim enc1 enc2 R m m -> Keeps enc1 m.
Proof.
  intros <- H r a r' Hr E.
  specialize (H r r Hr Hr (same_cursor_refl r)). rewrite E in H. apply H.
Qed.

Lemma NeverReturns_bind_l {A B} (m : Reader A) (k : A -> Reader B) :
  NeverReturns enc1 m -> NeverReturns enc1 (bind m k).
Proof.
  intros H r Hr. specialize (H r Hr). unfold bind.
  destruct (m r) as [[a|e] r']; [discriminate|reflexivity].
Qed.

Lemma NeverReturns_bind_r {A B} (m : Reader A) (k : A -> Reader B) :
  Keeps enc1 m -> (forall a, NeverReturns enc1 (k a)) ->
  NeverReturns enc1 (bind m k).
Proof.
  intros Hm Hk r Hr. unfold bind.
  destruct (m r) as [[a|e] r'] eqn:E; [|reflexivity].
  apply Hk. exact (Hm r a r' Hr E).
Qed.

End Simulation.

(** One step of a simulation between two runs of the same parser. *)
Ltac sim_primitive :=
  first [ apply Sim_readCString | apply Sim_readChar | apply Sim_readUint8
        | apply Sim_readUint16 | apply Sim_readUint32 | apply Sim_readInt32
        | apply Sim_readUint64 | apply Sim_readFloat | apply Sim_readBool
        | apply Sim_recover_flags | apply Sim_peek | apply Sim_read ].

Ltac sim_step :=
  first [ apply Sim_ret; exact I
        | eapply Sim_weaken; [|sim_primitive]; intros; exact I
        | eapply Sim_bind;
          [ first [sim_primitive | apply Sim_when_any] | intros ? ? ?; subst ] ].

Section Parsers.

Variables enc1 enc2 : option BufferEncoding.

Lemma Sim_parseGoldSrc (ping : Q) :
  Sim enc1 enc2 any (InfoProtocol.parseGoldSrc ping) (InfoProtocol.parseGoldSrc ping).
Proof. unfold InfoProtocol.parseGoldSrc. repeat sim_step. Qed.

Lemma Sim_players_loop (n : nat) :
  forall acc1 acc2,
    Sim enc1 enc2 any (PlayersProtocol.players_loop n acc1)
        (PlayersProtocol.players_loop n acc2).
Proof.
  induction n as [|n IH]; intros acc1 acc2; cbn [PlayersProtocol.players_loop].
  - now apply Sim_ret.
  - repeat sim_step. apply IH.
Qed.

Lemma Sim_players (ty : Z) (ping : Q) :
  Sim enc1 enc2 any (PlayersProtocol.deserializeResponse ty ping)
      (PlayersProtocol.deserializeResponse ty ping).
Proof.
  unfold PlayersProtocol.deserializeResponse.
  eapply Sim_bind; [apply Sim_readUint8|]. intros a b <-. apply Sim_players_loop.
Qed.

Lemma Sim_rules_loop (n : nat) :
  forall acc1 acc2,
    Sim enc1 enc2 any (RulesProtocol.rules_loop n acc1)
        (RulesProtocol.rules_loop n acc2).
Proof.
  induction n as [|n IH]; intros acc1 acc2; cbn [RulesProtocol.rules_loop].
  - now apply Sim_ret.
  - repeat sim_step. apply IH.
Qed.

Lemma Sim_rules (ty : Z) (ping : Q) :
  Sim enc1 enc2 any (RulesProtocol.deserializeResponse ty ping)
      (RulesProtocol.deserializeResponse ty ping).
Proof.
  unfold RulesProtocol.deserializeResponse.
  eapply Sim_bind; [apply Sim_readUint16|]. intros a b <-. apply Sim_rules_loop.
Qed.

End Parsers.

Section TextModes.

Variables e1 e2 : BufferEncoding.

Lemma Sim_lower_char :
  Sim (Some e1) (Some e2) any
      (c <- readChar ;; lift (call_toLowerCase c))
      (c <- readChar ;; lift (call_toLowerCase c)).
Proof.
  intros r1 r2 H1 H2 Hc. unfold readChar, bind.
  pose proof (@Sim_read (Some e1) (Some e2) 1 r1 r2 H1 H2 Hc) as H.
  destruct (read 1 r1) as [[a|x1] r1'], (read 1 r2) as [[b|x2] r2'];
    try contradiction; [|exact H].
  destruct H as (<- & Hc' & E1 & E2). unfold decoded. rewrite E1, E2.
  cbn. repeat split; try assumption; apply Hc'.
Qed.

Lemma Sim_parseSource (ping : Q) :
  Sim (Some e1) (Some e2) any
      (InfoProtocol.parseSource ping) (InfoProtocol.parseSource ping).
Proof.
  unfold InfoProtocol.parseSource.
  repeat first [ sim_step | eapply Sim_bind; [apply Sim_lower_char|intros ? ? _] ].
Qed.

Lemma Sim_info (ty : Z) (ping : Q) :
  Sim (Some e1) (Some e2) any
      (InfoProtocol.deserializeResponse ty ping)
      (InfoProtocol.deserializeResponse ty ping).
Proof.
  unfold InfoProtocol.deserializeResponse.
  destruct (ty =? A2S_INFO_RESPONSE).
  - eapply Sim_bind; [apply Sim_parseSource|]. intros. now apply Sim_ret.
  - destruct (ty =? A2S_INFO_RESPONSE_LEGACY).
    + eapply Sim_bind; [apply Sim_parseGoldSrc|]. intros. now apply Sim_ret.
    + apply Sim_throw.
Qed.

End TextModes.

Lemma raw_lower_char_never_returns :
  NeverReturns None (c <- readChar ;; lift (call_toLowerCase c)).
Proof.
  intros r Hr. unfold readChar, bind, read.
  destruct (position r + 1 >? Z.of_nat (length (buffer r))); [reflexivity|].
  unfold decoded. cbn [encoding set_position]. rewrite Hr. reflexivity.
Qed.

Lemma raw_parseSource_never_returns (ping : Q) :
  NeverReturns None (InfoProtocol.parseSource ping).
Proof.
  unfold InfoProtocol.parseSource.
  do 9 (apply NeverReturns_bind_r;
        [eapply Sim_Keeps; [reflexivity|sim_primitive]|intros ?]).
  apply NeverReturns_bind_l. apply raw_lower_char_never_returns.
Qed.

(** Where the claim of C9 holds.  Between the two text decodings every
    parser has the same outcome on every response: the same success or the
    same exception, at the same position.  Between any two modes, raw
    included, so have the legacy info parser and the player parser.  The
    rule parser is compared between the text decodings only: in raw mode
    a rule named [__proto__] changes the prototype of the result, which
    no text decoding does. *)
Theorem text_decoding_does_not_affect_parsing
        (data : Buffer) (ty : Z) (ping : Q) :
  (forall e1 e2 : BufferEncoding,
      same_outcome
        (InfoProtocol.deserializeResponse ty ping (new_ByteReader data true (Some e1)))
        (InfoProtocol.deserializeResponse ty ping (new_ByteReader data true (Some e2))) /\
      same_outcome
        (RulesProtocol.deserializeResponse ty ping (new_ByteReader data true (Some e1)))
        (RulesProtocol.deserializeResponse ty ping (new_ByteReader data true (Some e2)))) /\
  (forall enc1 enc2 : option BufferEncoding,
      same_outcome
        (InfoProtocol.parseGoldSrc ping (new_ByteReader data true enc1))
        (InfoProtocol.parseGoldSrc ping (new_ByteReader data true enc2)) /\
      same_outcome
        (PlayersProtocol.deserializeResponse ty ping (new_ByteReader data true enc1))
        (PlayersProtocol.deserializeResponse ty ping (new_ByteReader data true enc2))).
Proof.
  split.
  - intros e1 e2. split.
    + eapply Sim_same_outcome, Sim_info.
    + eapply Sim_same_outcome, Sim_rules.
  - intros enc1 enc2. split.
    + eapply Sim_same_outcome, Sim_parseGoldSrc.
    + eapply Sim_same_outcome, Sim_players.
Qed.

(** In raw mode the modern info parser returns on no input at all. *)
Theorem raw_mode_parseSource_always_throws (data : Buffer) (ping : Q) :
  is_ok (fst (InfoProtocol.parseSource ping (new_ByteReader data true None)))
  = false.
Proof. now apply raw_parseSource_never_returns. Qed.

(** C9 fails on the code.  The response of the end-to-end scenario parses
    under both text decodings, and in raw mode the same bytes make
    [parseSource] throw: [readChar] returns a Buffer there, which has no
    [toLowerCase]. *)
Lemma C9_raw_mode_breaks_parseSource :
  let response := wire_base example_base ++ [0] in
  is_ok (fst (InfoProtocol.parseSource
                0 (new_ByteReader response true (Some utf8)))) = true /\
  is_ok (fst (InfoProtocol.parseSource
                0 (new_ByteReader response true (Some latin1)))) = true /\
  fst (InfoProtocol.parseSource 0 (new_ByteReader response true None))
  = Throw (TypeError "toLowerCase is not a function").
Proof. vm_compute. repeat split. Qed.

(* ===================================================================== *)
(** ** Scenarios                                                          *)
(* ===================================================================== *)

(** The modern info query, end to end: one request, the record of the
    response, a positive ping, and the client closed by the outermost
    call. *)
Example modern_info_end_to_end :
  info no_inflate DEFAULT_RETRIES_value modern_info_server
       (new_A2SClient (Some utf8))
  = (Ok (Source (decoded_info utf8 (Qmake 20 1000) example_base 0 no_optional)),
     mkA2SClient (Some utf8)
                 (mkA2SSocket true []
                              [HEADER_SIMPLE ++ 84 :: lit "Source Engine Query" ++ [0]])
                 true).
Proof. reflexivity. Qed.

(** Two fragments arriving in reverse order resolve one request with the
    payloads in fragment order. *)
Example request_reassembles_fragments :
  Socket.request no_inflate [85; 0; 0; 0; 0] fragmenting_exchange new_A2SSocket
  = (Ok (lit "firstsecond"),
     mkA2SSocket false [] [HEADER_SIMPLE ++ [85; 0; 0; 0; 0]]).
Proof. reflexivity. Qed.

(** Rules: no rule gives the empty mapping; of two pairs with the same key
    the later value stays. *)
Example rules_scenarios :
  fst (RulesProtocol.deserializeResponse
         A2S_RULES_RESPONSE 0 (new_ByteReader [0; 0] true (Some utf8)))
  = Ok [] /\
  fst (RulesProtocol.deserializeResponse
         A2S_RULES_RESPONSE 0
         (new_ByteReader ([2; 0] ++ cstr (lit "k") ++ cstr (lit "a")
                                 ++ cstr (lit "k") ++ cstr (lit "b"))
                         true (Some utf8)))
  = Ok [(lit "k", Str (lit "b"))].
Proof. split; reflexivity. Qed.

(** A player list cut short: the exception of the parser reaches the
    caller of the query. *)
Example truncated_players_surface :
  fst (players no_inflate DEFAULT_RETRIES_value
               (fun _ _ => mkExchange None [HEADER_SIMPLE ++ [68; 1; 0]] 20)
               (new_A2SClient (Some utf8)))
  = Throw (BufferExhaustedError "Cannot read 1 bytes from position 3").
Proof. reflexivity. Qed.

(* ===================================================================== *)
(** ** Binary codec: peeking, characters, strings, sequences              *)
(* ===================================================================== *)

Lemma peek_some_at (r : ByteReader) (l : Buffer) (n : Z) :
  At r l -> 0 <= n -> peek (Some n) r = (Ok (firstn (Z.to_nat n) l), r).
Proof.
  intros Hat Hn. pose proof (At_length Hat) as HL. destruct Hat as [Hp Hs].
  unfold peek. do 2 f_equal.
  destruct (Z.le_gt_cases (position r + n) (Z.of_nat (length (buffer r)))).
  - rewrite Z.min_l by lia. rewrite subarray_within by lia.
    rewrite Hs. f_equal. lia.
  - rewrite Z.min_r by lia. rewrite subarray_to_end by lia.
    rewrite Hs. symmetry. apply firstn_all2. lia.
Qed.

Lemma read_some_at (r : ByteReader) (l : Buffer) (n : Z) :
  At r l -> 0 <= n <= Z.of_nat (length l) ->
  read n r = (Ok (firstn (Z.to_nat n) l), adv r n).
Proof.
  intros Hat Hn.
  rewrite <- (firstn_skipn (Z.to_nat n) l) in Hat.
  pose proof (read_at _ _ Hat) as E.
  rewrite length_firstn, Nat.min_l, Z2Nat.id in E by lia. exact E.
Qed.

(** X1.  [peek] never throws and never moves the reader.  With a size it
    returns the unread bytes up to that size, all of them when fewer are
    left; without one it returns all unread bytes.  Where [read] of the
    same size succeeds it returns the bytes [peek] showed; where fewer
    bytes are left [read] throws and [peek] still answers. *)
Theorem peek_is_clamped_and_leaves_the_reader
        (r : ByteReader) (l : Buffer) (n : Z) :
  At r l -> 0 <= n ->
  peek (Some n) r = (Ok (firstn (Z.to_nat n) l), r) /\
  peek None r = (Ok l, r) /\
  (n <= Z.of_nat (length l) ->
   read n r = (Ok (firstn (Z.to_nat n) l), adv r n)) /\
  (Z.of_nat (length l) < n ->
   read n r = (Throw (exhausted_at n (position r)), r)).
Proof.
  intros Hat Hn. split; [now apply peek_some_at|].
  split; [now apply peek_rest|]. split.
  - intros Hle. apply read_some_at; [assumption|lia].
  - intros Hlt. now apply read_short with (p := l).
Qed.

Lemma peek_is_clamped_witness :
  let r := adv (new_ByteReader [1; 2; 3; 4; 5] true None) 3 in
  peek (Some 4) r = (Ok [4; 5], r) /\
  peek None r = (Ok [4; 5], r) /\
  (4 <= 2 -> read 4 r = (Ok [4; 5], adv r 4)) /\
  (2 < 4 -> read 4 r = (Throw (exhausted_at 4 3), r)).
Proof.
  apply (@peek_is_clamped_and_leaves_the_reader
           (adv (new_ByteReader [1; 2; 3; 4; 5] true None) 3) [4; 5] 4).
  - split; cbn; [lia|reflexivity].
  - lia.
Defined.

Lemma readCString_loop_runs_out (p : list Z) :
  cstring_bytes p ->
  forall fuel acc r,
    (length p < fuel)%nat -> At r p ->
    readCString_loop fuel acc r
    = (Throw (exhausted_at 1 (position r + Z.of_nat (length p))),
       adv r (Z.of_nat (length p))).
Proof.
  induction 1 as [|b p Hb Hp IH]; intros fuel acc r Hf Hat;
    destruct fuel as [|fuel]; try (cbn in Hf; lia);
    cbn [readCString_loop]; unfold bind.
  - rewrite (readUint8_end Hat). cbn [length Z.of_nat].
    now rewrite Z.add_0_r, adv_0.
  - rewrite (readUint8_at Hat).
    destruct (Z.eqb_spec b 0); [contradiction|]. cbn [negb].
    rewrite IH.
    + rewrite adv_adv. cbn [adv set_position position length].
      do 2 f_equal; [f_equal|]; lia.
    + cbn in Hf. lia.
    + rewrite <- (app_nil_r p) in Hat |- *. exact (At_adv [b] _ Hat).
Qed.

Lemma readCString_at (r : ByteReader) (s rest : Buffer) :
  At r (s ++ 0 :: rest) -> cstring_bytes s ->
  readCString r
  = (Ok (text_of (encoding r) s), adv r (Z.of_nat (length s) + 1)).
Proof.
  intros Hat Hs.
  pose proof (proj1 (Parses_readCString (littleEndian r) (encoding r) Hs))
    as H.
  assert (Hat' : At r (cstr s ++ rest))
    by (unfold cstr; rewrite <- app_assoc; exact Hat).
  rewrite (H r rest eq_refl eq_refl Hat'). unfold cstr.
  rewrite length_app. cbn [length]. do 2 f_equal. lia.
Qed.

Lemma readCString_runs_out (r : ByteReader) (l : Buffer) :
  At r l -> cstring_bytes l ->
  readCString r
  = (Throw (exhausted_at 1 (Z.of_nat (length (buffer r)))),
     adv r (Z.of_nat (length l))).
Proof.
  intros Hat Hl. pose proof (At_length Hat) as HL.
  pose proof (proj1 Hat) as Hpos.
  unfold readCString, bind.
  rewrite (@readCString_loop_runs_out l Hl) by (assumption || lia).
  now rewrite HL.
Qed.

(** X2.  [readCString] returns the bytes before the first zero byte,
    decoded, and leaves the reader just past that zero.  When no zero
    byte is left it throws the [BufferExhaustedError] of the read at the
    end of the buffer, and the bytes it went through stay consumed: the
    reader is left at the end of the buffer, not where the call began. *)
Theorem readCString_stops_at_the_first_zero (r : ByteReader) (l : Buffer) :
  At r l ->
  (forall s rest,
      l = s ++ 0 :: rest -> cstring_bytes s ->
      readCString r
      = (Ok (text_of (encoding r) s), adv r (Z.of_nat (length s) + 1))) /\
  (cstring_bytes l ->
   readCString r
   = (Throw (exhausted_at 1 (Z.of_nat (length (buffer r)))),
      adv r (Z.of_nat (length l)))).
Proof.
  intros Hat. split.
  - intros s rest E Hs. subst l. now apply readCString_at with rest.
  - intros Hl. now apply readCString_runs_out.
Qed.

Lemma readCString_stops_witness :
  let r := new_ByteReader [104; 105; 0; 120; 121] true (Some utf8) in
  (forall s rest,
      [104; 105; 0; 120; 121] = s ++ 0 :: rest -> cstring_bytes s ->
      readCString r
      = (Ok (text_of (encoding r) s), adv r (Z.of_nat (length s) + 1))) /\
  (cstring_bytes [104; 105; 0; 120; 121] ->
   readCString r
   = (Throw (exhausted_at 1 (Z.of_nat (length (buffer r)))),
      adv r (Z.of_nat (length [104; 105; 0; 120; 121])))).
Proof.
  apply (@readCString_stops_at_the_first_zero
           (new_ByteReader [104; 105; 0; 120; 121] true (Some utf8))
           [104; 105; 0; 120; 121]).
  apply At_new.
Defined.

Lemma readInt8_at (r : ByteReader) (b : Z) (rest : list Z) :
  At r (b :: rest) -> readInt8 r = (Ok (to_signed 8 b), adv r 1).
Proof.
  intros Hat. unfold readInt8, bind. rewrite (read1_at Hat).
  cbn. now rewrite Z.add_0_r.
Qed.

Lemma to_signed_byte (b : Z) :
  is_byte b -> to_signed 8 b = if b <? 128 then b else b - 256.
Proof.
  intros Hb. unfold to_signed, is_byte in *.
  rewrite (@testbit_top 8 b) by (cbn; lia).
  change (2 ^ (8 - 1)) with 128. change (2 ^ 8) with 256.
  destruct (Z.leb_spec 128 b), (Z.ltb_spec b 128); lia || reflexivity.
Qed.

(** X3.  One byte read as a signed integer is the byte itself below 0x80
    and the byte minus 256 from 0x80 on; read as a boolean it is true for
    every byte but zero, not only for 1. *)
Theorem readBool_is_true_of_every_nonzero_byte
        (r : ByteReader) (b : Z) (rest : Buffer) :
  At r (b :: rest) -> is_byte b ->
  readInt8 r = (Ok (if b <? 128 then b else b - 256), adv r 1) /\
  readBool r = (Ok (negb (b =? 0)), adv r 1).
Proof.
  intros Hat Hb. pose proof (to_signed_byte Hb) as E. split.
  - rewrite (readInt8_at Hat). now rewrite E.
  - unfold readBool, bind. rewrite (readInt8_at Hat), E.
    unfold ret, is_byte in *. do 3 f_equal.
    destruct (Z.ltb_spec b 128), (Z.eqb_spec b 0);
      destruct (Z.eqb_spec (b - 256) 0); lia || reflexivity.
Qed.

Lemma readBool_nonzero_witness :
  let r := new_ByteReader [255; 7] true None in
  readInt8 r = (Ok (-1), adv r 1) /\
  readBool r = (Ok true, adv r 1).
Proof.
  apply (@readBool_is_true_of_every_nonzero_byte
           (new_ByteReader [255; 7] true None) 255 [7]).
  - apply At_new.
  - unfold is_byte. lia.
Defined.

Lemma utf8_single_byte (b : Z) :
  is_byte b ->
  Buffer_toString utf8 [b] = [if b <? 128 then b else REPLACEMENT].
Proof.
  unfold is_byte. intros Hb. unfold Buffer_toString.
  cbn [utf8_decode_from utf8_init remaining]. unfold utf8_start.
  destruct (Z.leb_spec b 127).
  - destruct (Z.ltb_spec b 128); [|lia].
    cbn [app utf8_decode_from utf8_init remaining flat_map].
    unfold utf16_units. destruct (Z.ltb_spec b 65536); [reflexivity|lia].
  - destruct (Z.ltb_spec b 128); [lia|].
    destruct ((194 <=? b) && (b <=? 223)); [reflexivity|].
    destruct ((224 <=? b) && (b <=? 239)); [reflexivity|].
    destruct ((240 <=? b) && (b <=? 244)); reflexivity.
Qed.

(** X4.  [readChar] consumes one byte.  In raw mode it returns that byte
    as a one-byte Buffer and under latin1 as the character with that code;
    under UTF-8 it returns the character for a byte below 0x80 and U+FFFD
    for every other byte, since one byte of a longer sequence is decoded
    on its own. *)
Theorem readChar_decodes_one_byte_on_its_own
        (r : ByteReader) (b : Z) (rest : Buffer) :
  At r (b :: rest) -> is_byte b ->
  readChar r = (Ok (char_of (encoding r) b), adv r 1).
Proof.
  intros Hat Hb. unfold readChar, bind. rewrite (read1_at Hat).
  unfold decoded, char_of. cbn [adv set_position encoding].
  destruct (encoding r) as [[|]|]; try reflexivity.
  now rewrite utf8_single_byte.
Qed.

Lemma readChar_one_byte_witness :
  let r := new_ByteReader [233; 0] true (Some utf8) in
  readChar r = (Ok (Str [REPLACEMENT]), adv r 1).
Proof.
  apply (@readChar_decodes_one_byte_on_its_own
           (new_ByteReader [233; 0] true (Some utf8)) 233 [0]).
  - apply At_new.
  - unfold is_byte. lia.
Defined.

(** *** Sequences *)

Lemma toBuffer_write (data : Buffer) (w : ByteWriter) :
  toBuffer (write data w) = toBuffer w ++ data.
Proof.
  unfold toBuffer, write. cbn [buffers].
  rewrite concat_app. cbn [concat]. now rewrite app_nil_r.
Qed.

Lemma Reads_map {A B} (le : bool) (enc : option BufferEncoding)
      (m : Reader A) (f : A -> B) (l : Buffer) (a : A) :
  Reads le enc m l a -> Reads le enc (x <- m ;; ret (f x)) l (f a).
Proof.
  intros H. rewrite <- (app_nil_r l).
  apply Reads_bind with a; [assumption|apply Reads_ret].
Qed.

Lemma Appends_int (le : bool) (enc : option BufferEncoding)
      (k : Primitive) (v : Z) (n : nat) (signed : bool)
      (f : Z -> ByteWriter -> Result ByteWriter) :
  (forall w, write_value k (VInt v) w = f v w) ->
  (forall w, f v w
             = rbind ((if signed then writeInt else writeUInt)
                        n (negb (w_littleEndian w)) v)
                     (fun b => Ok (write b w))) ->
  (if signed then - 2 ^ (8 * Z.of_nat n - 1) <= v < 2 ^ (8 * Z.of_nat n - 1)
   else 0 <= v < 2 ^ (8 * Z.of_nat n)) ->
  Appends le enc k (VInt v) (field le n v).
Proof.
  intros Hk Hf Hv w Hle Henc. rewrite Hk, Hf, Hle.
  destruct signed.
  - rewrite (writeInt_field le n Hv). cbn [rbind].
    eexists. split; [reflexivity|]. rewrite toBuffer_write. auto.
  - rewrite (writeUInt_field le n Hv). cbn [rbind].
    eexists. split; [reflexivity|]. rewrite toBuffer_write. auto.
Qed.

Lemma Appends_int8 (le : bool) (enc : option BufferEncoding)
      (k : Primitive) (v : Z) (signed : bool)
      (f : Z -> ByteWriter -> Result ByteWriter) :
  (forall w, write_value k (VInt v) w = f v w) ->
  (forall w, f v w
             = rbind ((if signed then writeInt else writeUInt) 1%nat false v)
                     (fun b => Ok (write b w))) ->
  (if signed then - 2 ^ 7 <= v < 2 ^ 7 else 0 <= v < 2 ^ 8) ->
  Appends le enc k (VInt v) (le_bytes 1 v).
Proof.
  intros Hk Hf Hv w Hle Henc. rewrite Hk, Hf.
  destruct signed.
  - pose proof (@writeInt_field true 1 v Hv) as E. cbn [negb] in E.
    rewrite E. cbn [rbind field].
    eexists. split; [reflexivity|]. rewrite toBuffer_write. auto.
  - pose proof (@writeUInt_field true 1 v Hv) as E. cbn [negb] in E.
    rewrite E. cbn [rbind field].
    eexists. split; [reflexivity|]. rewrite toBuffer_write. auto.
Qed.

Lemma writeCString_appends (le : bool) (enc : option BufferEncoding)
      (t : Text) (bs : Buffer) :
  (forall w, w_encoding w = enc ->
             match t with Str s => encoded s w | Buf b => b end = bs) ->
  Appends le enc CString (VText t) (cstr bs).
Proof.
  intros Hbs w Hle Henc. cbn [write_value]. unfold writeCString, writeUint8.
  rewrite (Hbs w Henc).
  pose proof (@writeUInt_field true 1 0 ltac:(cbn; lia)) as E.
  cbn [negb] in E. rewrite E. cbn [rbind field le_bytes Z.land].
  eexists. split; [reflexivity|].
  rewrite !toBuffer_write. unfold cstr. rewrite app_assoc. auto.
Qed.

(** One representable value: what its write appends is what its read
    consumes. *)
Lemma write_then_read (le : bool) (enc : option BufferEncoding)
      (k : Primitive) (v : Value) :
  representable enc k v ->
  exists bs, Appends le enc k v bs /\ Reads le enc (read_value k) bs v.
Proof.
  destruct k, v as [v|b|[s|b]]; cbn [representable]; try contradiction;
    intros H; cbn [read_value].
  - exists (le_bytes 1 v). split.
    + apply (@Appends_int8 le enc Int8 v true writeInt8); auto.
    + apply Reads_map, Parses_readInt8. cbn in H. lia.
  - exists (le_bytes 1 v). split.
    + apply (@Appends_int8 le enc Uint8 v false writeUint8); auto.
    + apply Reads_map.
      change (le_bytes 1 v) with [Z.land v (Z.ones 8)].
      rewrite Z.land_ones, Z.mod_small by lia. apply Parses_readUint8.
  - exists (field le 2 v). split.
    + apply (@Appends_int le enc Int16 v 2 true writeInt16); auto.
    + now apply Reads_map, Parses_readInt16.
  - exists (field le 2 v). split.
    + apply (@Appends_int le enc Uint16 v 2 false writeUint16); auto.
    + now apply Reads_map, Parses_readUint16.
  - exists (field le 4 v). split.
    + apply (@Appends_int le enc Int32 v 4 true writeInt32); auto.
    + now apply Reads_map, Parses_readInt32.
  - exists (field le 4 v). split.
    + apply (@Appends_int le enc Uint32 v 4 false writeUint32); auto.
    + now apply Reads_map, Parses_readUint32.
  - exists (field le 8 v). split.
    + apply (@Appends_int le enc Int64 v 8 true writeInt64); auto.
    + now apply Reads_map, Parses_readInt64.
  - exists (field le 8 v). split.
    + apply (@Appends_int le enc Uint64 v 8 false writeUint64); auto.
    + now apply Reads_map, Parses_readUint64.
  - exists [if b then 1 else 0]. split.
    + intros w Hle Henc. cbn [write_value]. unfold writeBool, writeInt8.
      pose proof (@writeInt_field true 1 (if b then 1 else 0)
                    ltac:(destruct b; cbn; lia)) as E.
      cbn [negb] in E. rewrite E. cbn [rbind field].
      eexists. split; [reflexivity|]. rewrite toBuffer_write.
      split; [|auto]. now destruct b.
    + apply Reads_map, Parses_readBool.
  - destruct enc as [e|]; [|contradiction].
    destruct (@representable_string_round_trip e s H) as [Hrt Hnz].
    exists (cstr (Buffer_from s e)). split.
    + apply writeCString_appends. intros w Henc. unfold encoded.
      now rewrite Henc.
    + rewrite <- Hrt at 2.
      apply (@Reads_map _ _ le (Some e) readCString VText).
      now apply Parses_readCString.
  - destruct H as (-> & Hb & Hnz). exists (cstr b). split.
    + now apply writeCString_appends.
    + apply (@Reads_map _ _ le None readCString VText).
      now apply Parses_readCString.
Qed.

Lemma write_all_then_read_all (le : bool) (enc : option BufferEncoding)
      (items : list (Primitive * Value)) :
  Forall (fun kv => representable enc (fst kv) (snd kv)) items ->
  exists bs,
    (forall w, w_littleEndian w = le -> w_encoding w = enc ->
               exists w', write_all items w = Ok w' /\
                          toBuffer w' = toBuffer w ++ bs) /\
    Reads le enc (read_all (map fst items)) bs (map snd items).
Proof.
  induction 1 as [|[k v] items Hkv _ (bs & IHw & IHr)].
  - exists []. split.
    + intros w _ _. exists w. split; [reflexivity|now rewrite app_nil_r].
    + apply Reads_ret.
  - cbn [fst snd] in Hkv.
    destruct (@write_then_read le enc k v Hkv) as (b1 & Hw & Hr).
    exists (b1 ++ bs). split.
    + intros w Hle Henc. cbn [write_all].
      destruct (Hw w Hle Henc) as (w1 & -> & Hb1 & Hle1 & Henc1).
      cbn [rbind].
      destruct (IHw w1 Hle1 Henc1) as (w2 & -> & Hb2).
      exists w2. split; [reflexivity|]. now rewrite Hb2, Hb1, app_assoc.
    + cbn [map fst snd read_all].
      apply Reads_bind with v; [assumption|].
      now apply Reads_map.
Qed.

(** X5.  Writes compose: a run of representable values written through
    one writer, in any mix of primitives, is written without an
    exception, and a reader with the same byte order and text mode over
    [toBuffer()] reads the same values back, in order, ending exactly at
    the end of the buffer. *)
Theorem written_sequence_reads_back
        (le : bool) (enc : option BufferEncoding)
        (items : list (Primitive * Value)) :
  Forall (fun kv => representable enc (fst kv) (snd kv)) items ->
  exists w,
    write_all items (new_ByteWriter le enc) = Ok w /\
    read_all (map fst items) (new_ByteReader (toBuffer w) le enc)
    = (Ok (map snd items),
       adv (new_ByteReader (toBuffer w) le enc)
           (Z.of_nat (length (toBuffer w)))).
Proof.
  intros H. destruct (@write_all_then_read_all le enc items H) as (bs & Hw & Hr).
  destruct (Hw (new_ByteWriter le enc) eq_refl eq_refl) as (w & E & Hb).
  exists w. split; [exact E|].
  change (toBuffer (new_ByteWriter le enc)) with (@nil Z) in Hb.
  cbn [app] in Hb. rewrite Hb.
  apply (Hr (new_ByteReader bs le enc) []); try reflexivity.
  rewrite app_nil_r. apply At_new.
Qed.

Lemma written_sequence_witness :
  exists w,
    write_all [(Uint8, VInt 73); (CString, VText (Str (lit "de_dust2")));
               (Int32, VInt (-5)); (Bool, VBool true)]
              (new_ByteWriter true (Some utf8)) = Ok w /\
    read_all [Uint8; CString; Int32; Bool]
             (new_ByteReader (toBuffer w) true (Some utf8))
    = (Ok [VInt 73; VText (Str (lit "de_dust2")); VInt (-5); VBool true],
       adv (new_ByteReader (toBuffer w) true (Some utf8))
           (Z.of_nat (length (toBuffer w)))).
Proof.
  apply (@written_sequence_reads_back true (Some utf8)
           [(Uint8, VInt 73); (CString, VText (Str (lit "de_dust2")));
            (Int32, VInt (-5)); (Bool, VBool true)]).
  repeat constructor; cbn; try lia; discriminate.
Defined.

(* ===================================================================== *)
(** ** Fragment codec: the header                                         *)
(* ===================================================================== *)

Section FragmentHeader.

Variable inflateSync : Buffer -> Result Buffer.

Lemma readUint32_short (r : ByteReader) (p : list Z) :
  At r p -> (length p < 4)%nat ->
  readUint32 r = (Throw (exhausted_at 4 (position r)), r).
Proof.
  intros Hat Hp. unfold readUint32, bind.
  now rewrite (read_short Hat) by lia.
Qed.

Lemma readUint16_short (r : ByteReader) (p : list Z) :
  At r p -> (length p < 2)%nat ->
  readUint16 r = (Throw (exhausted_at 2 (position r)), r).
Proof.
  intros Hat Hp. unfold readUint16, bind.
  now rewrite (read_short Hat) by lia.
Qed.

(** The four header reads of [decodeFragment], and what is left to do
    after them. *)
Lemma decodeFragment_header (m4 t2 rest : Buffer) (c i : Z) :
  length m4 = 4%nat -> length t2 = 2%nat ->
  exists r,
    At r rest /\ littleEndian r = true /\ position r = 8 /\
    decodeFragment inflateSync (m4 ++ [c] ++ [i] ++ t2 ++ rest)
    = fst ((if isCompressed (new_A2SFragment (le_value m4) c i (le_value t2))
            then
              decompressedSize <- readUint32 ;;
              crc <- readUint32 ;;
              compressedData <- peek None ;;
              ret (mkA2SFragment (le_value m4) c i (le_value t2)
                                 decompressedSize crc
                                 match inflateSync compressedData with
                                 | Ok inflated => inflated
                                 | Throw _ => compressedData
                                 end)
            else
              payload <- peek None ;;
              ret (mkA2SFragment (le_value m4) c i (le_value t2) 0 0 payload))
             r).
Proof.
  intros Hm Ht. unfold decodeFragment, decodeFragment_body.
  pose proof (At_new (m4 ++ [c] ++ [i] ++ t2 ++ rest) true (Some utf8)) as Hat.
  set (r := new_ByteReader _ _ _) in *.
  unfold bind at 1. rewrite (readUint32_raw_at _ _ Hat Hm eq_refl).
  apply At_adv in Hat. rewrite Hm in Hat.
  cbn [Z.of_nat Pos.of_succ_nat Pos.succ] in Hat.
  unfold bind at 1. rewrite (readUint8_at Hat). apply (At_adv [c]) in Hat.
  change (Z.of_nat (length [c])) with 1 in Hat.
  unfold bind at 1. rewrite (readUint8_at Hat). apply (At_adv [i]) in Hat.
  change (Z.of_nat (length [i])) with 1 in Hat.
  unfold bind at 1.
  rewrite (readUint16_raw_at _ _ Hat Ht eq_refl).
  apply At_adv in Hat. rewrite Ht in Hat.
  cbn [Z.of_nat Pos.of_succ_nat Pos.succ] in Hat.
  eexists. split; [exact Hat|]. split; [reflexivity|]. split; reflexivity.
Qed.

Lemma decodeFragment_short_header (data : Buffer) :
  (length data < 8)%nat ->
  exists msg,
    decodeFragment inflateSync data = Throw (BufferExhaustedError msg).
Proof.
  intros Hlen.
  do 8 (destruct data as [|? data];
        [eexists; vm_compute; reflexivity|]).
  cbn [length] in Hlen. lia.
Qed.

Lemma decodeFragment_short_compressed (m4 t2 rest : Buffer) (c i : Z) :
  length m4 = 4%nat -> length t2 = 2%nat ->
  Z.land (le_value m4) (Z.shiftl 1 15) <> 0 ->
  (length rest < 8)%nat ->
  exists position,
    decodeFragment inflateSync (m4 ++ [c] ++ [i] ++ t2 ++ rest)
    = Throw (exhausted_at 4 position).
Proof.
  intros Hm Ht Hbit Hlen.
  destruct (@decodeFragment_header m4 t2 rest c i Hm Ht) as (r & Hat & Hle & Hpos & ->).
  unfold isCompressed, new_A2SFragment. cbn [messageId].
  destruct (Z.eqb_spec (Z.land (le_value m4) (Z.shiftl 1 15)) 0);
    [contradiction|]. cbn [negb].
  destruct (Nat.lt_ge_cases (length rest) 4) as [H4|H4].
  - unfold bind at 1. rewrite (readUint32_short Hat H4).
    cbn [fst]. eexists. reflexivity.
  - rewrite <- (firstn_skipn 4 rest) in Hat.
    assert (Hd : length (firstn 4 rest) = 4%nat)
      by (rewrite length_firstn; lia).
    unfold bind at 1. rewrite (readUint32_raw_at _ _ Hat Hd Hle).
    apply At_adv in Hat. rewrite Hd in Hat.
    cbn [Z.of_nat Pos.of_succ_nat Pos.succ] in Hat.
    unfold bind at 1. rewrite (readUint32_short Hat).
    + cbn [fst]. eexists. reflexivity.
    + rewrite length_skipn. lia.
Qed.

End FragmentHeader.

(** The first eight bytes of a datagram split off. *)
Lemma split_header (data : Buffer) :
  (8 <= length data)%nat ->
  exists m4 c i t2 rest,
    data = m4 ++ [c] ++ [i] ++ t2 ++ rest /\
    length m4 = 4%nat /\ length t2 = 2%nat /\
    m4 = firstn 4 data /\ c = nth 4 data 0 /\ i = nth 5 data 0 /\
    t2 = firstn 2 (skipn 6 data) /\ rest = skipn 8 data.
Proof.
  intros Hlen.
  do 8 (destruct data as [|? data]; [cbn in Hlen; lia|]).
  match goal with
  | |- context [?a :: ?b :: ?c :: ?d :: ?cnt :: ?id :: ?t0 :: ?t1 :: data] =>
      exists [a; b; c; d], cnt, id, [t0; t1], data
  end.
  repeat split.
Qed.

(** X6.  [decodeFragment] throws on exactly the datagrams that are too
    short for their header: fewer than eight bytes, or fewer than sixteen
    when bit 15 of the message id announces compression.  What it throws
    then is the [BufferExhaustedError]; on every other datagram it
    returns, whatever [inflateSync] does. *)
Theorem decodeFragment_fails_only_on_a_short_header
        (inflateSync : Buffer -> Result Buffer) (data : Buffer) :
  (is_ok (decodeFragment inflateSync data) = true <->
   (8 <= length data)%nat /\
   (Z.land (le_value (firstn 4 data)) (Z.shiftl 1 15) <> 0 ->
    (16 <= length data)%nat)) /\
  (forall e, decodeFragment inflateSync data = Throw e ->
             instanceof_BufferExhaustedError e = true).
Proof.
  destruct (Nat.lt_ge_cases (length data) 8) as [Hshort|Hlong].
  - destruct (@decodeFragment_short_header inflateSync data Hshort)
      as (msg & ->).
    split; [split; [discriminate|lia]|]. now intros e [= <-].
  - destruct (@split_header data Hlong)
      as (m4 & c & i & t2 & rest & E & Hm & Ht & <- & _ & _ & _ & Hrest).
    assert (Hlen : length data = (8 + length rest)%nat).
    { rewrite E, !length_app, Hm, Ht. cbn [length]. lia. }
    rewrite Hlen. clear Hlen Hrest. rewrite E. clear E.
    destruct (Z.eq_dec (Z.land (le_value m4) (Z.shiftl 1 15)) 0) as [Hbit|Hbit].
    + rewrite (@decodeFragment_plain inflateSync m4 t2 rest c i Hm Ht Hbit).
      split; [split; [intros _; split; [lia|contradiction]|reflexivity]|].
      discriminate.
    + destruct (Nat.lt_ge_cases (length rest) 8) as [Hr|Hr].
      * destruct (@decodeFragment_short_compressed inflateSync m4 t2 rest c i
                    Hm Ht Hbit Hr) as (pos & ->).
        split; [split; [discriminate|]|now intros e [= <-]].
        intros [_ H]. specialize (H Hbit). lia.
      * assert (Hd : length (firstn 4 rest) = 4%nat)
          by (rewrite length_firstn; lia).
        assert (Hk : length (firstn 4 (skipn 4 rest)) = 4%nat)
          by (rewrite length_firstn, length_skipn; lia).
        pose proof (@decodeFragment_compressed inflateSync m4 t2
                      (firstn 4 rest) (firstn 4 (skipn 4 rest))
                      (skipn 4 (skipn 4 rest)) c i Hm Ht Hd Hk Hbit) as Ec.
        rewrite !firstn_skipn in Ec. rewrite Ec.
        split; [split; [intros _; split; lia|reflexivity]|].
        discriminate.
Qed.

(** X7.  An uncompressed fragment datagram (bit 15 of the message id
    clear, at least the eight header bytes) decodes to the little-endian
    message id of bytes 0-3, the count of byte 4, the id of byte 5, the
    little-endian packet size of bytes 6-7, and everything from byte 8 on
    as the payload; [decompressedSize] and [crc] keep their default 0 and
    [inflateSync] is not consulted. *)
Theorem decodeFragment_reads_the_header_fields
        (inflateSync : Buffer -> Result Buffer) (data : Buffer) :
  (8 <= length data)%nat ->
  Z.land (le_value (firstn 4 data)) (Z.shiftl 1 15) = 0 ->
  decodeFragment inflateSync data
  = Ok (mkA2SFragment (le_value (firstn 4 data)) (nth 4 data 0) (nth 5 data 0)
                      (le_value (firstn 2 (skipn 6 data))) 0 0 (skipn 8 data)).
Proof.
  intros Hlen Hbit.
  destruct (@split_header data Hlen)
    as (m4 & c & i & t2 & rest & E & Hm & Ht & Em & <- & <- & <- & <-).
  rewrite <- Em in *. rewrite E at 1. now apply decodeFragment_plain.
Qed.

Lemma decodeFragment_header_witness :
  decodeFragment no_inflate ([123; 0; 0; 0; 2; 1; 176; 4] ++ lit "payload")
  = Ok (mkA2SFragment 123 2 1 1200 0 0 (lit "payload")).
Proof.
  apply (@decodeFragment_reads_the_header_fields no_inflate
           ([123; 0; 0; 0; 2; 1; 176; 4] ++ lit "payload")).
  - cbn. lia.
  - reflexivity.
Defined.

(** X8.  A compressed fragment datagram (bit 15 set, at least sixteen
    bytes) whose remaining bytes [inflateSync] accepts decodes to the
    fragment whose payload is what [inflateSync] returned; the declared
    [decompressedSize] and [crc] of bytes 8-11 and 12-15 are recorded and
    checked against nothing, so the payload stands whatever they say. *)
Theorem decodeFragment_keeps_what_inflate_returns
        (inflateSync : Buffer -> Result Buffer) (data out : Buffer) :
  (16 <= length data)%nat ->
  Z.land (le_value (firstn 4 data)) (Z.shiftl 1 15) <> 0 ->
  inflateSync (skipn 16 data) = Ok out ->
  decodeFragment inflateSync data
  = Ok (mkA2SFragment (le_value (firstn 4 data)) (nth 4 data 0) (nth 5 data 0)
                      (le_value (firstn 2 (skipn 6 data)))
                      (le_value (firstn 4 (skipn 8 data)))
                      (le_value (firstn 4 (skipn 12 data)))
                      out).
Proof.
  intros Hlen Hbit Hout.
  do 16 (destruct data as [|? data]; [cbn in Hlen; lia|]).
  cbn [firstn skipn nth] in *.
  match goal with
  | |- context [decodeFragment _ (?a :: ?b :: ?c :: ?d :: ?cnt :: ?id :: ?t0 :: ?t1
                                    :: ?d0 :: ?d1 :: ?d2 :: ?d3
                                    :: ?k0 :: ?k1 :: ?k2 :: ?k3 :: data)] =>
      pose proof (@decodeFragment_compressed inflateSync
                    [a; b; c; d] [t0; t1] [d0; d1; d2; d3] [k0; k1; k2; k3]
                    data cnt id eq_refl eq_refl eq_refl eq_refl Hbit) as E
  end.
  cbn [app] in E. now rewrite Hout in E.
Qed.

Lemma decodeFragment_inflated_witness :
  decodeFragment (fun _ => Ok (lit "inflated"))
                 ([123; 128; 0; 0; 4; 2; 176; 4; 99; 0; 0; 0; 120; 86; 52; 18]
                    ++ lit "deflated")
  = Ok (mkA2SFragment 32891 4 2 1200 99 305419896 (lit "inflated")).
Proof.
  apply (@decodeFragment_keeps_what_inflate_returns
           (fun _ => Ok (lit "inflated"))
           ([123; 128; 0; 0; 4; 2; 176; 4; 99; 0; 0; 0; 120; 86; 52; 18]
              ++ lit "deflated")
           (lit "inflated")).
  - cbn. lia.
  - vm_compute. discriminate.
  - reflexivity.
Defined.

(* ===================================================================== *)
(** ** Transport: datagrams and requests                                  *)
(* ===================================================================== *)

Section TransportFacts.

Variable inflateSync : Buffer -> Result Buffer.

Lemma header_of (h data : Buffer) :
  length h = 4%nat ->
  subarray (h ++ data) 0 4 = h /\ subarray_from (h ++ data) 4 = data.
Proof.
  intros Hh. split.
  - rewrite subarray_within by (rewrite ?length_app; lia).
    replace (Z.to_nat (4 - 0)) with (length h) by (now rewrite Hh).
    change (Z.to_nat 0) with 0%nat. cbn [skipn].
    rewrite firstn_app, firstn_all, Nat.sub_diag. cbn [firstn].
    apply app_nil_r.
  - unfold subarray_from. rewrite subarray_to_end by lia.
    replace (Z.to_nat 4) with (length h) by (now rewrite Hh).
    rewrite skipn_app, skipn_all, Nat.sub_diag. reflexivity.
Qed.

Lemma handleMessage_multi (data : Buffer) (s : A2SSocket) :
  handleMessage inflateSync (HEADER_MULTI ++ data) s
  = handleMultiPacket inflateSync data s.
Proof.
  unfold handleMessage.
  destruct (Z.ltb_spec (Z.of_nat (length (HEADER_MULTI ++ data))) 4) as [H|_].
  { rewrite length_app in H. cbn [length HEADER_MULTI] in H. lia. }
  destruct (@header_of HEADER_MULTI data eq_refl) as [-> ->].
  reflexivity.
Qed.

End TransportFacts.

(** X9.  [handleMessage] sorts a datagram by its first four bytes: fewer
    than four bytes are reported as "Packet too short"; after the simple
    header the rest of the datagram is delivered as it is; a header that
    is neither the simple nor the multi-packet one is reported with its
    eight hex digits.  None of these touches the transport, and no
    datagram at all, fragments included, closes it or makes it send. *)
Theorem handleMessage_sorts_by_header
        (inflateSync : Buffer -> Result Buffer) (packet : Buffer)
        (s : A2SSocket) :
  ((length packet < 4)%nat ->
   handleMessage inflateSync packet s
   = (Ok (Some (EmitError (BrokenMessageError "Packet too short"))), s)) /\
  (forall data,
      packet = HEADER_SIMPLE ++ data ->
      handleMessage inflateSync packet s = (Ok (Some (EmitData data)), s)) /\
  (forall h data,
      packet = h ++ data -> length h = 4%nat ->
      h <> HEADER_SIMPLE -> h <> HEADER_MULTI ->
      handleMessage inflateSync packet s
      = (Ok (Some (EmitError
                     (BrokenMessageError
                        ("Invalid packet header: "
                           ++ String.concat "" (map show_hex2 h))))), s)) /\
  closed (snd (handleMessage inflateSync packet s)) = closed s /\
  sent (snd (handleMessage inflateSync packet s)) = sent s.
Proof.
  split; [|split; [|split]].
  - intros Hlen. unfold handleMessage.
    destruct (Z.ltb_spec (Z.of_nat (length packet)) 4); [reflexivity|lia].
  - intros data ->. apply handleMessage_simple.
  - intros h data -> Hh Hs Hm. unfold handleMessage.
    destruct (Z.ltb_spec (Z.of_nat (length (h ++ data))) 4) as [H|_].
    { rewrite length_app in H. lia. }
    destruct (@header_of h data Hh) as [-> _].
    destruct (Buffer_equals h HEADER_SIMPLE) eqn:E1;
      [apply Buffer_equals_iff in E1; contradiction|].
    destruct (Buffer_equals h HEADER_MULTI) eqn:E2;
      [apply Buffer_equals_iff in E2; contradiction|].
    reflexivity.
  - apply handleMessage_keeps.
Qed.

(** X10.  One [request] hands at most one datagram to the UDP socket, the
    payload behind the simple header.  On a closed transport it sends
    nothing and ends in "Request timeout"; when the transmission fails it
    sends nothing, closes the transport and fails with the error of the
    transmission; otherwise exactly that datagram goes out and the
    transport stays open, whatever arrives. *)
Theorem request_sends_one_datagram_or_none
        (inflateSync : Buffer -> Result Buffer) (payload : Buffer)
        (ex : Exchange) (s : A2SSocket) :
  let res := Socket.request inflateSync payload ex s in
  (closed s = true ->
   res = (Throw (Error "Request timeout"), s)) /\
  (closed s = false ->
   forall err, send_error ex = Some err ->
               fst res = Throw err /\ closed (snd res) = true /\
               sent (snd res) = sent s) /\
  (closed s = false -> send_error ex = None ->
   closed (snd res) = false /\
   sent (snd res) = sent s ++ [HEADER_SIMPLE ++ payload]).
Proof.
  cbv zeta. unfold Socket.request. split; [|split].
  - intros ->. reflexivity.
  - intros Hopen err ->. rewrite Hopen. unfold Socket.close.
    rewrite Hopen. repeat split.
  - intros Hopen ->. rewrite Hopen.
    match goal with
    | |- context [await _ _ ?s0] =>
        destruct (await_keeps inflateSync (arrivals ex) s0) as [-> ->]
    end.
    split; reflexivity.
Qed.

(* ===================================================================== *)
(** ** Transport: a response in fragments                                 *)
(* ===================================================================== *)

Section SplitFacts.

Variable inflateSync : Buffer -> Result Buffer.
Variables mid mtu : Z.

Lemma number_from_payloads (chunks : list Buffer) :
  forall first count,
    map payload (number_from first count mid mtu chunks) = chunks.
Proof.
  induction chunks as [|c chunks IH]; intros first count;
    cbn [number_from map payload]; [reflexivity|]. now rewrite IH.
Qed.

Lemma number_from_length (chunks : list Buffer) :
  forall first count,
    length (number_from first count mid mtu chunks) = length chunks.
Proof.
  induction chunks as [|c chunks IH]; intros first count;
    cbn [number_from length]; [reflexivity|]. now rewrite IH.
Qed.

Lemma number_from_in (chunks : list Buffer) :
  forall first count f,
    In f (number_from first count mid mtu chunks) ->
    messageId f = mid /\ fragmentCount f = Z.of_nat count /\ mtu = Fragment.mtu f /\
    decompressedSize f = 0 /\ crc f = 0 /\
    Z.of_nat first <= fragmentId f.
Proof.
  induction chunks as [|c chunks IH]; intros first count f;
    cbn [number_from]; [contradiction|].
  intros [<-|Hin]; [cbn; repeat split; lia|].
  destruct (IH _ _ _ Hin) as (? & ? & ? & ? & ? & ?). repeat split; try assumption.
  lia.
Qed.

Lemma number_from_sorted (chunks : list Buffer) :
  forall first count,
    StronglySorted (key_lt fragmentId) (number_from first count mid mtu chunks).
Proof.
  induction chunks as [|c chunks IH]; intros first count;
    cbn [number_from]; constructor; [apply IH|].
  apply Forall_forall. intros f Hin.
  destruct (number_from_in _ _ _ _ Hin) as (_ & _ & _ & _ & _ & H).
  unfold key_lt. cbn [fragmentId]. lia.
Qed.

Lemma strictly_sorted_NoDup (l : list A2SFragment) :
  StronglySorted (key_lt fragmentId) l -> NoDup (map fragmentId l).
Proof.
  induction 1 as [|f l Hs IH Hf]; cbn [map]; constructor; [|assumption].
  intros Hin. apply in_map_iff in Hin. destruct Hin as (g & E & Hg).
  rewrite Forall_forall in Hf. specialize (Hf g Hg). unfold key_lt in Hf. lia.
Qed.

Lemma Array_sort_sorted_id (l : list A2SFragment) :
  StronglySorted (key_lt fragmentId) l ->
  Array_sort (key_compare fragmentId) l = l.
Proof.
  intros Hs. apply strict_sorted_unique with (key := fragmentId).
  - apply sorted_NoDup_strict; [apply Array_sort_sorted|].
    eapply Permutation_NoDup; [|exact (strictly_sorted_NoDup Hs)].
    apply Permutation_map. symmetry. apply Array_sort_perm.
  - exact Hs.
  - apply Array_sort_perm.
Qed.

(** Fragments that do not complete the message are awaited through. *)
Lemma await_pending (l : list A2SFragment) :
  forall (more : list Buffer) (s : A2SSocket),
    (forall f, In f l ->
               decodeFragment inflateSync (fragment_wire f) = Ok f /\
               Z.of_nat (length (fragmentBuffer s) + length l) < fragmentCount f) ->
    await inflateSync (map multi_datagram l ++ more) s
    = await inflateSync more (set_fragmentBuffer s (fragmentBuffer s ++ l)).
Proof.
  induction l as [|f l IH]; intros more s H; cbn [map app await].
  - rewrite app_nil_r. now destruct s.
  - destruct (H f (or_introl eq_refl)) as [Hd Hc].
    unfold multi_datagram at 1. rewrite handleMessage_multi.
    rewrite (handleMultiPacket_decoded _ _ s Hd).
    rewrite handleFragment_pending by (cbn [length] in Hc; lia).
    cbn [fst snd]. rewrite IH.
    + cbn [set_fragmentBuffer fragmentBuffer closed sent].
      now rewrite <- app_assoc.
    + intros g Hg. destruct (H g (or_intror Hg)) as [Hd' Hc'].
      split; [assumption|].
      cbn [set_fragmentBuffer fragmentBuffer length] in *.
      rewrite length_app. cbn [length] in *. lia.
Qed.

End SplitFacts.

(** X11.  A response that arrives in fragments resolves the request like
    the same response in one simple packet.  The message [HEADER_SIMPLE ++
    data] cut into chunks, one uncompressed fragment each, numbered from
    0 and all declaring their number, delivered in any order to a
    transport with nothing pending: the request returns [data], the
    header inside the first chunk stripped, and leaves the transport as
    the simple packet does. *)
Theorem fragmented_response_resolves_like_the_whole
        (inflateSync : Buffer -> Result Buffer)
        (payload data : Buffer) (chunks : list Buffer) (mid mtu elapsed : Z)
        (arrival : list A2SFragment) (s : A2SSocket) :
  closed s = false -> fragmentBuffer s = [] ->
  0 <= mid < 2 ^ 32 -> Z.land mid (Z.shiftl 1 15) = 0 -> 0 <= mtu < 2 ^ 16 ->
  concat chunks = HEADER_SIMPLE ++ data ->
  Permutation arrival (split_message mid mtu chunks) ->
  Socket.request inflateSync payload
                 (mkExchange None (map multi_datagram arrival) elapsed) s
  = (Ok data, mkA2SSocket false [] (sent s ++ [HEADER_SIMPLE ++ payload])) /\
  Socket.request inflateSync payload
                 (mkExchange None [HEADER_SIMPLE ++ data] elapsed) s
  = (Ok data, mkA2SSocket false [] (sent s ++ [HEADER_SIMPLE ++ payload])).
Proof.
  intros Hopen Hbuf Hmid Hbit Hmtu Hcat Hperm.
  unfold Socket.request. rewrite Hopen, Hbuf. cbn [send_error arrivals].
  split; [|cbn [await]; now rewrite handleMessage_simple].
  set (s0 := mkA2SSocket false [] (sent s ++ [HEADER_SIMPLE ++ payload])).
  assert (Hlen : length arrival = length chunks).
  { rewrite (Permutation_length Hperm). apply number_from_length. }
  assert (Hall : forall f, In f arrival ->
                  decodeFragment inflateSync (fragment_wire f) = Ok f /\
                  fragmentCount f = Z.of_nat (length arrival)).
  { intros f Hf. apply (Permutation_in _ Hperm) in Hf.
    destruct (number_from_in _ _ _ _ _ _ Hf) as (Hm & Hc & Ht & Hd & Hk & _).
    split; [|now rewrite Hlen].
    apply decodeFragment_fragment_wire; try assumption.
    - now rewrite Hm.
    - now rewrite <- Ht.
    - unfold isCompressed. rewrite Hm, Hbit. reflexivity. }
  destruct (@exists_last _ arrival) as (init & last & E).
  { intros ->. apply Permutation_nil in Hperm.
    destruct chunks; [discriminate|discriminate]. }
  rewrite E in *. rewrite length_app in Hall. cbn [length] in Hall.
  rewrite map_app. rewrite await_pending.
  2:{ intros f Hf. destruct (Hall f) as [Hd Hc];
        [apply in_or_app; now left|].
      split; [assumption|]. cbn [s0 fragmentBuffer length]. lia. }
  cbn [map await]. unfold multi_datagram. rewrite handleMessage_multi.
  destruct (Hall last) as [Hd Hc]; [apply in_or_app; right; now left|].
  rewrite (handleMultiPacket_decoded _ _ _ Hd).
  rewrite handleFragment_complete
    by (cbn [s0 set_fragmentBuffer fragmentBuffer app]; lia).
  cbn [fst snd s0 set_fragmentBuffer fragmentBuffer closed sent app].
  do 3 f_equal.
  rewrite (@Array_sort_order_independent _ fragmentId
             (split_message mid mtu chunks) (init ++ [last])).
  - rewrite Array_sort_sorted_id by apply number_from_sorted.
    unfold assembled, split_message. rewrite number_from_payloads, Hcat.
    reflexivity.
  - apply strictly_sorted_NoDup, number_from_sorted.
  - exact Hperm.
Qed.

Lemma fragmented_response_witness :
  let f0 := mkA2SFragment 7 2 0 1200 0 0 [255; 255; 255; 255; 68] in
  let f1 := mkA2SFragment 7 2 1 1200 0 0 [0] in
  Socket.request no_inflate [85; 0; 0; 0; 0]
                 (mkExchange None (map multi_datagram [f1; f0]) 5) new_A2SSocket
  = (Ok [68; 0], mkA2SSocket false [] ([] ++ [HEADER_SIMPLE ++ [85; 0; 0; 0; 0]])) /\
  Socket.request no_inflate [85; 0; 0; 0; 0]
                 (mkExchange None [HEADER_SIMPLE ++ [68; 0]] 5) new_A2SSocket
  = (Ok [68; 0], mkA2SSocket false [] ([] ++ [HEADER_SIMPLE ++ [85; 0; 0; 0; 0]])).
Proof.
  apply (@fragmented_response_resolves_like_the_whole
           no_inflate [85; 0; 0; 0; 0] [68; 0] [[255; 255; 255; 255; 68]; [0]]
           7 1200 5
           [mkA2SFragment 7 2 1 1200 0 0 [0];
            mkA2SFragment 7 2 0 1200 0 0 [255; 255; 255; 255; 68]]
           new_A2SSocket); try reflexivity; try lia.
  apply perm_swap.
Defined.

(* ===================================================================== *)
(** ** Query codecs: requests                                             *)
(* ===================================================================== *)

Lemma le_bytes_le_value (l : Buffer) :
  is_bytes l -> le_bytes (length l) (le_value l) = l.
Proof.
  induction 1 as [|b l Hb Hl IH]; [reflexivity|].
  cbn [length le_bytes le_value]. unfold is_byte in Hb.
  rewrite Z.shiftl_mul_pow2, Z.shiftr_div_pow2 by lia.
  change 255 with (Z.ones 8). rewrite Z.land_ones by lia.
  change (2 ^ 8) with 256.
  rewrite Z.mod_add, Z.div_add by lia.
  rewrite Z.mod_small, Z.div_small by lia. cbn [Z.add].
  now rewrite IH.
Qed.

Lemma challengeBuffer_in_range (challenge : Z) :
  0 <= challenge < 2 ^ 32 ->
  challengeBuffer challenge = Ok (le_bytes 4 challenge).
Proof.
  intros H. unfold challengeBuffer.
  pose proof (@writeUInt_field true 4 challenge H) as E.
  cbn [negb field] in E. exact E.
Qed.

(** X12.  The three request payloads, for a challenge of 32 bits: the
    info request is the byte 0x54, the text "Source Engine Query", a zero
    byte and then the challenge in little-endian order, which is left out
    when the challenge is 0; the player and the rule request are the byte
    0x55 or 0x56 and the challenge, always.  The four bytes written read
    back as the challenge, and the challenge read from four bytes of a
    reply is written as those four bytes. *)
Theorem serializeRequest_carries_the_challenge (challenge : Z) :
  0 <= challenge < 2 ^ 32 ->
  InfoProtocol.serializeRequest challenge
  = Ok (84 :: lit "Source Engine Query"
           ++ 0 :: (if challenge =? 0 then [] else le_bytes 4 challenge)) /\
  PlayersProtocol.serializeRequest challenge = Ok (85 :: le_bytes 4 challenge) /\
  RulesProtocol.serializeRequest challenge = Ok (86 :: le_bytes 4 challenge) /\
  readUInt32LE (le_bytes 4 challenge) 0 = Ok challenge /\
  (forall c4, is_bytes c4 -> length c4 = 4%nat -> le_value c4 = challenge ->
              le_bytes 4 challenge = c4).
Proof.
  intros H. pose proof (challengeBuffer_in_range H) as E.
  unfold InfoProtocol.serializeRequest, PlayersProtocol.serializeRequest,
    RulesProtocol.serializeRequest.
  rewrite E. cbn [rbind]. repeat split.
  - destruct (challenge =? 0); reflexivity.
  - exact (@readUInt_le_bytes 4 challenge false H).
  - intros c4 Hb Hl <-. rewrite <- Hl. now apply le_bytes_le_value.
Qed.

Lemma serializeRequest_witness :
  InfoProtocol.serializeRequest 3735928559
  = Ok (84 :: lit "Source Engine Query" ++ 0 :: [239; 190; 173; 222]) /\
  PlayersProtocol.serializeRequest 3735928559 = Ok [85; 239; 190; 173; 222] /\
  RulesProtocol.serializeRequest 3735928559 = Ok [86; 239; 190; 173; 222] /\
  readUInt32LE [239; 190; 173; 222] 0 = Ok 3735928559 /\
  (forall c4, is_bytes c4 -> length c4 = 4%nat -> le_value c4 = 3735928559 ->
              [239; 190; 173; 222] = c4).
Proof.
  apply (@serializeRequest_carries_the_challenge 3735928559). lia.
Defined.

(* ===================================================================== *)
(** ** Query codecs: player lists and rule lists                          *)
(* ===================================================================== *)

Section ListParsers.

Variable enc : option BufferEncoding.

Lemma Parses_readFloat (v : Z) :
  0 <= v < 2 ^ 32 -> Parses true enc readFloat (field true 4 v) v.
Proof. intros H. exact (Parses_readUint32 true enc H). Qed.

Lemma Parses_players_loop (ps : list PlayerFields) :
  Forall valid_player ps ->
  forall acc,
    Parses true enc (PlayersProtocol.players_loop (length ps) acc)
           (concat (map player_wire ps))
           (acc ++ map (decoded_player enc) ps).
Proof.
  induction 1 as [|p ps (Hn & Hs & Hd) _ IH]; intros acc;
    cbn [length PlayersProtocol.players_loop map concat].
  - rewrite app_nil_r. apply Parses_ret.
  - unfold player_wire at 1. rewrite <- !app_assoc.
    eapply Parses_bind; [apply Parses_readUint8|cbv beta].
    eapply Parses_bind; [apply Parses_readCString; assumption|cbv beta].
    eapply Parses_bind; [apply Parses_readInt32; assumption|cbv beta].
    eapply Parses_bind; [apply Parses_readFloat; assumption|cbv beta].
    specialize (IH (acc ++ [decoded_player enc p])).
    rewrite <- app_assoc in IH. exact IH.
Qed.

Lemma Parses_rules_loop (pairs : list (Buffer * Buffer)) :
  Forall (valid_rule enc) pairs ->
  forall acc,
    Parses true enc (RulesProtocol.rules_loop (length pairs) acc)
           (concat (map rule_wire pairs))
           (fold_left (fun rules kv =>
                         set_property rules (rule_key enc (fst kv))
                                      (text_of enc (snd kv)))
                      pairs acc).
Proof.
  induction 1 as [|kv pairs (Hk & Hv & _) _ IH]; intros acc;
    cbn [length RulesProtocol.rules_loop map concat fold_left].
  - apply Parses_ret.
  - unfold rule_wire at 1. rewrite <- !app_assoc.
    eapply Parses_bind; [apply Parses_readCString; assumption|cbv beta].
    eapply Parses_bind; [apply Parses_readCString; assumption|cbv beta].
    apply IH.
Qed.

(** *** The object the rules build *)

Lemma own_property_define (rules : Rules) (k key : JSString) (v : Text) :
  own_property (define_property rules k v) key
  = if list_eq_dec Z.eq_dec k key then Some v else own_property rules key.
Proof.
  induction rules as [|[k0 v0] rules IH]; cbn [define_property own_property].
  - reflexivity.
  - destruct (list_eq_dec Z.eq_dec k0 k) as [->|Hne]; cbn [own_property].
    + destruct (list_eq_dec Z.eq_dec k key); reflexivity.
    + rewrite IH.
      destruct (list_eq_dec Z.eq_dec k0 key) as [->|];
        destruct (list_eq_dec Z.eq_dec k key) as [->|];
        congruence || reflexivity.
Qed.

Lemma define_property_keys (rules : Rules) (k : JSString) (v : Text) :
  NoDup (map fst rules) -> NoDup (map fst (define_property rules k v)) /\
  forall k', In k' (map fst (define_property rules k v)) <->
             k' = k \/ In k' (map fst rules).
Proof.
  induction rules as [|[k0 v0] rules IH]; cbn [define_property map fst].
  - intros _. split; [repeat constructor; intros []|].
    intros k'. cbn. intuition congruence.
  - intros Hnd. inversion Hnd as [|? ? Hnin Hnd']; subst.
    destruct (list_eq_dec Z.eq_dec k0 k) as [->|Hne]; cbn [map fst].
    + split; [assumption|]. intros k'. cbn. intuition congruence.
    + destruct (IH Hnd') as [IHn IHi]. split.
      * constructor; [|assumption]. rewrite IHi. intuition congruence.
      * intros k'. cbn [In]. rewrite IHi. intuition congruence.
Qed.

Lemma rules_fold_keys (pairs : list (Buffer * Buffer)) :
  forall acc,
    NoDup (map fst acc) ->
    NoDup (map fst (fold_left
                      (fun rules kv =>
                         set_property rules (rule_key enc (fst kv))
                                      (text_of enc (snd kv)))
                      pairs acc)).
Proof.
  induction pairs as [|kv pairs IH]; intros acc Hnd; cbn [fold_left];
    [assumption|].
  apply IH. unfold set_property.
  destruct (list_eq_dec Z.eq_dec (rule_key enc (fst kv)) (lit "__proto__"));
    [assumption|now apply define_property_keys].
Qed.

Lemma rules_fold_lookup (pairs : list (Buffer * Buffer)) (key : JSString) :
  Forall (valid_rule enc) pairs ->
  forall acc,
    own_property (fold_left
                    (fun rules kv =>
                       set_property rules (rule_key enc (fst kv))
                                    (text_of enc (snd kv)))
                    pairs acc) key
    = fold_left (fun found kv =>
                   if list_eq_dec Z.eq_dec (rule_key enc (fst kv)) key
                   then Some (text_of enc (snd kv)) else found)
                pairs (own_property acc key).
Proof.
  induction 1 as [|kv pairs (_ & _ & Hkey) _ IH]; intros acc; cbn [fold_left];
    [reflexivity|].
  rewrite IH. unfold set_property.
  destruct (list_eq_dec Z.eq_dec (rule_key enc (fst kv)) (lit "__proto__"));
    [contradiction|].
  now rewrite own_property_define.
Qed.

End ListParsers.

(** X13.  A player response is the count byte and then, per player, the
    index byte, the name as a C string, the score as a signed and the
    duration as a 32-bit field, both little-endian.  The parser returns
    exactly the players announced, in order, whatever follows them in the
    buffer, and a response cut short anywhere inside makes it throw the
    [BufferExhaustedError]: it never returns a shorter list than the
    count byte announced. *)
Theorem players_response_parses
        (enc : option BufferEncoding) (ty : Z) (ping : Q)
        (ps : list PlayerFields) :
  Forall valid_player ps -> (length ps < 256)%nat ->
  Parses true enc (PlayersProtocol.deserializeResponse ty ping)
         (Z.of_nat (length ps) :: concat (map player_wire ps))
         (map (decoded_player enc) ps).
Proof.
  intros Hps _. unfold PlayersProtocol.deserializeResponse.
  change (Z.of_nat (length ps) :: concat (map player_wire ps))
    with ([Z.of_nat (length ps)] ++ concat (map player_wire ps)).
  eapply Parses_bind; [apply Parses_readUint8|cbv beta].
  rewrite Nat2Z.id. exact (Parses_players_loop enc Hps []).
Qed.

Lemma players_response_witness :
  Parses true (Some utf8) (PlayersProtocol.deserializeResponse 68 0)
         ([2; 0] ++ lit "Alice" ++ [0; 10; 0; 0; 0; 0; 0; 128; 63]
             ++ [1] ++ lit "Bob" ++ [0; 255; 255; 255; 255; 0; 0; 0; 64])
         [mkPlayer 0 (Str (lit "Alice")) 10 1065353216;
          mkPlayer 1 (Str (lit "Bob")) (-1) 1073741824].
Proof.
  apply (@players_response_parses (Some utf8) 68 0
           [mkPlayerFields 0 (lit "Alice") 10 1065353216;
            mkPlayerFields 1 (lit "Bob") (-1) 1073741824]).
  - repeat constructor; cbn; try lia; discriminate.
  - cbn. lia.
Defined.

(** X14.  A rule response is the little-endian 16-bit count and then, per
    rule, the name and the value as C strings.  The parser returns the
    object these pairs build, whatever follows them, and throws the
    [BufferExhaustedError] on a response cut short.  In that object every
    name occurs once, and the value under a name is the value of the last
    pair with that name: a later rule replaces an earlier one of the same
    name. *)
Theorem rules_response_parses
        (enc : option BufferEncoding) (ty : Z) (ping : Q)
        (pairs : list (Buffer * Buffer)) :
  Forall (valid_rule enc) pairs -> Z.of_nat (length pairs) < 2 ^ 16 ->
  Parses true enc (RulesProtocol.deserializeResponse ty ping)
         (field true 2 (Z.of_nat (length pairs))
                ++ concat (map rule_wire pairs))
         (rules_of enc pairs) /\
  NoDup (map fst (rules_of enc pairs)) /\
  forall key, own_property (rules_of enc pairs) key = last_value enc pairs key.
Proof.
  intros Hps Hlen. split; [|split].
  - unfold RulesProtocol.deserializeResponse.
    eapply Parses_bind; [apply Parses_readUint16; split; [lia|exact Hlen]|cbv beta].
    rewrite Nat2Z.id. exact (Parses_rules_loop Hps []).
  - apply rules_fold_keys. constructor.
  - intros key. now apply rules_fold_lookup.
Qed.

Lemma rules_response_witness :
  Parses true (Some utf8) (RulesProtocol.deserializeResponse 69 0)
         ([2; 0] ++ cstr (lit "k") ++ cstr (lit "a")
                 ++ cstr (lit "k") ++ cstr (lit "b"))
         [(lit "k", Str (lit "b"))] /\
  NoDup (map fst (rules_of (Some utf8) [(lit "k", lit "a"); (lit "k", lit "b")])) /\
  forall key,
    own_property (rules_of (Some utf8) [(lit "k", lit "a"); (lit "k", lit "b")]) key
    = last_value (Some utf8) [(lit "k", lit "a"); (lit "k", lit "b")] key.
Proof.
  apply (@rules_response_parses (Some utf8) 69 0
           [(lit "k", lit "a"); (lit "k", lit "b")]).
  - repeat constructor; cbn; discriminate.
  - cbn. lia.
Defined.

(* ===================================================================== *)
(** ** Query codecs: the legacy info response                             *)
(* ===================================================================== *)

Section Legacy.

Variable enc : option BufferEncoding.

Lemma ReadsAll_of_Reads {A} (m : Reader A) (l : Buffer) (a : A) :
  Reads true enc m l a -> ReadsAll true enc m l a.
Proof.
  intros H r Hle Henc Hat. apply (H r []); try assumption.
  now rewrite app_nil_r.
Qed.

Lemma ReadsAll_bind {A B} (m : Reader A) (k : A -> Reader B) l1 l2 a b :
  Reads true enc m l1 a -> ReadsAll true enc (k a) l2 b ->
  ReadsAll true enc (bind m k) (l1 ++ l2) b.
Proof.
  intros Hm Hk r Hle Henc Hat. unfold bind.
  rewrite (Hm r l2 Hle Henc Hat).
  rewrite (Hk (adv r (Z.of_nat (length l1))))
    by (try apply At_adv; assumption).
  now rewrite adv_adv, length_app, Nat2Z.inj_add.
Qed.

Lemma ReadsAll_peek {A} (k : Buffer -> Reader A) (l : Buffer) (a : A) :
  ReadsAll true enc (k l) l a ->
  ReadsAll true enc (bind (peek None) k) l a.
Proof.
  intros Hk r Hle Henc Hat. unfold bind.
  rewrite (peek_rest Hat). now apply Hk.
Qed.

Lemma Reads_gold_mod (m : GoldMod) :
  valid_gold_mod m ->
  Reads true enc
        (modWebsite <- readCString ;;
         modDownload <- readCString ;;
         read 1 ;;;
         modVersion <- readUint32 ;;
         modSize <- readUint32 ;;
         multiplayerOnly <- readBool ;;
         usesCustomDll <- readBool ;;
         ret (modWebsite, modDownload, modVersion, modSize,
              multiplayerOnly, usesCustomDll))
        (wire_gold_mod m)
        (text_of enc (gm_website m), text_of enc (gm_download m),
         gm_version m, gm_size m, gm_multiplayerOnly m, gm_usesCustomDll m).
Proof.
  intros (Hw & Hd & Hv & Hs). unfold wire_gold_mod.
  rewrite <- (app_nil_r [byte_of_bool (gm_usesCustomDll m)]).
  eapply Reads_bind; [apply Parses_readCString; assumption|cbv beta].
  eapply Reads_bind; [apply Parses_readCString; assumption|cbv beta].
  eapply Reads_bind.
  { intros r rest _ _ Hat. exact (read_at [gm_skipped m] rest Hat). }
  cbv beta.
  eapply Reads_bind; [apply Parses_readUint32; assumption|cbv beta].
  eapply Reads_bind; [apply Parses_readUint32; assumption|cbv beta].
  eapply Reads_bind; [apply Parses_readBool|cbv beta].
  eapply Reads_bind; [apply Parses_readBool|cbv beta].
  apply Reads_ret.
Qed.

End Legacy.

(** X15.  A legacy info response is the mandatory fields, the mod section
    when the server sends one, and the two closing fields.  The parser
    reads the mod section when the mod flag is set and more than the two
    closing bytes are left; with the flag set and nothing but the two
    closing bytes left it skips the section, and the six mod fields stay
    unset.  Either way the record holds the fields as sent, the server
    type and platform characters unchanged. *)
Theorem legacy_info_response_parses
        (enc : option BufferEncoding) (ping : Q)
        (b : GoldBase) (m : option GoldMod) (vac : bool) (bots : Z) :
  valid_gold_base b -> opt_holds valid_gold_mod m ->
  (is_some m = true -> gb_isMod b = true) ->
  ReadsAll true enc (InfoProtocol.parseGoldSrc ping)
           (wire_gold b m vac bots)
           (decoded_gold enc ping b m vac bots).
Proof.
  intros (Ha & Hn & Hm & Hf & Hg) Hmod Hflag.
  unfold InfoProtocol.parseGoldSrc, wire_gold, wire_gold_base.
  rewrite <- !app_assoc.
  eapply ReadsAll_bind; [apply Parses_readCString; assumption|cbv beta].
  eapply ReadsAll_bind; [apply Parses_readCString; assumption|cbv beta].
  eapply ReadsAll_bind; [apply Parses_readCString; assumption|cbv beta].
  eapply ReadsAll_bind; [apply Parses_readCString; assumption|cbv beta].
  eapply ReadsAll_bind; [apply Parses_readCString; assumption|cbv beta].
  eapply ReadsAll_bind; [apply Parses_readUint8|cbv beta].
  eapply ReadsAll_bind; [apply Parses_readUint8|cbv beta].
  eapply ReadsAll_bind; [apply Parses_readUint8|cbv beta].
  eapply ReadsAll_bind; [apply Parses_readChar|cbv beta].
  eapply ReadsAll_bind; [apply Parses_readChar|cbv beta].
  eapply ReadsAll_bind; [apply Parses_readBool|cbv beta].
  eapply ReadsAll_bind; [apply Parses_readBool|cbv beta].
  apply ReadsAll_peek.
  assert (Htail : forall mod_,
             Reads true enc
               (vacEnabled <- readBool ;;
                botCount <- readUint8 ;;
                ret (mkGoldSrcInfo
                       (text_of enc (gb_address b)) (text_of enc (gb_serverName b))
                       (text_of enc (gb_mapName b)) (text_of enc (gb_folder b))
                       (text_of enc (gb_game b))
                       (gb_playerCount b) (gb_maxPlayers b) (gb_protocol b)
                       (text_of enc [gb_serverType b]) (text_of enc [gb_platform b])
                       (gb_passwordProtected b) (gb_isMod b) vacEnabled botCount ping
                       (option_map (fun '(a, _, _, _, _, _) => a) mod_)
                       (option_map (fun '(_, b, _, _, _, _) => b) mod_)
                       (option_map (fun '(_, _, c, _, _, _) => c) mod_)
                       (option_map (fun '(_, _, _, d, _, _) => d) mod_)
                       (option_map (fun '(_, _, _, _, e, _) => e) mod_)
                       (option_map (fun '(_, _, _, _, _, f) => f) mod_)))
               (wire_gold_tail vac bots)
               (mkGoldSrcInfo
                  (text_of enc (gb_address b)) (text_of enc (gb_serverName b))
                  (text_of enc (gb_mapName b)) (text_of enc (gb_folder b))
                  (text_of enc (gb_game b))
                  (gb_playerCount b) (gb_maxPlayers b) (gb_protocol b)
                  (text_of enc [gb_serverType b]) (text_of enc [gb_platform b])
                  (gb_passwordProtected b) (gb_isMod b) vac bots ping
                  (option_map (fun '(a, _, _, _, _, _) => a) mod_)
                  (option_map (fun '(_, b, _, _, _, _) => b) mod_)
                  (option_map (fun '(_, _, c, _, _, _) => c) mod_)
                  (option_map (fun '(_, _, _, d, _, _) => d) mod_)
                  (option_map (fun '(_, _, _, _, e, _) => e) mod_)
                  (option_map (fun '(_, _, _, _, _, f) => f) mod_))).
  { intros mod_. unfold wire_gold_tail.
    change [byte_of_bool vac; bots] with ([byte_of_bool vac] ++ [bots] ++ []).
    eapply Reads_bind; [apply Parses_readBool|cbv beta].
    eapply Reads_bind; [apply Parses_readUint8|cbv beta].
    apply Reads_ret. }
  destruct m as [gm|]; cbn [opt_wire opt_holds is_some] in *.
  - pose proof (Hflag eq_refl) as Hset.
    assert (Hlong : (Z.of_nat (length (wire_gold_mod gm ++ wire_gold_tail vac bots))
                     >? 2) = true).
    { apply Z.gtb_lt. unfold wire_gold_mod, wire_gold_tail, cstr.
      rewrite !length_app. cbn [length]. lia. }
    match goal with
    | |- context [when ?c _] =>
        replace c with true by (now rewrite Hset, Hlong)
    end.
    cbn [when].
    eapply ReadsAll_bind.
    { apply (@Reads_map _ _ true enc _ Some).
      apply Reads_gold_mod; assumption. }
    cbv beta. apply ReadsAll_of_Reads. apply Htail.
  - match goal with
    | |- context [when ?c _] =>
        replace c with false by (cbn; now rewrite andb_false_r)
    end.
    cbn [when app].
    change (wire_gold_tail vac bots) with ([] ++ wire_gold_tail vac bots).
    eapply ReadsAll_bind; [apply Reads_ret|cbv beta].
    apply ReadsAll_of_Reads. apply Htail.
Qed.

Lemma legacy_info_response_witness :
  ReadsAll true (Some utf8) (InfoProtocol.parseGoldSrc 0)
           (wire_gold (mkGoldBase (lit "127.0.0.1:27015") (lit "Test")
                                  (lit "de_dust2") (lit "cstrike")
                                  (lit "Counter-Strike") 10 32 47 100 108
                                  false true)
                      None true 2)
           (decoded_gold (Some utf8) 0
                         (mkGoldBase (lit "127.0.0.1:27015") (lit "Test")
                                     (lit "de_dust2") (lit "cstrike")
                                     (lit "Counter-Strike") 10 32 47 100 108
                                     false true)
                         None true 2).
Proof.
  apply (@legacy_info_response_parses (Some utf8) 0
           (mkGoldBase (lit "127.0.0.1:27015") (lit "Test")
                       (lit "de_dust2") (lit "cstrike")
                       (lit "Counter-Strike") 10 32 47 100 108 false true)
           None true 2).
  - unfold valid_gold_base, cstring_bytes; cbn.
    repeat split; repeat constructor; discriminate.
  - exact I.
  - discriminate.
Defined.

(* ===================================================================== *)
(** ** Client: what a query does to the client and its transport          *)
(* ===================================================================== *)

Section QueryFacts.

Variable inflateSync : Buffer -> Result Buffer.
Variable DEFAULT_RETRIES : nat.

Lemma Socket_request_sent (payload : Buffer) (ex : Exchange) (s : A2SSocket) :
  (length (sent (snd (Socket.request inflateSync payload ex s)))
   <= length (sent s) + 1)%nat.
Proof.
  unfold Socket.request. destruct (closed s) eqn:Hc; [cbn; lia|].
  destruct (send_error ex).
  - unfold Socket.close. rewrite Hc. cbn. lia.
  - match goal with
    | |- context [await _ _ ?s0] =>
        destruct (await_keeps inflateSync (arrivals ex) s0) as [_ ->]
    end.
    cbn [sent]. rewrite length_app. cbn [length]. lia.
Qed.

Lemma request_simple_reply (payload data : Buffer) (ex : Exchange)
      (s : A2SSocket) :
  closed s = false -> simple_reply data ex ->
  Socket.request inflateSync payload ex s
  = (Ok data,
     mkA2SSocket false (fragmentBuffer s) (sent s ++ [HEADER_SIMPLE ++ payload])).
Proof.
  intros Hopen (Hsend & more & Harr). unfold Socket.request.
  rewrite Hopen, Hsend, Harr. cbn [await].
  now rewrite handleMessage_simple.
Qed.

Lemma close_sent (c : A2SClient) :
  sent (socket (A2S.close c)) = sent (socket c).
Proof.
  unfold A2S.close, Socket.close.
  destruct (c_closed c), (closed (socket c)); reflexivity.
Qed.

Lemma close_closes (c : A2SClient) :
  closed_together c ->
  c_closed (A2S.close c) = true /\ closed (socket (A2S.close c)) = true.
Proof.
  unfold closed_together, A2S.close, Socket.close. intros H.
  destruct (c_closed c) eqn:E; cbn [negb c_closed socket].
  - now rewrite E, H.
  - destruct (closed (socket c)) eqn:F; cbn [negb closed]; auto.
Qed.

Lemma ensureOpen_ok (c : A2SClient) (u : unit) :
  ensureOpen c = Ok u -> c_closed c = false.
Proof. unfold ensureOpen. destruct (c_closed c); [discriminate|reflexivity]. Qed.

(** The ways one call of [request] can end, for the facts that hold of
    all of them. *)
Ltac request_cases :=
  rewrite request_equation_1;
  match goal with
  | |- context [ensureOpen ?c] =>
      destruct (ensureOpen c) as [u|e0] eqn:Hopen;
      [apply ensureOpen_ok in Hopen|]
  end;
  [match goal with
   | |- context [serializeRequest ?p ?ch] =>
       destruct (serializeRequest p ch) as [payload|e1]
   end;
   [cbv zeta;
    match goal with
    | |- context [Socket.request _ ?p ?ex ?s] =>
        pose proof (Socket_request_sent p ex s) as Hsent;
        destruct (Socket.request inflateSync p ex s) as [[data|e2] s'];
        cbn [snd] in Hsent
    end;
    [match goal with
     | |- context [readUint8 ?r] =>
         destruct (readUint8 r) as [[ty|e3] rd]
     end;
     [match goal with
      | |- context [?t =? A2S_CHALLENGE_RESPONSE] =>
          destruct (t =? A2S_CHALLENGE_RESPONSE)
      end;
      [match goal with
       | |- context [le_lt_dec ?a ?b] => destruct (le_lt_dec a b) as [Hge|Hlt]
       end;
       [|match goal with
         | |- context [readUint32 ?r] =>
             destruct (readUint32 r) as [[newChallenge|e4] rd']
         end]
      |match goal with
       | |- context [validateResponseType ?p ?t] =>
           destruct (validateResponseType p t); cbn [negb];
           [match goal with
            | |- context [deserializeResponse ?p ?t ?q ?r] =>
                destruct (deserializeResponse p t q r) as [[result|e5] rd']
            end|]
       end]
     |]
    |]
   |]
  |].

Lemma request_sent_bound T (protocol : ProtocolHandler T) (net : Network)
      (k : nat) :
  forall (retries : nat) (challenge : Z) (c : A2SClient),
    (DEFAULT_RETRIES - retries <= k)%nat ->
    (length (sent (socket (snd (request inflateSync DEFAULT_RETRIES protocol net
                                        challenge retries c))))
     <= length (sent (socket c)) + k + 1)%nat.
Proof.
  induction k as [|k IH]; intros retries challenge c Hk; request_cases;
    cbn [snd set_socket socket];
    try (destruct (Nat.eqb retries 0));
    rewrite ?close_sent; cbn [snd set_socket socket];
    try lia.
  all: match goal with
       | |- context [request _ _ _ _ ?ch (S ?r) ?c'] =>
           specialize (IH (S r) ch c')
       end.
  all: cbn [set_socket socket] in IH; lia.
Qed.

Lemma request_closed_together T (protocol : ProtocolHandler T) (net : Network)
      (k : nat) :
  forall (retries : nat) (challenge : Z) (c : A2SClient),
    (DEFAULT_RETRIES - retries <= k)%nat ->
    closed_together c ->
    closed_together (snd (request inflateSync DEFAULT_RETRIES protocol net
                                  challenge retries c)).
Proof.
  induction k as [|k IH]; intros retries challenge c Hk Hc; request_cases;
    cbn [snd]; try assumption;
    try (destruct (Nat.eqb retries 0));
    try (intros _; apply close_closes; unfold closed_together;
         cbn [set_socket c_closed]; congruence);
    try (unfold closed_together; cbn [set_socket c_closed]; congruence);
    try lia.
  all: apply IH; [lia|].
  all: unfold closed_together; cbn [set_socket c_closed]; congruence.
Qed.

Lemma request_on_closed_client T (protocol : ProtocolHandler T) (net : Network)
      (challenge : Z) (retries : nat) (c : A2SClient) :
  c_closed c = true ->
  request inflateSync DEFAULT_RETRIES protocol net challenge retries c
  = (Throw (Error "A2SClient socket already closed"), c).
Proof.
  intros Hc. rewrite request_equation_1. unfold ensureOpen. now rewrite Hc.
Qed.

(** One challenge, then the answer. *)
Lemma request_after_one_challenge T (protocol : ProtocolHandler T)
      (net : Network) (enc : option BufferEncoding)
      (c4 more body payload0 payload1 : Buffer) (ty : Z) :
  (1 <= DEFAULT_RETRIES)%nat ->
  length c4 = 4%nat ->
  serializeRequest protocol 0 = Ok payload0 ->
  serializeRequest protocol (le_value c4) = Ok payload1 ->
  challenge_reply (c4 ++ more) (net 0%nat payload0) ->
  simple_reply (ty :: body) (net 1%nat payload1) ->
  ty <> A2S_CHALLENGE_RESPONSE ->
  validateResponseType protocol ty = true ->
  request inflateSync DEFAULT_RETRIES protocol net 0 0 (new_A2SClient enc)
  = (fst (deserializeResponse protocol ty 0%Q
                              (reader_past_type (ty :: body) enc)),
     mkA2SClient enc
                 (mkA2SSocket false []
                              [HEADER_SIMPLE ++ payload0; HEADER_SIMPLE ++ payload1])
                 false).
Proof.
  intros Hmax Hc4 Hp0 Hp1 Hch Hans Hty Hvalid.
  rewrite request_equation_1.
  unfold new_A2SClient.
  cbn [ensureOpen c_closed]. rewrite Hp0. cbv zeta.
  cbn [socket].
  rewrite (@request_answered_by_challenge inflateSync payload0 (c4 ++ more)
             (net 0%nat payload0) new_A2SSocket eq_refl Hch).
  cbn [set_socket c_encoding new_A2SSocket fragmentBuffer sent app].
  rewrite (@readUint8_at _ A2S_CHALLENGE_RESPONSE (c4 ++ more) (At_new _ _ _)).
  change (A2S_CHALLENGE_RESPONSE =? A2S_CHALLENGE_RESPONSE) with true.
  cbv iota.
  destruct (le_lt_dec DEFAULT_RETRIES 0) as [Hge|_]; [lia|].
  rewrite (@readUint32_raw_at _ c4 more
             (At_adv [A2S_CHALLENGE_RESPONSE] _ (At_new _ _ _)) Hc4 eq_refl).
  rewrite request_equation_1.
  cbn [ensureOpen c_closed]. rewrite Hp1. cbv zeta. cbn [socket].
  match goal with
  | |- context [Socket.request _ _ _ ?s] =>
      rewrite (@request_simple_reply payload1 (ty :: body)
                 (net 1%nat payload1) s eq_refl Hans)
  end.
  cbn [set_socket c_encoding fragmentBuffer sent app c_closed Nat.eqb].
  rewrite (@readUint8_at _ ty body (At_new _ _ _)).
  destruct (Z.eqb_spec ty A2S_CHALLENGE_RESPONSE) as [|_]; [contradiction|].
  rewrite Hvalid. cbn [negb]. unfold reader_past_type.
  destruct (deserializeResponse protocol ty 0%Q _) as [[result|e] rd];
    reflexivity.
Qed.

(** The first reply is no challenge. *)
Lemma request_unchallenged T (protocol : ProtocolHandler T)
      (net : Network) (enc : option BufferEncoding)
      (body payload0 : Buffer) (ty : Z) :
  serializeRequest protocol 0 = Ok payload0 ->
  simple_reply (ty :: body) (net 0%nat payload0) ->
  ty <> A2S_CHALLENGE_RESPONSE ->
  let open := mkA2SClient enc (mkA2SSocket false [] [HEADER_SIMPLE ++ payload0])
                          false in
  request inflateSync DEFAULT_RETRIES protocol net 0 0 (new_A2SClient enc)
  = if validateResponseType protocol ty then
      match deserializeResponse
              protocol ty (Qmake (elapsed (net 0%nat payload0)) 1000)
              (reader_past_type (ty :: body) enc) with
      | (Ok result, _) => (Ok result, A2S.close open)
      | (Throw e, _) => (Throw e, open)
      end
    else (Throw (BrokenMessageError
                   ("Invalid response type: 0x" ++ show_hex ty)),
          A2S.close open).
Proof.
  intros Hp0 Hans Hty. cbv zeta.
  rewrite request_equation_1.
  unfold new_A2SClient.
  cbn [ensureOpen c_closed]. rewrite Hp0. cbv zeta.
  cbn [socket].
  rewrite (@request_simple_reply payload0 (ty :: body)
             (net 0%nat payload0) new_A2SSocket eq_refl Hans).
  cbn [set_socket c_encoding new_A2SSocket fragmentBuffer sent app c_closed
       Nat.eqb].
  rewrite (@readUint8_at _ ty body (At_new _ _ _)).
  destruct (Z.eqb_spec ty A2S_CHALLENGE_RESPONSE) as [|_]; [contradiction|].
  unfold reader_past_type.
  destruct (validateResponseType protocol ty); cbn [negb]; reflexivity.
Qed.

End QueryFacts.

(** X16.  Whatever the server and the network do, one query hands at most
    [DEFAULT_RETRIES + 1] datagrams to the transport; on a closed client
    it hands over none, fails with "A2SClient socket already closed" and
    leaves the client as it was.  A query never leaves the client flagged
    closed over an open transport. *)
Theorem query_sends_at_most_retries_plus_one
        (inflateSync : Buffer -> Result Buffer) (DEFAULT_RETRIES : nat)
        (T : Type) (protocol : ProtocolHandler T) (net : Network)
        (c : A2SClient) :
  let res := request inflateSync DEFAULT_RETRIES protocol net 0 0 c in
  (length (sent (socket (snd res)))
   <= length (sent (socket c)) + DEFAULT_RETRIES + 1)%nat /\
  (c_closed c = true ->
   res = (Throw (Error "A2SClient socket already closed"), c)) /\
  (closed_together c -> closed_together (snd res)).
Proof.
  cbv zeta. split; [|split].
  - apply request_sent_bound. lia.
  - apply request_on_closed_client.
  - apply request_closed_together with (k := DEFAULT_RETRIES). lia.
Qed.

(** X17.  The challenge handshake.  When the first reply is a challenge
    and the reply to the second request is a response of a type the codec
    accepts, the query sends exactly two requests, the second one
    serialized with the challenge read from the first reply, and returns
    what the codec makes of the second reply.  The codec is handed a ping
    of 0, not the time the reply took, and the client and its transport
    are left open: the close of the outermost call is skipped on this
    path. *)
Theorem challenged_query_is_answered_on_the_second_request
        (inflateSync : Buffer -> Result Buffer) (DEFAULT_RETRIES : nat)
        (T : Type) (protocol : ProtocolHandler T)
        (net : Network) (enc : option BufferEncoding)
        (c4 more body payload0 payload1 : Buffer) (ty : Z) :
  (1 <= DEFAULT_RETRIES)%nat ->
  length c4 = 4%nat ->
  serializeRequest protocol 0 = Ok payload0 ->
  serializeRequest protocol (le_value c4) = Ok payload1 ->
  challenge_reply (c4 ++ more) (net 0%nat payload0) ->
  simple_reply (ty :: body) (net 1%nat payload1) ->
  ty <> A2S_CHALLENGE_RESPONSE ->
  validateResponseType protocol ty = true ->
  let res := request inflateSync DEFAULT_RETRIES protocol net 0 0
                     (new_A2SClient enc) in
  fst res = fst (deserializeResponse protocol ty 0%Q
                                     (reader_past_type (ty :: body) enc)) /\
  sent (socket (snd res))
  = [HEADER_SIMPLE ++ payload0; HEADER_SIMPLE ++ payload1] /\
  c_closed (snd res) = false /\ closed (socket (snd res)) = false.
Proof.
  intros Hmax Hc4 Hp0 Hp1 Hch Hans Hty Hvalid. cbv zeta.
  rewrite (@request_after_one_challenge inflateSync DEFAULT_RETRIES T protocol
             net enc c4 more body payload0 payload1 ty); try assumption.
  repeat split.
Qed.

Lemma challenged_query_witness :
  let res := request no_inflate 5 InfoProtocol.handler handshake_server 0 0
                     (new_A2SClient (Some utf8)) in
  fst res
  = fst (deserializeResponse
           InfoProtocol.handler A2S_INFO_RESPONSE 0%Q
           (reader_past_type (A2S_INFO_RESPONSE :: wire_base example_base ++ [0])
                             (Some utf8))) /\
  sent (socket (snd res))
  = [HEADER_SIMPLE ++ 84 :: lit "Source Engine Query" ++ [0];
     HEADER_SIMPLE ++ 84 :: lit "Source Engine Query"
                   ++ [0; 239; 190; 173; 222]] /\
  c_closed (snd res) = false /\ closed (socket (snd res)) = false.
Proof.
  apply (@challenged_query_is_answered_on_the_second_request
           no_inflate 5 ServerInfo InfoProtocol.handler handshake_server
           (Some utf8) [239; 190; 173; 222] []
           (wire_base example_base ++ [0])
           (84 :: lit "Source Engine Query" ++ [0])
           (84 :: lit "Source Engine Query" ++ [0; 239; 190; 173; 222])
           A2S_INFO_RESPONSE).
  - lia.
  - reflexivity.
  - reflexivity.
  - reflexivity.
  - split; [reflexivity|]. now exists [].
  - split; [reflexivity|]. now exists [].
  - discriminate.
  - reflexivity.
Defined.

(** X18.  A reply that is no challenge settles the query on the first
    request, with the ping the reply took in seconds.  A response type
    the codec rejects fails with "Invalid response type: 0x.." and closes
    the client and its transport; an accepted one is handed to the codec,
    and the client is closed only if the codec returns: when the codec
    throws, the exception reaches the caller with client and transport
    still open. *)
Theorem unchallenged_reply_settles_the_query
        (inflateSync : Buffer -> Result Buffer) (DEFAULT_RETRIES : nat)
        (T : Type) (protocol : ProtocolHandler T)
        (net : Network) (enc : option BufferEncoding)
        (body payload0 : Buffer) (ty : Z) :
  serializeRequest protocol 0 = Ok payload0 ->
  simple_reply (ty :: body) (net 0%nat payload0) ->
  ty <> A2S_CHALLENGE_RESPONSE ->
  let res := request inflateSync DEFAULT_RETRIES protocol net 0 0
                     (new_A2SClient enc) in
  let parsed :=
    fst (deserializeResponse protocol ty
                             (Qmake (elapsed (net 0%nat payload0)) 1000)
                             (reader_past_type (ty :: body) enc)) in
  sent (socket (snd res)) = [HEADER_SIMPLE ++ payload0] /\
  (validateResponseType protocol ty = false ->
   fst res = Throw (BrokenMessageError
                      ("Invalid response type: 0x" ++ show_hex ty)) /\
   c_closed (snd res) = true /\ closed (socket (snd res)) = true) /\
  (validateResponseType protocol ty = true ->
   fst res = parsed /\
   c_closed (snd res) = is_ok parsed /\
   closed (socket (snd res)) = is_ok parsed).
Proof.
  intros Hp0 Hans Hty. cbv zeta.
  rewrite (@request_unchallenged inflateSync DEFAULT_RETRIES T protocol net enc
             body payload0 ty Hp0 Hans Hty).
  destruct (validateResponseType protocol ty).
  - destruct (deserializeResponse protocol ty _ _) as [[result|e] rd];
      repeat split; discriminate || reflexivity.
  - repeat split; discriminate || reflexivity.
Qed.

Lemma unchallenged_reply_witness :
  let res := request no_inflate 5 InfoProtocol.handler modern_info_server 0 0
                     (new_A2SClient (Some utf8)) in
  let parsed :=
    fst (deserializeResponse
           InfoProtocol.handler A2S_INFO_RESPONSE (Qmake 20 1000)
           (reader_past_type (A2S_INFO_RESPONSE :: wire_base example_base ++ [0])
                             (Some utf8))) in
  sent (socket (snd res))
  = [HEADER_SIMPLE ++ 84 :: lit "Source Engine Query" ++ [0]] /\
  (validateResponseType InfoProtocol.handler A2S_INFO_RESPONSE = false ->
   fst res = Throw (BrokenMessageError
                      ("Invalid response type: 0x" ++ show_hex A2S_INFO_RESPONSE)) /\
   c_closed (snd res) = true /\ closed (socket (snd res)) = true) /\
  (validateResponseType InfoProtocol.handler A2S_INFO_RESPONSE = true ->
   fst res = parsed /\
   c_closed (snd res) = is_ok parsed /\
   closed (socket (snd res)) = is_ok parsed).
Proof.
  apply (@unchallenged_reply_settles_the_query
           no_inflate 5 ServerInfo InfoProtocol.handler modern_info_server
           (Some utf8) (wire_base example_base ++ [0])
           (84 :: lit "Source Engine Query" ++ [0]) A2S_INFO_RESPONSE).
  - reflexivity.
  - split; [reflexivity|]. now exists [].
  - discriminate.
Defined.

(** X19.  The exported functions [info], [players] and [rules] return
    what the method of a fresh client returns and always leave that
    client and its transport closed, whether the query returned, failed
    or was left open by the method. *)
Theorem exported_functions_always_close
        (inflateSync : Buffer -> Result Buffer) (DEFAULT_RETRIES : nat)
        (enc : option BufferEncoding) (net : Network) :
  (fst (Api.info inflateSync DEFAULT_RETRIES enc net)
   = fst (A2S.info inflateSync DEFAULT_RETRIES net (new_A2SClient enc)) /\
   c_closed (snd (Api.info inflateSync DEFAULT_RETRIES enc net)) = true /\
   closed (socket (snd (Api.info inflateSync DEFAULT_RETRIES enc net))) = true) /\
  (fst (Api.players inflateSync DEFAULT_RETRIES enc net)
   = fst (A2S.players inflateSync DEFAULT_RETRIES net (new_A2SClient enc)) /\
   c_closed (snd (Api.players inflateSync DEFAULT_RETRIES enc net)) = true /\
   closed (socket (snd (Api.players inflateSync DEFAULT_RETRIES enc net))) = true) /\
  (fst (Api.rules inflateSync DEFAULT_RETRIES enc net)
   = fst (A2S.rules inflateSync DEFAULT_RETRIES net (new_A2SClient enc)) /\
   c_closed (snd (Api.rules inflateSync DEFAULT_RETRIES enc net)) = true /\
   closed (socket (snd (Api.rules inflateSync DEFAULT_RETRIES enc net))) = true).
Proof.
  assert (Hnew : closed_together (new_A2SClient enc)) by (intros H; discriminate).
  unfold Api.info, Api.players, Api.rules, A2S.info, A2S.players, A2S.rules.
  cbn [ensureOpen new_A2SClient c_closed].
  split; [|split].
  - pose proof (@request_closed_together inflateSync DEFAULT_RETRIES _
                  InfoProtocol.handler net DEFAULT_RETRIES 0%nat 0
                  (new_A2SClient enc) ltac:(lia) Hnew) as H.
    unfold new_A2SClient in H.
    destruct (request _ _ _ _ _ _ _) as [result c]. cbn [fst snd] in *.
    split; [reflexivity|]. now apply close_closes.
  - pose proof (@request_closed_together inflateSync DEFAULT_RETRIES _
                  PlayersProtocol.handler net DEFAULT_RETRIES 0%nat 0
                  (new_A2SClient enc) ltac:(lia) Hnew) as H.
    unfold new_A2SClient in H.
    destruct (request _ _ _ _ _ _ _) as [result c]. cbn [fst snd] in *.
    split; [reflexivity|]. now apply close_closes.
  - pose proof (@request_closed_together inflateSync DEFAULT_RETRIES _
                  RulesProtocol.handler net DEFAULT_RETRIES 0%nat 0
                  (new_A2SClient enc) ltac:(lia) Hnew) as H.
    unfold new_A2SClient in H.
    destruct (request _ _ _ _ _ _ _) as [result c]. cbn [fst snd] in *.
    split; [reflexivity|]. now apply close_closes.
Qed.

(** X20.  Against a server that does not answer, the query sends its one
    request and fails with "Request timeout": a timeout is not retried,
    and the client and its transport are left open. *)
Theorem silent_server_times_out_without_retry
        (inflateSync : Buffer -> Result Buffer) (DEFAULT_RETRIES : nat)
        (T : Type) (protocol : ProtocolHandler T)
        (net : Network) (enc : option BufferEncoding) (payload0 : Buffer) :
  serializeRequest protocol 0 = Ok payload0 ->
  silent (net 0%nat payload0) ->
  request inflateSync DEFAULT_RETRIES protocol net 0 0 (new_A2SClient enc)
  = (Throw (Error "Request timeout"),
     mkA2SClient enc (mkA2SSocket false [] [HEADER_SIMPLE ++ payload0]) false).
Proof.
  intros Hp0 [Hsend Harr]. rewrite request_equation_1. unfold new_A2SClient.
  cbn [ensureOpen c_closed]. rewrite Hp0. cbv zeta.
  unfold Socket.request. cbn [socket new_A2SSocket closed].
  rewrite Hsend, Harr. reflexivity.
Qed.

Lemma silent_server_witness :
  request no_inflate 5 PlayersProtocol.handler silent_server 0 0
          (new_A2SClient (Some utf8))
  = (Throw (Error "Request timeout"),
     mkA2SClient (Some utf8)
                 (mkA2SSocket false [] [HEADER_SIMPLE ++ [85; 0; 0; 0; 0]])
                 false).
Proof.
  apply (@silent_server_times_out_without_retry
           no_inflate 5 (list Player) PlayersProtocol.handler silent_server
           (Some utf8) [85; 0; 0; 0; 0]).
  - reflexivity.
  - split; reflexivity.
Defined.

(** X21.  When the transmission of the request fails, the query fails
    with the error of the transmission and the transport is closed, but
    the client's own flag still says open.  A later query on that client
    passes the open check, sends nothing and ends in "Request timeout". *)
Theorem failed_transmission_closes_the_transport_only
        (inflateSync : Buffer -> Result Buffer) (DEFAULT_RETRIES : nat)
        (T : Type) (protocol : ProtocolHandler T)
        (net : Network) (enc : option BufferEncoding) (payload0 : Buffer)
        (err : JSError) :
  serializeRequest protocol 0 = Ok payload0 ->
  send_error (net 0%nat payload0) = Some err ->
  let broken := mkA2SClient enc (mkA2SSocket true [] []) false in
  request inflateSync DEFAULT_RETRIES protocol net 0 0 (new_A2SClient enc)
  = (Throw err, broken) /\
  forall net',
    request inflateSync DEFAULT_RETRIES protocol net' 0 0 broken
    = (Throw (Error "Request timeout"), broken).
Proof.
  intros Hp0 Herr. cbv zeta. split.
  - rewrite request_equation_1. unfold new_A2SClient.
    cbn [ensureOpen c_closed]. rewrite Hp0. cbv zeta.
    unfold Socket.request. cbn [socket new_A2SSocket closed].
    rewrite Herr. reflexivity.
  - intros net'. rewrite request_equation_1.
    cbn [ensureOpen c_closed]. rewrite Hp0. cbv zeta. reflexivity.
Qed.

Lemma failed_transmission_witness :
  let broken := mkA2SClient (Some utf8) (mkA2SSocket true [] []) false in
  request no_inflate 5 RulesProtocol.handler unreachable_network 0 0
          (new_A2SClient (Some utf8))
  = (Throw (Error "send EHOSTUNREACH"), broken) /\
  forall net',
    request no_inflate 5 RulesProtocol.handler net' 0 0 broken
    = (Throw (Error "Request timeout"), broken).
Proof.
  apply (@failed_transmission_closes_the_transport_only
           no_inflate 5 Rules RulesProtocol.handler unreachable_network
           (Some utf8) [86; 0; 0; 0; 0] (Error "send EHOSTUNREACH"));
    reflexivity.
Defined.

(** The handshake of the scenario, end to end: the record of the second
    reply with a ping of 0, and the client left open. *)
Example handshake_end_to_end :
  info no_inflate DEFAULT_RETRIES_value handshake_server
       (new_A2SClient (Some utf8))
  = (Ok (Source (decoded_info utf8 0 example_base 0 no_optional)),
     mkA2SClient (Some utf8)
                 (mkA2SSocket false []
                    [HEADER_SIMPLE ++ 84 :: lit "Source Engine Query" ++ [0];
                     HEADER_SIMPLE ++ 84 :: lit "Source Engine Query"
                                   ++ [0; 239; 190; 173; 222]])
                 false).
Proof. reflexivity. Qed.

(* ===================================================================== *)
(** ** Query codecs: the letters of the modern info response              *)
(* ===================================================================== *)

Lemma lower_char_ascii (e : BufferEncoding) (b : Z) :
  0 <= b < 128 -> lower_char e b = [ascii_lower b].
Proof.
  intros Hb. unfold lower_char.
  assert (E : Buffer_toString e [b] = [b]).
  { destruct e; [|reflexivity].
    rewrite utf8_single_byte by (unfold is_byte; lia).
    destruct (Z.ltb_spec b 128); [reflexivity|lia]. }
  rewrite E. cbn [toLowerCase map]. unfold toLowerCase_unit, ascii_lower.
  destruct ((65 <=? b) && (b <=? 90)); [reflexivity|].
  destruct (Z.leb_spec 192 b); [lia|reflexivity].
Qed.

Lemma normalize_platform_letter (u : Z) :
  normalize_platform [u] = [if u =? 111 then 109 else u].
Proof.
  unfold normalize_platform, strict_equals_string.
  destruct (list_eq_dec Z.eq_dec [u] (lit "o")) as [E|E];
    destruct (Z.eqb_spec u 111) as [->|Hne]; try reflexivity.
  - injection E as E. contradiction.
  - exfalso. apply E. reflexivity.
Qed.

(** X22.  In a modern info response the server type and the platform are
    one byte each.  For an ASCII byte the record holds the letter in lower
    case, and for the platform the deprecated letter o, in either case, is
    reported as m. *)
Theorem info_letters_are_lower_cased_and_mac_is_m
        (e : BufferEncoding) (ping : Q) (b : SourceBase) (o : SourceOptional) :
  valid_base b -> valid_optional o ->
  0 <= b_serverType b < 128 -> 0 <= b_platform b < 128 ->
  exists info r',
    InfoProtocol.parseSource
      ping (new_ByteReader (wire_base b ++ edf_of o :: wire_optional o)
                           true (Some e))
    = (Ok info, r') /\
    serverType info = Str [ascii_lower (b_serverType b)] /\
    platform info = Str [platform_letter (b_platform b)].
Proof.
  intros Hb Ho Hs Hp.
  destruct (parseSource_spec e ping Hb Ho) as [H _].
  exists (decoded_info e ping b (edf_of o) o). eexists. split.
  - apply (H (new_ByteReader _ true (Some e)) []); try reflexivity.
    rewrite app_nil_r. apply At_new.
  - unfold decoded_info. cbn [serverType platform].
    rewrite !lower_char_ascii by assumption.
    now rewrite normalize_platform_letter.
Qed.

Lemma info_letters_witness :
  exists info r',
    InfoProtocol.parseSource
      0 (new_ByteReader
           (wire_base (mkSourceBase 17 (lit "Test") (lit "de_dust2")
                                    (lit "cstrike") (lit "CSGO")
                                    730 10 32 0 68 79 false true (lit "1.0"))
              ++ edf_of no_optional :: wire_optional no_optional)
           true (Some utf8))
    = (Ok info, r') /\
    serverType info = Str [100] /\
    platform info = Str [109].
Proof.
  apply (@info_letters_are_lower_cased_and_mac_is_m
           utf8 0
           (mkSourceBase 17 (lit "Test") (lit "de_dust2") (lit "cstrike")
                         (lit "CSGO") 730 10 32 0 68 79 false true (lit "1.0"))
           no_optional).
  - unfold valid_base, cstring_bytes; cbn.
    repeat split; try lia; repeat constructor; discriminate.
  - repeat split.
  - cbn. lia.
  - cbn. lia.
Defined.

(* ===================================================================== *)
(** ** Transport: fragments that do not complete a message                *)
(* ===================================================================== *)

(** X23.  The pending fragments outlive the request they arrived for.  A
    request during which only fragments arrive that do not complete their
    message ends in "Request timeout" with those fragments still pending;
    nothing clears them.  The next fragment that declares a count the
    pending set has reached, in whatever later request it arrives, is
    assembled together with them. *)
Theorem timed_out_request_keeps_its_fragments
        (inflateSync : Buffer -> Result Buffer) (payload : Buffer)
        (fs : list A2SFragment) (elapsed : Z) (s : A2SSocket) :
  closed s = false ->
  (forall f, In f fs ->
             decodeFragment inflateSync (fragment_wire f) = Ok f /\
             Z.of_nat (length (fragmentBuffer s) + length fs) < fragmentCount f) ->
  let s1 := mkA2SSocket false (fragmentBuffer s ++ fs)
                        (sent s ++ [HEADER_SIMPLE ++ payload]) in
  Socket.request inflateSync payload
                 (mkExchange None (map multi_datagram fs) elapsed) s
  = (Throw (Error "Request timeout"), s1) /\
  forall (g : A2SFragment) (payload' : Buffer) (elapsed' : Z),
    decodeFragment inflateSync (fragment_wire g) = Ok g ->
    fragmentCount g <= Z.of_nat (length (fragmentBuffer s ++ fs)) + 1 ->
    Socket.request inflateSync payload'
                   (mkExchange None [multi_datagram g] elapsed') s1
    = (Ok (assembled (Array_sort (key_compare fragmentId)
                                 ((fragmentBuffer s ++ fs) ++ [g]))),
       mkA2SSocket false [] (sent s1 ++ [HEADER_SIMPLE ++ payload'])).
Proof.
  intros Hopen Hfs. cbv zeta. split.
  - unfold Socket.request. rewrite Hopen. cbn [send_error arrivals].
    rewrite <- (app_nil_r (map multi_datagram fs)).
    rewrite await_pending by exact Hfs.
    reflexivity.
  - intros g payload' elapsed' Hg Hcount.
    unfold Socket.request. cbn [closed send_error arrivals await].
    unfold multi_datagram. rewrite handleMessage_multi.
    rewrite (handleMultiPacket_decoded _ _ _ Hg).
    rewrite handleFragment_complete by exact Hcount.
    reflexivity.
Qed.

Lemma timed_out_request_witness :
  let stale := mkA2SFragment 7 2 0 1200 0 0 (lit "old") in
  let s1 := mkA2SSocket false ([] ++ [stale])
                        ([] ++ [HEADER_SIMPLE ++ [85; 0; 0; 0; 0]]) in
  Socket.request no_inflate [85; 0; 0; 0; 0]
                 (mkExchange None (map multi_datagram [stale]) 3000)
                 new_A2SSocket
  = (Throw (Error "Request timeout"), s1) /\
  forall (g : A2SFragment) (payload' : Buffer) (elapsed' : Z),
    decodeFragment no_inflate (fragment_wire g) = Ok g ->
    fragmentCount g <= Z.of_nat (length ([] ++ [stale])) + 1 ->
    Socket.request no_inflate payload'
                   (mkExchange None [multi_datagram g] elapsed') s1
    = (Ok (assembled (Array_sort (key_compare fragmentId)
                                 (([] ++ [stale]) ++ [g]))),
       mkA2SSocket false [] (sent s1 ++ [HEADER_SIMPLE ++ payload'])).
Proof.
  apply (@timed_out_request_keeps_its_fragments
           no_inflate [85; 0; 0; 0; 0]
           [mkA2SFragment 7 2 0 1200 0 0 (lit "old")] 3000 new_A2SSocket).
  - reflexivity.
  - intros f [<-|[]]. split; [reflexivity|cbn; lia].
Defined.

(** X24.  A multi-packet datagram with fewer than the eight bytes of a
    fragment header after the packet header is not reported as an error
    event like the other malformed datagrams: the
    [BufferExhaustedError] of [decodeFragment] leaves [handleMessage] as
    an exception, and the transport is left as it was. *)
Theorem short_fragment_throws_out_of_the_handler
        (inflateSync : Buffer -> Result Buffer) (data : Buffer)
        (s : A2SSocket) :
  (length data < 8)%nat ->
  exists msg,
    handleMessage inflateSync (HEADER_MULTI ++ data) s
    = (Throw (BufferExhaustedError msg), s).
Proof.
  intros Hlen. rewrite handleMessage_multi. unfold handleMultiPacket.
  destruct (@decodeFragment_short_header inflateSync data Hlen) as (msg & ->).
  now exists msg.
Qed.

Lemma short_fragment_witness :
  exists msg,
    handleMessage no_inflate (HEADER_MULTI ++ [123; 0; 0; 0; 2]) new_A2SSocket
    = (Throw (BufferExhaustedError msg), new_A2SSocket).
Proof.
  apply (@short_fragment_throws_out_of_the_handler
           no_inflate [123; 0; 0; 0; 2] new_A2SSocket).
  cbn. lia.
Defined.

(* ===================================================================== *)
(** ** Query codecs: what the parsers throw on arbitrary bytes            *)
(* ===================================================================== *)

Section Exceptions.

Variable P : option BufferEncoding -> Prop.

Lemma in_buffer_At (r : ByteReader) :
  in_buffer r -> At r (skipn (Z.to_nat (position r)) (buffer r)).
Proof. intros H. split; [exact H|reflexivity]. Qed.

Lemma At_in_buffer (r : ByteReader) (l : list Z) : At r l -> in_buffer r.
Proof. intros [H _]. exact H. Qed.

Lemma OnlyBroken_ret {A} (a : A) : OnlyBroken P (ret a).
Proof. intros r Hr _. cbn [ret fst snd]. split; [assumption|repeat split]. Qed.

Lemma OnlyBroken_throw {A} (e : JSError) :
  instanceof_BrokenMessageError e = true -> OnlyBroken P (@throw A e).
Proof.
  intros He r Hr _. cbn [throw fst snd].
  split; [assumption|repeat split; assumption].
Qed.

Lemma OnlyBroken_bind {A B} (m : Reader A) (k : A -> Reader B) :
  OnlyBroken P m -> (forall a, OnlyBroken P (k a)) -> OnlyBroken P (bind m k).
Proof.
  intros Hm Hk r Hr HP. unfold bind.
  destruct (Hm r Hr HP) as (Hin & Hb & He & Hres).
  destruct (m r) as [[a|e] r']; cbn [fst snd] in *.
  - destruct (Hk a r' Hin) as (Hin' & Hb' & He' & Hres'); [now rewrite He|].
    split; [exact Hin'|split; [congruence|split; [congruence|exact Hres']]].
  - auto.
Qed.

Lemma OnlyBroken_when {A} (c : bool) (m : Reader A) :
  OnlyBroken P m -> OnlyBroken P (when c m).
Proof.
  intros H. destruct c; cbn [when]; [|apply OnlyBroken_ret].
  apply OnlyBroken_bind; [exact H|]. intros a. apply OnlyBroken_ret.
Qed.

(** A [read] either throws, leaving the reader, or returns as many bytes
    as asked for. *)
Lemma read_outcome (n : nat) (r : ByteReader) :
  in_buffer r ->
  (exists msg, read (Z.of_nat n) r = (Throw (BufferExhaustedError msg), r)) \/
  (exists data, length data = n /\
                read (Z.of_nat n) r = (Ok data, adv r (Z.of_nat n)) /\
                in_buffer (adv r (Z.of_nat n))).
Proof.
  intros Hr. pose proof (in_buffer_At Hr) as Hat.
  pose proof (At_length Hat) as HL.
  destruct (Z.le_gt_cases (Z.of_nat n)
              (Z.of_nat (length (skipn (Z.to_nat (position r)) (buffer r)))))
    as [Hle|Hgt].
  - right. exists (firstn n (skipn (Z.to_nat (position r)) (buffer r))).
    split; [rewrite length_firstn; lia|].
    pose proof (@read_some_at r _ (Z.of_nat n) Hat (conj (Nat2Z.is_nonneg n) Hle))
      as E.
    rewrite Nat2Z.id in E. split; [exact E|].
    unfold in_buffer, adv, set_position in *. cbn [position buffer]. lia.
  - left. rewrite (read_short Hat) by lia. eauto.
Qed.

Lemma OnlyBroken_fixed {A} (n : nat) (f : bool -> Buffer -> Result A) :
  (forall le data, length data = n -> exists a, f le data = Ok a) ->
  OnlyBroken P
    (fun r => (data <- read (Z.of_nat n) ;; lift (f (littleEndian r) data)) r).
Proof.
  intros Hf r Hr _. unfold bind.
  destruct (@read_outcome n r Hr)
    as [(msg & ->)|(data & Hlen & -> & Hin)].
  - cbn [fst snd]. split; [assumption|repeat split].
  - unfold lift. destruct (Hf (littleEndian r) data Hlen) as (a & ->).
    cbn [fst snd]. split; [assumption|repeat split].
Qed.

Lemma readUIntBE_exact (n : nat) (l : Buffer) :
  length l = n -> readUIntBE n l 0 = Ok (le_value (rev l)).
Proof. intros H. unfold readUIntBE. now rewrite bytesAt_exact. Qed.

Lemma OnlyBroken_readUint8 : OnlyBroken P readUint8.
Proof.
  apply (@OnlyBroken_fixed Z 1 (fun _ data => JS.readUInt8 data 0)).
  intros _ data H. unfold JS.readUInt8. rewrite readUIntLE_exact by exact H.
  eauto.
Qed.

Lemma OnlyBroken_readInt8 : OnlyBroken P readInt8.
Proof.
  apply (@OnlyBroken_fixed Z 1 (fun _ data => JS.readInt8 data 0)).
  intros _ data H. unfold JS.readInt8, readIntLE.
  rewrite readUIntLE_exact by exact H. cbn [rbind]. eauto.
Qed.

Lemma OnlyBroken_readUint16 : OnlyBroken P readUint16.
Proof.
  apply (@OnlyBroken_fixed Z 2
           (fun l data => if l then readUInt16LE data 0 else readUInt16BE data 0)).
  intros le data H. unfold readUInt16LE, readUInt16BE.
  rewrite readUIntLE_exact, readUIntBE_exact by exact H.
  destruct le; eauto.
Qed.

Lemma OnlyBroken_readUint32 : OnlyBroken P readUint32.
Proof.
  apply (@OnlyBroken_fixed Z 4
           (fun l data => if l then readUInt32LE data 0 else readUInt32BE data 0)).
  intros le data H. unfold readUInt32LE, readUInt32BE.
  rewrite readUIntLE_exact, readUIntBE_exact by exact H.
  destruct le; eauto.
Qed.

Lemma OnlyBroken_readFloat : OnlyBroken P readFloat.
Proof. exact OnlyBroken_readUint32. Qed.

Lemma OnlyBroken_readInt32 : OnlyBroken P readInt32.
Proof.
  apply (@OnlyBroken_fixed Z 4
           (fun l data => if l then readInt32LE data 0 else readInt32BE data 0)).
  intros le data H. unfold readInt32LE, readInt32BE, readIntLE, readIntBE.
  rewrite readUIntLE_exact, readUIntBE_exact by exact H. cbn [rbind].
  destruct le; eauto.
Qed.

Lemma OnlyBroken_readUint64 : OnlyBroken P readUint64.
Proof.
  apply (@OnlyBroken_fixed Z 8
           (fun l data => if l then readBigUInt64LE data 0
                          else readBigUInt64BE data 0)).
  intros le data H. unfold readBigUInt64LE, readBigUInt64BE.
  rewrite readUIntLE_exact, readUIntBE_exact by exact H.
  destruct le; eauto.
Qed.

Lemma OnlyBroken_readBool : OnlyBroken P readBool.
Proof.
  unfold readBool. apply OnlyBroken_bind; [apply OnlyBroken_readInt8|].
  intros a. apply OnlyBroken_ret.
Qed.

Lemma OnlyBroken_skip : OnlyBroken P (read 1).
Proof.
  intros r Hr _.
  destruct (@read_outcome 1 r Hr)
    as [(msg & E)|(data & Hlen & E & Hin)];
    change (Z.of_nat 1) with 1 in *; rewrite E; cbn [fst snd];
    (split; [assumption|repeat split]).
Qed.

Lemma OnlyBroken_peek : OnlyBroken P (peek None).
Proof.
  intros r Hr _. unfold peek. cbn [fst snd].
  split; [assumption|repeat split].
Qed.

Lemma OnlyBroken_decoded (data : Buffer) : OnlyBroken P (decoded data).
Proof.
  intros r Hr _. unfold decoded.
  destruct (encoding r) eqn:E; cbn [fst snd];
    (split; [assumption|repeat split; assumption]).

Qed.

Lemma OnlyBroken_readChar : OnlyBroken P readChar.
Proof.
  unfold readChar. apply OnlyBroken_bind; [apply OnlyBroken_skip|].
  apply OnlyBroken_decoded.
Qed.

Lemma OnlyBroken_readCString : OnlyBroken P readCString.
Proof.
  intros r Hr _. pose proof (in_buffer_At Hr) as Hat.
  pose proof (At_length Hat) as HL.
  destruct (split_at_zero (skipn (Z.to_nat (position r)) (buffer r)))
    as [Hnz|(s & rest & E & Hnz)].
  - rewrite (@readCString_runs_out r _ Hat Hnz). cbn [fst snd].
    repeat split; try reflexivity;
      unfold in_buffer in *; cbn [adv set_position position buffer]; lia.
  - rewrite E in Hat, HL. rewrite (@readCString_at r s rest Hat Hnz).
    cbn [fst snd]. rewrite length_app in HL. cbn [length] in HL.
    repeat split; try reflexivity;
      unfold in_buffer in *; cbn [adv set_position position buffer]; lia.
Qed.

Lemma OnlyBroken_recover_flags : OnlyBroken P recover_flags.
Proof.
  intros r Hr HP. unfold recover_flags, try_catch.
  destruct (OnlyBroken_readUint8 Hr HP) as (Hin & Hb & He & Hres).
  destruct (readUint8 r) as [[a|e] r']; cbn [fst snd] in *.
  - auto.
  - destruct (instanceof_BufferExhaustedError e); cbn; auto.
Qed.

Lemma OnlyBroken_players_loop (n : nat) :
  forall acc, OnlyBroken P (PlayersProtocol.players_loop n acc).
Proof.
  induction n as [|n IH]; intros acc; cbn [PlayersProtocol.players_loop].
  - apply OnlyBroken_ret.
  - apply OnlyBroken_bind; [apply OnlyBroken_readUint8|intros ?].
    apply OnlyBroken_bind; [apply OnlyBroken_readCString|intros ?].
    apply OnlyBroken_bind; [apply OnlyBroken_readInt32|intros ?].
    apply OnlyBroken_bind; [apply OnlyBroken_readFloat|intros ?].
    apply IH.
Qed.

Lemma OnlyBroken_rules_loop (n : nat) :
  forall acc, OnlyBroken P (RulesProtocol.rules_loop n acc).
Proof.
  induction n as [|n IH]; intros acc; cbn [RulesProtocol.rules_loop].
  - apply OnlyBroken_ret.
  - apply OnlyBroken_bind; [apply OnlyBroken_readCString|intros ?].
    apply OnlyBroken_bind; [apply OnlyBroken_readCString|intros ?].
    apply IH.
Qed.

End Exceptions.

(** One step of a parser built from the primitives. *)
Ltac only_broken_step :=
  first [ apply OnlyBroken_ret
        | apply OnlyBroken_readCString | apply OnlyBroken_readChar
        | apply OnlyBroken_readUint8 | apply OnlyBroken_readUint16
        | apply OnlyBroken_readUint32 | apply OnlyBroken_readInt32
        | apply OnlyBroken_readUint64 | apply OnlyBroken_readFloat
        | apply OnlyBroken_readBool | apply OnlyBroken_peek
        | apply OnlyBroken_skip | apply OnlyBroken_recover_flags
        | apply OnlyBroken_when
        | apply OnlyBroken_bind; [|intros ?] ].

Lemma OnlyBroken_lower_char :
  OnlyBroken text_mode (c <- readChar ;; lift (call_toLowerCase c)).
Proof.
  intros r Hr HP. unfold readChar, bind.
  destruct (@read_outcome 1 r Hr)
    as [(msg & E)|(data & Hlen & E & Hin)];
    change (Z.of_nat 1) with 1 in *; rewrite E; cbn [fst snd].
  - split; [assumption|repeat split].
  - unfold decoded. cbn [adv set_position encoding].
    unfold text_mode in HP.
    destruct (encoding r) as [e|] eqn:Eenc; [|contradiction].
    cbn [fst snd call_toLowerCase lift].
    split; [assumption|split; [reflexivity|split; [exact Eenc|exact I]]].
Qed.

Lemma OnlyBroken_parseSource (ping : Q) :
  OnlyBroken text_mode (InfoProtocol.parseSource ping).
Proof.
  unfold InfoProtocol.parseSource.
  repeat first [ apply OnlyBroken_lower_char | only_broken_step ].
Qed.

Lemma OnlyBroken_parseGoldSrc (P : option BufferEncoding -> Prop) (ping : Q) :
  OnlyBroken P (InfoProtocol.parseGoldSrc ping).
Proof. unfold InfoProtocol.parseGoldSrc. repeat only_broken_step. Qed.

(** X25.  On any bytes whatever, well formed or not, the parsers throw
    nothing but a [BrokenMessageError] or its subclass
    [BufferExhaustedError], so a caller that catches [BrokenMessageError]
    catches every parse failure: the info parser, for every response
    type, and the rule parser under a text decoding, the legacy info
    parser and the player parser in every mode, raw included.  The rule
    parser is left out in raw mode, where a rule named [__proto__] gives
    the result a Buffer as its prototype and a later assignment can be
    rejected with a TypeError. *)
Theorem parsers_throw_only_broken_message_errors (ty : Z) (ping : Q) :
  OnlyBroken text_mode (InfoProtocol.deserializeResponse ty ping) /\
  OnlyBroken text_mode (RulesProtocol.deserializeResponse ty ping) /\
  OnlyBroken any_mode (InfoProtocol.parseGoldSrc ping) /\
  OnlyBroken any_mode (PlayersProtocol.deserializeResponse ty ping).
Proof.
  split; [|split; [|split]].
  - unfold InfoProtocol.deserializeResponse.
    destruct (ty =? A2S_INFO_RESPONSE).
    + apply OnlyBroken_bind; [apply OnlyBroken_parseSource|intros ?].
      apply OnlyBroken_ret.
    + destruct (ty =? A2S_INFO_RESPONSE_LEGACY).
      * apply OnlyBroken_bind; [apply OnlyBroken_parseGoldSrc|intros ?].
        apply OnlyBroken_ret.
      * now apply OnlyBroken_throw.
  - unfold RulesProtocol.deserializeResponse.
    apply OnlyBroken_bind; [apply OnlyBroken_readUint16|intros ?].
    apply OnlyBroken_rules_loop.
  - apply OnlyBroken_parseGoldSrc.
  - unfold PlayersProtocol.deserializeResponse.
    apply OnlyBroken_bind; [apply OnlyBroken_readUint8|intros ?].
    apply OnlyBroken_players_loop.
Qed.
